(** * Retrieval orchestrator of the multi-mode RAG backend

    A shallow embedding of [backend/database.py] (the resilient search
    client) and [backend/chat_engine.py] (router, the four retrieval
    pipelines, reciprocal rank fusion and image scoring), followed by the
    properties the design document states about them.

    Conventions of the embedding.
    - Python [str] is [string]; a character is a code point below 256.
    - Python [float] is modelled by exact rationals [Q]: literals such as
      [0.22], [1.15], [0.7] are the rationals they denote and arithmetic is
      exact.  Cosine similarity (which needs square roots) is a parameter.
    - Exceptions are explicit: a computation returns [Ok v] or [Raise e].
    - The external collaborators (vector-search backend, generator,
      embedding models) are parameters; every call to the backend and to the
      generator is recorded in a trace, and what they answer may depend on
      the calls made so far.
    - A list slice [l[:n]] is [take n l]; every bound in the code is a
      non-negative literal.
    - [print] statements and wall-clock timings are not modelled. *)

From Stdlib Require Import Ascii String QArith Sorting.Sorted Permutation.
From stdpp Require Import gmap strings list.

Open Scope string_scope.
Open Scope nat_scope.
Open Scope list_scope.

(** ** Python string primitives *)

Module PyStr.

Definition code (c : ascii) : nat := nat_of_ascii c.

(** [str.isspace] on code points below 256. *)
Definition is_space (c : ascii) : bool :=
  let n := code c in
  ((9 <=? n) && (n <=? 13)) || ((28 <=? n) && (n <=? 32))
  || (n =? 133) || (n =? 160).

(** [\d] of [re] on code points below 256. *)
Definition is_digit (c : ascii) : bool :=
  let n := code c in (48 <=? n) && (n <=? 57).

Definition truthy (s : string) : bool :=
  match s with EmptyString => false | _ => true end.

Fixpoint lstrip (s : string) : string :=
  match s with
  | String c rest => if is_space c then lstrip rest else s
  | EmptyString => EmptyString
  end.

Fixpoint rev_onto (s acc : string) : string :=
  match s with
  | String c rest => rev_onto rest (String c acc)
  | EmptyString => acc
  end.

Definition rev (s : string) : string := rev_onto s EmptyString.

Definition rstrip (s : string) : string := rev (lstrip (rev s)).

(** [s.strip()] *)
Definition strip (s : string) : string := rstrip (lstrip s).

(** [s.split(sep)] for a one-character separator: empty fields are kept. *)
Fixpoint split_on (sep : ascii) (s : string) : list string :=
  match s with
  | EmptyString => [EmptyString]
  | String c rest =>
      if Ascii.eqb c sep then EmptyString :: split_on sep rest
      else match split_on sep rest with
           | w :: ws => String c w :: ws
           | [] => [String c EmptyString]
           end
  end.

Fixpoint split_every_space (s : string) : list string :=
  match s with
  | EmptyString => [EmptyString]
  | String c rest =>
      if is_space c then EmptyString :: split_every_space rest
      else match split_every_space rest with
           | w :: ws => String c w :: ws
           | [] => [String c EmptyString]
           end
  end.

(** [s.split()]: fields separated by runs of whitespace, none empty. *)
Definition split (s : string) : list string :=
  filter (fun w => truthy w = true) (split_every_space s).

(** [sep.join(parts)] *)
Fixpoint join (sep : string) (parts : list string) : string :=
  match parts with
  | [] => EmptyString
  | [p] => p
  | p :: rest => p +:+ sep +:+ join sep rest
  end.

(** [s.replace(c, "")] for a one-character [c]. *)
Fixpoint remove_char (c : ascii) (s : string) : string :=
  match s with
  | EmptyString => EmptyString
  | String d rest =>
      if Ascii.eqb d c then remove_char c rest else String d (remove_char c rest)
  end.

Fixpoint startswith (p s : string) : bool :=
  match p, s with
  | EmptyString, _ => true
  | String a p', String b s' => Ascii.eqb a b && startswith p' s'
  | String _ _, EmptyString => false
  end.

(** [sub in s] *)
Fixpoint contains (sub s : string) : bool :=
  startswith sub s ||
  match s with
  | EmptyString => false
  | String _ rest => contains sub rest
  end.

Definition lower_char (c : ascii) : ascii :=
  let n := code c in
  if ((65 <=? n) && (n <=? 90))
     || ((192 <=? n) && (n <=? 222) && negb (n =? 215))
  then ascii_of_nat (n + 32) else c.

(** [s.lower()] *)
Fixpoint lower (s : string) : string :=
  match s with
  | EmptyString => EmptyString
  | String c rest => String (lower_char c) (lower rest)
  end.

Definition newline : ascii := ascii_of_nat 10.
Definition comma : ascii := ascii_of_nat 44.
Definition dquote : ascii := ascii_of_nat 34.
Definition nl : string := String newline EmptyString.

(** Value of a run of decimal digits, and the greedy run at the head of a
    string. *)
Fixpoint digits_value (acc : N) (s : string) : N :=
  match s with
  | String c rest => digits_value (10 * acc + N.of_nat (code c - 48))%N rest
  | EmptyString => acc
  end.

Fixpoint take_digits (s : string) : string :=
  match s with
  | String c rest => if is_digit c then String c (take_digits rest) else EmptyString
  | EmptyString => EmptyString
  end.

End PyStr.

(** ** Numbers and ordering *)

(** [sorted(l, key=key, reverse=True)] and [l.sort(key=key, reverse=True)]:
    a stable sort into descending key order (elements with equal keys keep
    their relative order). *)
Fixpoint insert_desc {A : Type} (key : A -> Q) (x : A) (l : list A) : list A :=
  match l with
  | [] => [x]
  | y :: l' =>
      if Qle_bool (key y) (key x) then x :: l else y :: insert_desc key x l'
  end.

Definition sort_desc {A : Type} (key : A -> Q) (l : list A) : list A :=
  foldr (insert_desc key) [] l.

(** ** Data model *)

(** An embedding vector, as stored with documents and images. *)
Definition Emb : Type := list Q.

(** A page marker is an [int] or a [str] in the catalogue. *)
Inductive PyPage :=
| PageInt (n : Z)
| PageStr (s : string).

Definition page_truthy (p : PyPage) : bool :=
  match p with
  | PageInt n => negb (n =? 0)%Z
  | PageStr s => PyStr.truthy s
  end.

(** [a or b] on two results of [dict.get]: [a] when it is truthy, else [b]. *)
Definition py_or {A : Type} (truthy : A -> bool) (a b : option A) : option A :=
  match a with
  | Some x => if truthy x then a else b
  | None => b
  end.

Definition is_truthy {A : Type} (truthy : A -> bool) (a : option A) : bool :=
  match a with
  | Some x => truthy x
  | None => false
  end.

(** An entry of a node's ["related_images"] list.  [score] is the key the
    image pass writes before formatting ([img["score"] = ...]). *)
Module Img.
Record t := mk {
  image_path : option string;
  path : option string;
  page_label : option PyPage;
  page : option PyPage;
  ocr_text : option string;
  clip_embedding : option Emb;
  score : option Q
}.

Definition set_score (img : t) (s : Q) : t :=
  {| image_path := image_path img; path := path img;
     page_label := page_label img; page := page img;
     ocr_text := ocr_text img; clip_embedding := clip_embedding img;
     score := Some s |}.
End Img.

(** A document of the [unified_nodes] collection.  [_id] is
    [str(doc.get("_id"))]; [extra] holds the other string-valued top-level
    fields (["id"], ["product"], ...). *)
Module Node.
Record t := mk {
  _id : string;
  category : option string;
  page : option PyPage;
  combined_text : option string;
  related_images : option (list Img.t);
  embedding : option Emb;
  extra : gmap string string
}.

(** [doc.get(k)] when the result is compared with a [str]: only a
    string-valued field can be equal to it. *)
Definition get_str (doc : t) (k : string) : option string :=
  if String.eqb k "category" then category doc
  else if String.eqb k "combined_text" then combined_text doc
  else extra doc !! k.
End Node.

(** The dictionary [_format_image_path] returns.  The keys ["pdf"] and
    ["pdf_url"] (a title-cased category and a viewer link) are presentation
    data and are left out. *)
Module Out.
Record t := mk {
  image_path : string;
  page : PyPage;
  ocr_text : string;
  score : Q
}.
End Out.

(** ** Effects: exceptions, the capability registry and the call trace *)

Inductive Exn :=
| OperationFailure (msg : string)   (* pymongo.errors.OperationFailure, [msg] is [str(e)] *)
| OtherError (msg : string).

Inductive Res (A : Type) :=
| Ok (a : A)
| Raise (e : Exn).
Arguments Ok {A} a.
Arguments Raise {A} e.

Inductive Collection := embeddings_v1 | image_embeddings | unified_nodes.

(** The [$vectorSearch] stage parameters. *)
Module Params.
Record t := mk {
  index : string;
  path : string;
  queryVector : Emb;
  numCandidates : nat;
  limit : nat;
  filter : option (list (string * string))
}.

Definition set_filter (p : t) (f : option (list (string * string))) : t :=
  {| index := index p; path := path p; queryVector := queryVector p;
     numCandidates := numCandidates p; limit := limit p; filter := f |}.

Definition set_limits (p : t) (lim cands : nat) : t :=
  {| index := index p; path := path p; queryVector := queryVector p;
     numCandidates := cands; limit := lim; filter := filter p |}.
End Params.

(** The calls that leave the process. *)
Inductive Event :=
| EvAggregate (c : Collection) (p : Params.t)   (* collection.aggregate([{"$vectorSearch": p}]) *)
| EvInvoke (prompt : string)                    (* self.llm.invoke(prompt) *)
| EvChain (context question : string).          (* self.chain.invoke({...}) *)

(** Mutable state: [DatabaseHandler._broken_filters] and the calls made. *)
Record World := mkWorld {
  _broken_filters : gset string;
  trace : list Event
}.

Definition M (A : Type) : Type := World -> Res A * World.

#[global] Instance M_ret : MRet M := fun A a w => (Ok a, w).

#[global] Instance M_bind : MBind M := fun A B f m w =>
  match m w with
  | (Ok a, w') => f a w'
  | (Raise e, w') => (Raise e, w')
  end.

Definition raise {A : Type} (e : Exn) : M A := fun w => (Raise e, w).

(** [try: body except <matching>: handler]; state changes made by [body]
    before it raised are kept. *)
Definition try_except {A : Type} (body : M A) (catches : Exn -> bool)
    (handler : Exn -> M A) : M A := fun w =>
  match body w with
  | (Ok a, w') => (Ok a, w')
  | (Raise e, w') => if catches e then handler e w' else (Raise e, w')
  end.

Definition any_exception (e : Exn) : bool := true.

Definition is_operation_failure (e : Exn) : bool :=
  match e with OperationFailure _ => true | OtherError _ => false end.

Definition exn_str (e : Exn) : string :=
  match e with OperationFailure m => m | OtherError m => m end.

Definition log (ev : Event) : M unit := fun w =>
  (Ok tt, {| _broken_filters := _broken_filters w; trace := trace w ++ [ev] |}).

Definition history : M (list Event) := fun w => (Ok (trace w), w).

Definition known_broken : M (gset string) := fun w => (Ok (_broken_filters w), w).

(** [self._broken_filters.add(k)] *)
Definition add_broken (k : string) : M unit := fun w =>
  (Ok tt, {| _broken_filters := _broken_filters w ∪ {[k]}; trace := trace w |}).

Definition lift_res {A : Type} (r : Res A) : M A := fun w => (r, w).

(** [for x in xs: body x] *)
Fixpoint for_each {A : Type} (xs : list A) (body : A -> M unit) : M unit :=
  match xs with
  | [] => mret tt
  | x :: rest => _ ← body x; for_each rest body
  end.

(** [DatabaseHandler.__init__]: the registry starts with ["category"]. *)
Definition fresh_world : World :=
  {| _broken_filters := {["category"]}; trace := [] |}.

Section Orchestrator.

(** The external collaborators.  The search backend and the generator
    see the calls made so far, so they need not answer the same way
    twice. *)
Variable aggregate : list Event -> Collection -> Params.t -> Res (list Node.t).
Variable llm_invoke : list Event -> string -> Res string.
Variable chain_invoke : list Event -> string -> string -> Res string.
Variable get_embeddings : string -> Emb.
Variable get_clip_text_embedding : string -> Emb.
(** [np.dot(a, b) / (np.linalg.norm(a) * np.linalg.norm(b) + 1e-8)] *)
Variable cos_sim : Emb -> Emb -> Q.

(** [list(collection.aggregate([{"$vectorSearch": p}]))] *)
Definition call_aggregate (c : Collection) (p : Params.t) : M (list Node.t) :=
  h ← history; _ ← log (EvAggregate c p); lift_res (aggregate h c p).

(** [self.llm.invoke(prompt).content] *)
Definition call_llm (prompt : string) : M string :=
  h ← history; _ ← log (EvInvoke prompt); lift_res (llm_invoke h prompt).

(** [self.chain.invoke({"context": context, "question": question})] *)
Definition call_chain (context question : string) : M string :=
  h ← history; _ ← log (EvChain context question);
  lift_res (chain_invoke h context question).

(** *** database.py *)

Definition filter_truthy (filter_dict : option (list (string * string))) : bool :=
  match filter_dict with
  | Some (_ :: _) => true
  | _ => false
  end.

Definition filter_keys (filter_dict : option (list (string * string))) : list string :=
  match filter_dict with
  | Some items => items.*1
  | None => []
  end.

(** The local predicate of the fallback: every filter item matches. *)
Definition doc_matches (filter_dict : list (string * string)) (doc : Node.t) : bool :=
  forallb (fun kv => bool_decide (Node.get_str doc kv.1 = Some kv.2)) filter_dict.

(** [retry_params] of the fallback: limit 100, 250 candidates, no filter. *)
Definition retry_params (search_params : Params.t) : Params.t :=
  Params.set_filter (Params.set_limits search_params 100 250) None.

Definition _manual_fallback (collection : Collection) (search_params : Params.t)
    (filter_dict : list (string * string)) : M (list Node.t) :=
  results ← call_aggregate collection (retry_params search_params);
  let filtered := List.filter (doc_matches filter_dict) results in
  mret (take (Params.limit search_params) filtered).

Definition _execute_resilient_search (collection : Collection)
    (search_params : Params.t) (filter_dict : option (list (string * string)))
    : M (list Node.t) :=
  let full_params :=
    if filter_truthy filter_dict
    then Params.set_filter search_params filter_dict
    else search_params in
  broken ← known_broken;
  if filter_truthy filter_dict
     && existsb (fun k => bool_decide (k ∈ broken)) (filter_keys filter_dict)
  then _manual_fallback collection search_params (default [] filter_dict)
  else
    try_except (call_aggregate collection full_params) is_operation_failure
      (fun e =>
         if PyStr.contains "indexed as filter" (exn_str e)
            && filter_truthy filter_dict
         then
           _ ← for_each (filter_keys filter_dict) add_broken;
           _manual_fallback collection search_params (default [] filter_dict)
         else raise e).

Definition base_params (index path : string) (query : Emb) (limit : nat) : Params.t :=
  {| Params.index := index; Params.path := path; Params.queryVector := query;
     Params.numCandidates := 100; Params.limit := limit; Params.filter := None |}.

Definition vector_search (query_embedding : Emb) (limit : nat)
    (filter_dict : option (list (string * string))) : M (list Node.t) :=
  _execute_resilient_search embeddings_v1
    (base_params "vector_index" "embedding" query_embedding limit) filter_dict.

Definition visual_search (clip_embedding : Emb) (limit : nat)
    (filter_dict : option (list (string * string))) : M (list Node.t) :=
  _execute_resilient_search image_embeddings
    (base_params "image_vector_index" "embedding" clip_embedding limit) filter_dict.

Definition unified_search (query_embedding : Emb) (limit : nat)
    (filter_dict : option (list (string * string))) : M (list Node.t) :=
  _execute_resilient_search unified_nodes
    (base_params "vector_index" "embedding" query_embedding limit) filter_dict.

(** [{"category": category} if category else None] *)
Definition category_filter (category : option string)
    : option (list (string * string)) :=
  match category with
  | Some c => if PyStr.truthy c then Some [("category", c)] else None
  | None => None
  end.

Definition strict_visual_search (clip_text_embedding : Emb)
    (category : option string) (limit : nat) : M (list Node.t) :=
  _execute_resilient_search unified_nodes
    (base_params "unified_clip_index" "related_images.clip_embedding"
       clip_text_embedding limit)
    (category_filter category).

(** *** chat_engine.py: helpers around the generator *)

Definition context_of (docs : list Node.t) : string :=
  PyStr.join (PyStr.nl +:+ PyStr.nl)
    (map (fun d => default "" (Node.combined_text d)) docs).

Definition queries_prompt (question : string) : string :=
  "You are a search expert. Rewrite the query below into 3 distinct semantic variations to improve catalog retrieval."
  +:+ PyStr.nl +:+
  "Avoid just changing synonyms; think about different architectural aspects of the query."
  +:+ PyStr.nl +:+ PyStr.nl +:+
  "Original Query: " +:+ question
  +:+ PyStr.nl +:+ PyStr.nl +:+
  "Provide exactly 3 variations, one per line, no numbering:".

Definition relevance_prompt (query context : string) : string :=
  "Rate the relevance of the following context to the user's question."
  +:+ PyStr.nl +:+
  "Question: " +:+ query +:+ PyStr.nl +:+
  "Context: " +:+ context +:+ PyStr.nl +:+ PyStr.nl +:+
  "Rate from 0.0 to 1.0 (float only, e.g., 0.85):".

Definition rewrite_prompt (query : string) : string :=
  "Rewrite the following user design query into a more technical, catalog-friendly search term."
  +:+ PyStr.nl +:+
  "Focus on architectural keywords, materials, and specific products."
  +:+ PyStr.nl +:+ PyStr.nl +:+
  "Original: " +:+ query +:+ PyStr.nl +:+
  "Technical Search Term:".

Definition entities_prompt (text : string) : string :=
  "Extract exactly 5 key architectural or design entities (e.g., 'marble island', 'pendant lighting') from this text. Separated by commas:"
  +:+ PyStr.nl +:+ PyStr.nl +:+ text.

Definition draft_prompt (question context : string) : string :=
  "Based on this partial context, provide a one-sentence design hypothesis:"
  +:+ PyStr.nl +:+ "Context: " +:+ context +:+ PyStr.nl +:+
  "Question: " +:+ question.

(** The non-blank stripped pieces of [res.split(sep)]. *)
Definition stripped_fields (sep : ascii) (res : string) : list string :=
  map PyStr.strip
    (List.filter (fun v => PyStr.truthy (PyStr.strip v)) (PyStr.split_on sep res)).

Definition _generate_queries (question : string) : M (list string) :=
  try_except
    (content ← call_llm (queries_prompt question);
     let res := PyStr.strip content in
     let variations := stripped_fields PyStr.newline res in
     mret (take 3 variations ++ [question]))   (* Always include original *)
    any_exception
    (fun _ => mret [question]).

(** One attempt of the pattern [0\.\d+|1\.0] at the head of [s], with the
    value [float] gives the matched text. *)
Definition match_score_at (s : string) : option Q :=
  match s with
  | String "0" (String "." rest) =>
      let ds := PyStr.take_digits rest in
      if PyStr.truthy ds
      then Some (Qmake (Z.of_N (PyStr.digits_value 0 ds))
                       (Pos.pow 10 (Pos.of_nat (String.length ds))))
      else None
  | String "1" (String "." (String "0" _)) => Some 1%Q
  | _ => None
  end.

(** [re.findall(r"0\.\d+|1\.0", res)[0]] when there is a match. *)
Fixpoint first_score (s : string) : option Q :=
  match match_score_at s with
  | Some q => Some q
  | None =>
      match s with
      | String _ rest => first_score rest
      | EmptyString => None
      end
  end.

Definition _score_relevance (query context : string) : M Q :=
  if negb (PyStr.truthy (PyStr.strip context)) then mret 0%Q
  else
    try_except
      (content ← call_llm (relevance_prompt query context);
       let res := PyStr.strip content in
       mret (default (1 # 2)%Q (first_score res)))
      any_exception
      (fun _ => mret (1 # 2)%Q).

Definition _rewrite_query (query : string) : M string :=
  try_except
    (content ← call_llm (rewrite_prompt query);
     mret (PyStr.remove_char PyStr.dquote (PyStr.strip content)))
    any_exception
    (fun _ => mret query).

Definition _extract_entities (text : string) : M (list string) :=
  try_except
    (content ← call_llm (entities_prompt text);
     let res := PyStr.strip content in
     mret (stripped_fields PyStr.comma res))
    any_exception
    (fun _ => mret []).

Definition category_keywords : list string :=
  ["car"; "vehicle"; "engine"; "speed"; "safety"; "luxury"; "suv"; "sedan";
   "wrench"; "soldering"; "pneumatic"; "wiring"; "electrical"].

Definition _detect_category (question : string) : option string :=
  let q := PyStr.lower question in
  if existsb (fun w => PyStr.contains w q) category_keywords
  then Some "automotive" else None.

Definition _generate_answer (question context : string) : M string :=
  try_except
    (res ← call_chain context question;
     mret (if PyStr.truthy (PyStr.strip res) then res
           else "I'm sorry, I couldn't find enough information in our catalogs to answer that specific design question."))
    any_exception
    (fun e => mret ("I encountered an error while analyzing the catalogs: " +:+ exn_str e)).

Definition _generate_draft_answer (question context : string) : M string :=
  try_except (call_llm (draft_prompt question context)) any_exception
    (fun _ => mret "Seeking further catalog details...").

(** *** chat_engine.py: merging ranked lists *)

Fixpoint dedup_from (seen : gset string) (docs : list Node.t) : list Node.t :=
  match docs with
  | [] => []
  | d :: rest =>
      let did := Node._id d in
      if bool_decide (did ∈ seen) then dedup_from seen rest
      else d :: dedup_from (seen ∪ {[did]}) rest
  end.

Definition _deduplicate_docs (docs : list Node.t) : list Node.t :=
  dedup_from ∅ docs.

(** [1.0 / (rank + k)].  Every caller leaves [k] at its default 60, so the
    divisor is never zero. *)
Definition rrf_term (rank k : nat) : Q := 1 / inject_Z (Z.of_nat (rank + k)).

(** [if doc_id not in fused_scores: fused_scores[doc_id] = 0] followed by
    [fused_scores[doc_id] += term], on a dictionary kept in insertion
    order. *)
Fixpoint add_score (doc_id : string) (term : Q) (fused_scores : list (string * Q))
    : list (string * Q) :=
  match fused_scores with
  | [] => [(doc_id, 0 + term)%Q]
  | (id, s) :: rest =>
      if String.eqb id doc_id then (id, s + term)%Q :: rest
      else (id, s) :: add_score doc_id term rest
  end.

(** The body of [for rank, doc in enumerate(results)], from [rank] on. *)
Fixpoint rrf_scan (k : nat) (results : list Node.t) (rank : nat)
    (st : list (string * Q) * gmap string Node.t)
    : list (string * Q) * gmap string Node.t :=
  match results with
  | [] => st
  | doc :: rest =>
      let doc_id := Node._id doc in
      rrf_scan k rest (S rank)
        (add_score doc_id (rrf_term rank k) st.1, <[doc_id := doc]> st.2)
  end.

(** [fused_scores] and [doc_store] after both loops. *)
Definition rrf_accumulate (k : nat) (results_lists : list (list Node.t))
    : list (string * Q) * gmap string Node.t :=
  foldl (fun st results => rrf_scan k results 0 st) ([], ∅) results_lists.

Definition _reciprocal_rank_fusion (results_lists : list (list Node.t))
    (limit k : nat) : list Node.t :=
  let '(fused_scores, doc_store) := rrf_accumulate k results_lists in
  let ranked_ids := sort_desc snd fused_scores in
  omap (fun entry => doc_store !! entry.1) (take limit ranked_ids).

Definition emb_truthy (e : Emb) : bool :=
  match e with [] => false | _ :: _ => true end.

Definition _rerank_by_relevance (query : string) (docs : list Node.t)
    (top_k : nat) : list Node.t :=
  let q_emb := get_embeddings query in
  let scored :=
    omap (fun d =>
            let d_emb := default [] (Node.embedding d) in
            if emb_truthy d_emb then Some (cos_sim q_emb d_emb, d) else None)
         docs in
  map snd (take top_k (sort_desc fst scored)).

(** *** chat_engine.py: retrieval *)

Definition _retrieve_context (question : string) (top_k : nat)
    (category : option string) : M (list Node.t) :=
  let emb := get_embeddings question in
  unified_search emb top_k (category_filter category).

Definition _format_image_path (img_obj : Img.t) (parent_node : option Node.t)
    : Out.t :=
  let path :=
    default "" (py_or PyStr.truthy (Img.image_path img_obj)
                  (Some (default "" (Img.path img_obj)))) in
  let page := py_or page_truthy (Img.page_label img_obj) (Img.page img_obj) in
  let page :=
    match parent_node with
    | Some node => py_or page_truthy page (Node.page node)
    | None => page
    end in
  {| Out.image_path := path;
     Out.page := default (PageStr "N/A") (py_or page_truthy page (Some (PageStr "N/A")));
     Out.ocr_text := default "" (Img.ocr_text img_obj);
     Out.score := default (3 # 10)%Q (Img.score img_obj) |}.

Definition image_threshold : Q := (22 # 100)%Q.
Definition context_boost : Q := (115 # 100)%Q.

(** [a > b] on scores. *)
Definition Qgtb (a b : Q) : bool := negb (Qle_bool a b).

(** Body of the inner loop of Step 1 (visual-direct search). *)
Definition visual_image (query_clip_emb : Emb) (node : Node.t)
    (st : list Out.t * gset string) (img : Img.t) : list Out.t * gset string :=
  let '(all_candidate_images, seen_paths) := st in
  match py_or PyStr.truthy (Img.image_path img) (Img.path img) with
  | Some img_path =>
      if PyStr.truthy img_path && negb (bool_decide (img_path ∈ seen_paths)) then
        match Img.clip_embedding img with
        | Some img_emb =>
            if emb_truthy img_emb then
              let sim := cos_sim query_clip_emb img_emb in
              if Qgtb sim image_threshold then
                let img := Img.set_score img sim in
                (all_candidate_images ++ [_format_image_path img (Some node)],
                 seen_paths ∪ {[img_path]})
              else st
            else st
        | None => st
        end
      else st
  | None => st
  end.

(** Body of the inner loop of Step 2 (text-context search, boosted). *)
Definition context_image (query_clip_emb : Emb) (doc : Node.t)
    (st : list Out.t * gset string) (img : Img.t) : list Out.t * gset string :=
  let '(all_candidate_images, seen_paths) := st in
  match py_or PyStr.truthy (Img.image_path img) (Img.path img) with
  | Some img_path =>
      if PyStr.truthy img_path && negb (bool_decide (img_path ∈ seen_paths)) then
        match Img.clip_embedding img with
        | Some img_emb =>
            if emb_truthy img_emb then
              let sim := cos_sim query_clip_emb img_emb in
              let final_score := (sim * context_boost)%Q in
              if Qgtb final_score image_threshold then
                let img := Img.set_score img final_score in
                (all_candidate_images ++ [_format_image_path img (Some doc)],
                 seen_paths ∪ {[img_path]})
              else st
            else st
        | None => st
        end
      else st
  | None => st
  end.

(** [for node in nodes: if "related_images" in node: for img in ...: body] *)
Definition scan_nodes
    (body : Node.t -> list Out.t * gset string -> Img.t -> list Out.t * gset string)
    (nodes : list Node.t) (st : list Out.t * gset string)
    : list Out.t * gset string :=
  foldl (fun st node =>
           match Node.related_images node with
           | Some imgs => foldl (body node) st imgs
           | None => st
           end) st nodes.

(** [_retrieve_images] after the visual nodes have been fetched. *)
Definition rank_images (query_clip_emb : Emb) (visual_nodes text_docs : list Node.t)
    (limit : nat) : list Out.t :=
  let st1 := scan_nodes (visual_image query_clip_emb) visual_nodes ([], ∅) in
  let st2 :=
    match text_docs with
    | [] => st1
    | _ :: _ => scan_nodes (context_image query_clip_emb) text_docs st1
    end in
  take limit (sort_desc Out.score st2.1).

Definition _retrieve_images (search_query : string) (category : option string)
    (limit : nat) (text_docs : list Node.t) : M (list Out.t) :=
  let query_clip_emb := get_clip_text_embedding search_query in
  visual_nodes ← strict_visual_search query_clip_emb category 20;
  mret (rank_images query_clip_emb visual_nodes text_docs limit).

(** *** chat_engine.py: the four pipelines and the router *)

(** The dictionary a pipeline returns; absent keys are [None]. *)
Record Bundle := mkBundle {
  answer : string;
  images : list Out.t;
  relevance_score : option Q;
  entities : option (list string);
  queries : option (list string)
}.

Definition docs_truthy (initial_docs : option (list Node.t)) : bool :=
  match initial_docs with
  | Some (_ :: _) => true
  | _ => false
  end.

Definition _standard_rag_pipeline (question : string)
    (initial_docs : option (list Node.t)) : M Bundle :=
  let category := _detect_category question in
  context_docs ←
    (if docs_truthy initial_docs then mret (default [] initial_docs)
     else _retrieve_context question 10 category);
  let context := context_of context_docs in
  images ← _retrieve_images question category 12 context_docs;
  answer ← _generate_answer question context;
  mret {| answer := answer; images := images; relevance_score := None;
          entities := None; queries := None |}.

Definition _corrective_rag_pipeline (question : string)
    (initial_docs : option (list Node.t)) : M Bundle :=
  let category := _detect_category question in
  context_docs ←
    (if docs_truthy initial_docs then mret (default [] initial_docs)
     else _retrieve_context question 8 category);
  let context := context_of context_docs in
  score ← _score_relevance question context;
  '(context_docs, v_query) ←
    (if Qgtb (7 # 10) score then
       rewritten_q ← _rewrite_query question;
       secondary ← _retrieve_context rewritten_q 15 None;
       mret (_deduplicate_docs (context_docs ++ secondary), rewritten_q)
     else mret (context_docs, question));
  let context := context_of (take 12 context_docs) in
  images ← _retrieve_images v_query category 12 context_docs;
  answer ← _generate_answer question context;
  mret {| answer := answer; images := images; relevance_score := Some score;
          entities := None; queries := None |}.

(** [for entity in entities: enriched.extend(self._retrieve_context(entity, 3, None))] *)
Fixpoint enrich (entities : list string) (enriched : list Node.t) : M (list Node.t) :=
  match entities with
  | [] => mret enriched
  | entity :: rest =>
      found ← _retrieve_context entity 3 None;
      enrich rest (enriched ++ found)
  end.

Definition _speculative_rag_pipeline (question : string)
    (initial_docs : option (list Node.t)) : M Bundle :=
  let category := _detect_category question in
  quick_docs ←
    (if docs_truthy initial_docs then mret (take 3 (default [] initial_docs))
     else _retrieve_context question 3 category);
  let quick_context := context_of quick_docs in
  draft ← _generate_draft_answer question quick_context;
  entities ← _extract_entities (question +:+ " " +:+ draft);
  enriched ← enrich (take 2 entities) [];
  let merged := _deduplicate_docs (quick_docs ++ enriched) in
  let merged := _rerank_by_relevance question merged 15 in
  let context := context_of merged in
  answer ← _generate_answer question context;
  let v_query := question +:+ " " +:+ PyStr.join " " (take 2 entities) in
  images ← _retrieve_images v_query category 12 merged;
  mret {| answer := answer; images := images; relevance_score := None;
          entities := Some entities; queries := None |}.

(** [for q in queries: all_results.append(self._retrieve_context(q, 10, category))] *)
Fixpoint multi_search (queries : list string) (category : option string)
    (all_results : list (list Node.t)) : M (list (list Node.t)) :=
  match queries with
  | [] => mret all_results
  | q :: rest =>
      docs ← _retrieve_context q 10 category;
      multi_search rest category (all_results ++ [docs])
  end.

Definition _fusion_rag_pipeline (question : string)
    (initial_docs : option (list Node.t)) : M Bundle :=
  let category := _detect_category question in
  queries ← _generate_queries question;
  let queries := take 2 queries in
  all_results ← multi_search queries category [];
  let fused_docs := _reciprocal_rank_fusion all_results 15 60 in
  let context := context_of fused_docs in
  images ← _retrieve_images question category 12 fused_docs;
  answer ← _generate_answer question context;
  mret {| answer := answer; images := images; relevance_score := None;
          entities := None; queries := Some queries |}.

(** The selection made under [if rag_mode == "auto"], given the probe. *)
Definition auto_router (question : string) (initial_docs : list Node.t) : string :=
  let wc := length (PyStr.split question) in
  if wc <=? 3 then "speculative"
  else if length initial_docs <? 3 then "fusion"
  else "standard".

(** The [if/elif] chain that runs the pipeline named by [rag_mode]; the
    second component is the mode written into the result. *)
Definition run_pipeline (rag_mode question : string)
    (initial_docs : option (list Node.t)) : M (Bundle * string) :=
  if String.eqb rag_mode "standard" then
    result ← _standard_rag_pipeline question initial_docs; mret (result, rag_mode)
  else if String.eqb rag_mode "corrective" then
    result ← _corrective_rag_pipeline question initial_docs; mret (result, rag_mode)
  else if String.eqb rag_mode "speculative" then
    result ← _speculative_rag_pipeline question initial_docs; mret (result, rag_mode)
  else if String.eqb rag_mode "fusion" then
    result ← _fusion_rag_pipeline question initial_docs; mret (result, rag_mode)
  else
    result ← _standard_rag_pipeline question initial_docs; mret (result, "standard").

(** [ask]: the result dictionary with its ["mode"] key
    (["generation_time"] is wall-clock and left out). *)
Definition ask (question rag_mode : string) : M (Bundle * string) :=
  if String.eqb rag_mode "auto" then
    initial_docs ← _retrieve_context question 5 None;
    run_pipeline (auto_router question initial_docs) question (Some initial_docs)
  else run_pipeline rag_mode question None.

(** *** Process lifetimes *)

(** [later w w']: the state [w'] is reached from [w] by calls of the
    search client and of the generator, the only operations that touch
    the state. *)
Inductive later (w : World) : World -> Prop :=
| later_now : later w w
| later_search w1 c p fd :
    later w w1 -> later w (_execute_resilient_search c p fd w1).2
| later_llm w1 prompt :
    later w w1 -> later w (call_llm prompt w1).2
| later_chain w1 context question :
    later w w1 -> later w (call_chain context question w1).2.

End Orchestrator.

(** ** Vocabulary of the properties *)


(** [fused_scores.get(doc_id, 0)] *)
Fixpoint score_of (fused_scores : list (string * Q)) (doc_id : string) : Q :=
  match fused_scores with
  | [] => 0%Q
  | (id, s) :: rest => if String.eqb id doc_id then s else score_of rest doc_id
  end.

(** The fused score the code holds for a document when the loops end. *)
Definition fused_score (k : nat) (results_lists : list (list Node.t))
    (doc_id : string) : Q :=
  score_of (rrf_accumulate k results_lists).1 doc_id.


(** A ranked list with one more entry, placed at rank [pos]. *)
Definition insert_at (pos : nat) (doc : Node.t) (results : list Node.t)
    : list Node.t :=
  take pos results ++ doc :: drop pos results.


(** What a stable descending sort guarantees of two neighbours-in-order:
    [a] may stand before [b] when its key is larger, or the keys are equal
    and [a] came earlier in the input. *)
Definition stable_before {A : Type} (key : A -> Q) (l : list A) (a b : A) : Prop :=
  (key b < key a)%Q \/
  ((key a == key b)%Q /\ exists i j, i < j /\ l !! i = Some a /\ l !! j = Some b).

Fixpoint entries_from (k rank : nat) (results : list Node.t) : list (string * Q) :=
  match results with
  | [] => []
  | doc :: rest => (Node._id doc, rrf_term rank k) :: entries_from k (S rank) rest
  end.

Definition entries (k : nat) (results_lists : list (list Node.t)) : list (string * Q) :=
  concat (map (entries_from k 0) results_lists).

Fixpoint sum_for (doc_id : string) (es : list (string * Q)) : Q :=
  match es with
  | [] => 0%Q
  | (id, term) :: rest =>
      ((if String.eqb id doc_id then term else 0) + sum_for doc_id rest)%Q
  end.

Fixpoint first_seen (seen ids : list string) : list string :=
  match ids with
  | [] => []
  | id :: rest =>
      if bool_decide (id ∈ seen) then first_seen seen rest
      else id :: first_seen (id :: seen) rest
  end.

Definition add_entry (fs : list (string * Q)) (e : string * Q) := add_score e.1 e.2 fs.


(** [doc_store[doc_id] = doc] *)
Definition store_doc (m : gmap string Node.t) (doc : Node.t) : gmap string Node.t :=
  <[Node._id doc := doc]> m.



(** Candidates collected by Step 1 of [_retrieve_images]. *)
Definition visual_candidates (cos_sim : Emb -> Emb -> Q) (query_clip_emb : Emb)
    (visual_nodes : list Node.t) : list Out.t * gset string :=
  scan_nodes (visual_image cos_sim query_clip_emb) visual_nodes ([], ∅).

(** Where a returned entry comes from: an image of a visual node, scored
    with its similarity, or an image of a text document, scored with the
    boosted similarity. *)
Definition from_visual (cos_sim : Emb -> Emb -> Q) (query_clip_emb : Emb)
    (visual_nodes : list Node.t) (o : Out.t) : Prop :=
  exists img_emb,
    (image_threshold < cos_sim query_clip_emb img_emb)%Q /\
    Out.score o = cos_sim query_clip_emb img_emb /\
    exists node imgs img,
      node ∈ visual_nodes /\ Node.related_images node = Some imgs /\ img ∈ imgs /\
      Img.clip_embedding img = Some img_emb /\
      o = _format_image_path
            (Img.set_score img (cos_sim query_clip_emb img_emb)) (Some node).

Definition from_context (cos_sim : Emb -> Emb -> Q) (query_clip_emb : Emb)
    (text_docs : list Node.t) (o : Out.t) : Prop :=
  exists img_emb,
    (image_threshold < cos_sim query_clip_emb img_emb * context_boost)%Q /\
    Out.score o = (cos_sim query_clip_emb img_emb * context_boost)%Q /\
    exists doc imgs img,
      doc ∈ text_docs /\ Node.related_images doc = Some imgs /\ img ∈ imgs /\
      Img.clip_embedding img = Some img_emb /\
      o = _format_image_path
            (Img.set_score img (cos_sim query_clip_emb img_emb * context_boost)%Q)
            (Some doc).

(** The bookkeeping both passes maintain: candidate paths are pairwise
    distinct and all recorded in [seen_paths]. *)
Definition paths_tracked (st : list Out.t * gset string) : Prop :=
  NoDup (map Out.image_path st.1) /\
  forall o, o ∈ st.1 -> Out.image_path o ∈ st.2.

(** [all_candidate_images] and [seen_paths] before the final sort. *)
Definition all_candidates (cos_sim : Emb -> Emb -> Q) (query_clip_emb : Emb)
    (visual_nodes text_docs : list Node.t) : list Out.t * gset string :=
  let st1 := visual_candidates cos_sim query_clip_emb visual_nodes in
  match text_docs with
  | [] => st1
  | _ :: _ => scan_nodes (context_image cos_sim query_clip_emb) text_docs st1
  end.

(** The state after one more recorded call. *)
Definition snoc_event (w : World) (ev : Event) : World :=
  {| _broken_filters := _broken_filters w; trace := trace w ++ [ev] |}.

(** An [M] computation that ends without raising. *)
Definition returns {A : Type} (m : M A) (w : World) : Prop :=
  exists a w', m w = (Ok a, w').

(** A backend call of the image search (the CLIP index) for a query
    embedding, with or without a filter, first attempt or retry. *)
Definition is_image_search (query_clip_emb : Emb) (ev : Event) : Prop :=
  exists p, ev = EvAggregate unified_nodes p /\
            Params.index p = "unified_clip_index" /\
            Params.queryVector p = query_clip_emb.

(** The backend call of an unfiltered text search of the given width. *)
Definition text_search_event (query_emb : Emb) (width : nat) : Event :=
  EvAggregate unified_nodes (base_params "vector_index" "embedding" query_emb width).

(** What the generator helpers compute from the generator's answer. *)
Definition rewritten_query (answer : Res string) (query : string) : string :=
  match answer with
  | Ok content => PyStr.remove_char PyStr.dquote (PyStr.strip content)
  | Raise _ => query
  end.

Definition scored_relevance (answer : Res string) : Q :=
  match answer with
  | Ok content => default (1 # 2)%Q (first_score (PyStr.strip content))
  | Raise _ => (1 # 2)%Q
  end.

Definition extracted_entities (answer : Res string) : list string :=
  match answer with
  | Ok content => stripped_fields PyStr.comma (PyStr.strip content)
  | Raise _ => []
  end.

Definition generated_queries (answer : Res string) (question : string) : list string :=
  match answer with
  | Ok content =>
      take 3 (stripped_fields PyStr.newline (PyStr.strip content)) ++ [question]
  | Raise _ => [question]
  end.

(** A computation that never raises, whatever the state. *)
Definition total {A : Type} (m : M A) : Prop := forall w, returns m w.

(** A computation whose final state is reached by search and generator
    calls only. *)
Definition advances (reach : World -> World -> Prop) {A : Type} (m : M A) : Prop :=
  forall w, reach w (m w).2.

(** ** Further vocabulary: strings *)

(** Some character of the string is not whitespace. *)
Fixpoint has_nonspace (s : string) : bool :=
  match s with
  | EmptyString => false
  | String c rest => negb (PyStr.is_space c) || has_nonspace rest
  end.

(** The string is empty or starts with a character that is not whitespace. *)
Definition no_leading_space (s : string) : Prop :=
  match s with
  | EmptyString => True
  | String c _ => PyStr.is_space c = false
  end.

(** Every character of the string is whitespace. *)
Fixpoint all_space (s : string) : bool :=
  match s with
  | EmptyString => true
  | String c rest => PyStr.is_space c && all_space rest
  end.

(** The characters of a string. *)
Fixpoint chars (s : string) : list ascii :=
  match s with
  | EmptyString => []
  | String c rest => c :: chars rest
  end.

(** A piece produced by [stripped_fields]: non-empty, equal to its own
    [strip()], and free of the separator. *)
Definition clean_field (sep : ascii) (e : string) : Prop :=
  PyStr.truthy e = true /\ PyStr.strip e = e /\ sep ∉ chars e.

(** ** Further vocabulary: merging *)

(** The similarity [_rerank_by_relevance] assigns to a document. *)
Definition rerank_score (get_embeddings : string -> Emb) (cos_sim : Emb -> Emb -> Q)
    (query : string) (d : Node.t) : Q :=
  cos_sim (get_embeddings query) (default [] (Node.embedding d)).

(** The document has a usable (non-empty) text embedding. *)
Definition has_embedding (d : Node.t) : bool :=
  emb_truthy (default [] (Node.embedding d)).

(** [d] is the last document of [docs] with its identifier. *)
Definition last_with_id (docs : list Node.t) (d : Node.t) : Prop :=
  exists l1 l2, docs = l1 ++ d :: l2 /\ Node._id d ∉ map Node._id l2.

(** [d] is the first document of [docs] with its identifier. *)
Definition first_with_id (docs : list Node.t) (d : Node.t) : Prop :=
  exists l1 l2, docs = l1 ++ d :: l2 /\ Node._id d ∉ map Node._id l1.

(** ** Further vocabulary: calls of the pipelines *)

(** A backend call of the text search (the unified text index) for a query
    embedding, with or without a filter, first attempt or retry. *)
Definition is_text_search (query_emb : Emb) (ev : Event) : Prop :=
  exists p, ev = EvAggregate unified_nodes p /\
            Params.index p = "vector_index" /\
            Params.queryVector p = query_emb.

(** The four names a result's ["mode"] can carry. *)
Definition pipeline_modes : list string :=
  ["standard"; "corrective"; "speculative"; "fusion"].

(** What every returned image list satisfies. *)
Definition gallery_ok (imgs : list Out.t) : Prop :=
  length imgs <= 12 /\
  NoDup (map Out.image_path imgs) /\
  StronglySorted (fun a b => (Out.score b <= Out.score a)%Q) imgs /\
  Forall (fun o => (22 # 100 < Out.score o)%Q) imgs.

(** The first truthy page marker of a list of candidates. *)
Fixpoint first_truthy_page (candidates : list (option PyPage)) : option PyPage :=
  match candidates with
  | [] => None
  | c :: rest => if is_truthy page_truthy c then c else first_truthy_page rest
  end.

(** Which optional keys a result carries. *)
Definition keys_match_mode (bundle : Bundle) (mode : string) : Prop :=
  (relevance_score bundle <> None <-> mode = "corrective") /\
  (entities bundle <> None <-> mode = "speculative") /\
  (queries bundle <> None <-> mode = "fusion").

(** ** main.py: the HTTP entry point *)

Module Api.
(** [QuestionRequest]; a request without ["rag_mode"] gets ["standard"]. *)
Record QuestionRequest := mk {
  question : string;
  rag_mode : string
}.

(** [HTTPException(status_code=..., detail=...)] *)
Record HTTPException := mkError {
  status_code : nat;
  detail : string
}.
End Api.

Section HttpApi.

Variable aggregate : list Event -> Collection -> Params.t -> Res (list Node.t).
Variable llm_invoke : list Event -> string -> Res string.
Variable chain_invoke : list Event -> string -> string -> Res string.
Variable get_embeddings : string -> Emb.
Variable get_clip_text_embedding : string -> Emb.
Variable cos_sim : Emb -> Emb -> Q.

(** [ask_question]: the engine's result, or [HTTPException(500, str(e))]
    for any exception of the engine. *)
Definition ask_question (request : Api.QuestionRequest)
    : World -> (Api.HTTPException + (Bundle * string)) * World :=
  fun w =>
    match ask aggregate llm_invoke chain_invoke get_embeddings
            get_clip_text_embedding cos_sim
            (Api.question request) (Api.rag_mode request) w with
    | (Ok response, w') => (inr response, w')
    | (Raise e, w') =>
        (inl {| Api.status_code := 500; Api.detail := exn_str e |}, w')
    end.

(** A computation that can only raise what the search backend raised. *)
Definition backend_faults_only {A : Type} (m : M A) : Prop :=
  forall w e w', m w = (Raise e, w') -> exists h c p, aggregate h c p = Raise e.

End HttpApi.

(** ** rag_tools.py: the embedding models and their caches *)

Module RagTools.

(** What the process asks of the two neural models. *)
Inductive ModelCall :=
| TextEncode (text : string)
| ClipTextFeatures (text : string)
| ClipImageFeatures (image_path : string).

#[global] Instance ModelCall_eq_dec : EqDecision ModelCall.
Proof. solve_decision. Defined.

(** The mutable part of a [RAGTools] object, with the model calls made. *)
Record t := mk {
  _clip_text_cache : gmap string Emb;
  _text_cache : gmap string Emb;
  calls : list ModelCall
}.

(** [__init__]: both caches start empty. *)
Definition init : t :=
  {| _clip_text_cache := ∅; _text_cache := ∅; calls := [] |}.

Section Models.

(** [self.text_model.encode(text).tolist()], the normalised
    [self.clip_model.get_text_features] and [get_image_features]; what a
    model answers may depend on the calls made before. *)
Variable text_model_encode : list ModelCall -> string -> Emb.
Variable clip_text_features : list ModelCall -> string -> Emb.
Variable clip_image_features : list ModelCall -> string -> Emb.

Definition get_embeddings (text : string) (self : t) : Emb * t :=
  match _text_cache self !! text with
  | Some cached => (cached, self)
  | None =>
      let result := text_model_encode (calls self) text in
      (result,
       {| _clip_text_cache := _clip_text_cache self;
          _text_cache := <[text := result]> (_text_cache self);
          calls := calls self ++ [TextEncode text] |})
  end.

Definition get_clip_image_embedding (image_path : string) (self : t) : Emb * t :=
  (clip_image_features (calls self) image_path,
   {| _clip_text_cache := _clip_text_cache self;
      _text_cache := _text_cache self;
      calls := calls self ++ [ClipImageFeatures image_path] |}).

Definition get_clip_text_embedding (text : string) (self : t) : Emb * t :=
  match _clip_text_cache self !! text with
  | Some cached => (cached, self)
  | None =>
      let result := clip_text_features (calls self) text in
      (result,
       {| _clip_text_cache := <[text := result]> (_clip_text_cache self);
          _text_cache := _text_cache self;
          calls := calls self ++ [ClipTextFeatures text] |})
  end.

(** [used self self']: [self'] is the object after any number of further
    embedding requests. *)
Inductive used : t -> t -> Prop :=
| used_now self : used self self
| used_text self text self' :
    used (get_embeddings text self).2 self' -> used self self'
| used_image self image_path self' :
    used (get_clip_image_embedding image_path self).2 self' -> used self self'
| used_clip_text self text self' :
    used (get_clip_text_embedding text self).2 self' -> used self self'.

End Models.

(** The texts handed to the sentence model and to the CLIP text tower. *)
Definition encoded_texts (log : list ModelCall) : list string :=
  omap (fun c => match c with TextEncode text => Some text | _ => None end) log.

Definition clip_texts (log : list ModelCall) : list string :=
  omap (fun c => match c with ClipTextFeatures text => Some text | _ => None end) log.

End RagTools.

(** Cache entries are never overwritten or removed. *)
Definition caches_kept (self self' : RagTools.t) : Prop :=
  (forall text v, RagTools._text_cache self !! text = Some v ->
                  RagTools._text_cache self' !! text = Some v) /\
  (forall text v, RagTools._clip_text_cache self !! text = Some v ->
                  RagTools._clip_text_cache self' !! text = Some v).

(** The cache holds exactly the texts the model was given. *)
Definition caches_match_calls (self : RagTools.t) : Prop :=
  (forall text, is_Some (RagTools._text_cache self !! text) <->
                text ∈ RagTools.encoded_texts (RagTools.calls self)) /\
  (forall text, is_Some (RagTools._clip_text_cache self !! text) <->
                text ∈ RagTools.clip_texts (RagTools.calls self)) /\
  NoDup (RagTools.encoded_texts (RagTools.calls self)) /\
  NoDup (RagTools.clip_texts (RagTools.calls self)).

(** ** rag_tools.py: chunking *)

(** [range(start, stop, step)]; a zero step is a [ValueError]. *)
Definition py_range (start stop step : Z) : Res (list Z) :=
  if (step =? 0)%Z then Raise (OtherError "range() arg 3 must not be zero")
  else
    let count :=
      if (0 <? step)%Z then ((stop - start + step - 1) / step)%Z
      else ((start - stop - step - 1) / (- step))%Z in
    Ok (map (fun k => (start + Z.of_nat k * step)%Z) (seq 0 (Z.to_nat count))).

(** A slice bound as Python resolves it against a length: a negative
    bound counts from the end, and every bound is clipped to the list. *)
Definition slice_bound (n : nat) (i : Z) : nat :=
  if (i <? 0)%Z then Z.to_nat (i + Z.of_nat n) else min (Z.to_nat i) n.

(** [l[i:j]] *)
Definition py_slice {A : Type} (l : list A) (i j : Z) : list A :=
  let a := slice_bound (length l) i in
  let b := slice_bound (length l) j in
  take (b - a) (drop a l).

(** The body of the [for] loop of [get_chunks]. *)
Fixpoint chunk_loop (words : list string) (chunk_size : Z) (indices : list Z)
    : list string :=
  match indices with
  | [] => []
  | i :: rest =>
      let chunk := PyStr.join " " (py_slice words i (i + chunk_size)) in
      if PyStr.truthy (PyStr.strip chunk)
      then chunk :: chunk_loop words chunk_size rest
      else chunk_loop words chunk_size rest
  end.

(** [get_chunks(text, chunk_size=500, overlap=100)] *)
Definition get_chunks (text : string) (chunk_size overlap : Z) : Res (list string) :=
  let words := PyStr.split text in
  match py_range 0 (Z.of_nat (length words)) (chunk_size - overlap) with
  | Ok indices => Ok (chunk_loop words chunk_size indices)
  | Raise e => Raise e
  end.

(** A word: not empty and free of whitespace. *)
Definition is_word (w : string) : Prop :=
  PyStr.truthy w = true /\ Forall (fun c => PyStr.is_space c = false) (chars w).

(** ** A small catalogue and stand-ins for the collaborators

    Used to run the model on concrete inputs.  Embeddings are unit vectors
    with rational coordinates, so the cosine is their dot product. *)

(** Syntactic equality of rationals is decidable (used to compare recorded
    query vectors). *)
#[global] Instance Q_eq_dec : EqDecision Q.
Proof. solve_decision. Defined.

Fixpoint dot (a b : Emb) : Q :=
  match a, b with
  | x :: a', y :: b' => (x * y + dot a' b')%Q
  | _, _ => 0%Q
  end.

Definition sample_cos_sim : Emb -> Emb -> Q := dot.

(** Text embedding stand-in: the code points of the text. *)
Fixpoint sample_embed (text : string) : Emb :=
  match text with
  | EmptyString => []
  | String c rest => inject_Z (Z.of_nat (PyStr.code c)) :: sample_embed rest
  end.

(** CLIP text embedding stand-in: every query maps to the first axis. *)
Definition sample_clip (text : string) : Emb := [1; 0; 0; 0; 0; 0]%Q.

(** Image embeddings at cosine 0.20, 0.25 and 0.27 from the query axis. *)
Definition emb_020 : Emb := [1 # 5; 4 # 5; 2 # 5; 2 # 5; 0; 0]%Q.
Definition emb_025 : Emb := [1 # 4; 3 # 4; 2 # 4; 1 # 4; 1 # 4; 0]%Q.
Definition emb_027 : Emb := [27 # 100; 96 # 100; 7 # 100; 2 # 100; 1 # 100; 1 # 100]%Q.

Definition sample_image (path : string) (emb : Emb) : Img.t :=
  {| Img.image_path := None; Img.path := Some path; Img.page_label := None;
     Img.page := None; Img.ocr_text := Some ""; Img.clip_embedding := Some emb;
     Img.score := None |}.

Definition sample_node (id text : string) (imgs : list Img.t) : Node.t :=
  {| Node._id := id; Node.category := Some "automotive";
     Node.page := Some (PageInt 7); Node.combined_text := Some text;
     Node.related_images := Some imgs; Node.embedding := None; Node.extra := ∅ |}.

Definition node_gasket : Node.t :=
  sample_node "n1" "Gasket set" [sample_image "images/p7_gasket.png" emb_020].
Definition node_wrench : Node.t :=
  sample_node "n2" "Impact wrench 2440 Nm" [sample_image "images/p7_wrench.png" emb_025].
Definition node_socket : Node.t :=
  sample_node "n3" "Socket set" [sample_image "images/p7_socket.png" emb_027].
Definition node_socket_again : Node.t :=
  sample_node "n4" "Socket set, page copy" [sample_image "images/p7_socket.png" emb_027].

(** A backend that answers every call: the CLIP index returns the socket
    node, the text indexes the wrench and gasket nodes. *)
Definition sample_backend (h : list Event) (c : Collection) (p : Params.t)
    : Res (list Node.t) :=
  if String.eqb (Params.index p) "unified_clip_index" then Ok [node_socket]
  else Ok (take (Params.limit p) [node_wrench; node_gasket]).

(** A backend whose CLIP index finds nothing. *)
Definition sample_backend_no_visual (h : list Event) (c : Collection) (p : Params.t)
    : Res (list Node.t) :=
  if String.eqb (Params.index p) "unified_clip_index" then Ok []
  else Ok (take (Params.limit p) [node_wrench; node_gasket]).

(** A backend whose index cannot filter: any filtered call is refused. *)
Definition sample_backend_unindexed (h : list Event) (c : Collection) (p : Params.t)
    : Res (list Node.t) :=
  match Params.filter p with
  | Some _ =>
      Raise (OperationFailure "Path 'style' needs to be indexed as filter")
  | None => Ok [node_wrench; node_gasket]
  end.

(** A generator that answers by kind of prompt. *)
Definition sample_llm (h : list Event) (prompt : string) : Res string :=
  if PyStr.startswith "Rate the relevance" prompt then Ok "0.4"
  else if PyStr.startswith "Rewrite the following" prompt
  then Ok "pneumatic impact wrench torque"
  else if PyStr.startswith "You are a search expert" prompt
  then Ok ("industrial torque driver" +:+ PyStr.nl +:+
           "high power fastening equipment" +:+ PyStr.nl +:+
           "workshop bolt remover")
  else if PyStr.startswith "Extract exactly 5" prompt
  then Ok "impact wrench, torque, air supply"
  else Ok "A pneumatic impact wrench suits this job.".

(** A generator that is down. *)
Definition sample_llm_down (h : list Event) (prompt : string) : Res string :=
  Raise (OtherError "connection refused").

Definition sample_chain (h : list Event) (context question : string) : Res string :=
  Ok "Use the 1-inch impact wrench.".

Definition sample_question : string := "which tool removes stuck wheel bolts".

(** Two ranked lists sharing documents. *)
Definition sample_rankings : list (list Node.t) :=
  [[node_gasket; node_wrench; node_socket]; [node_wrench; node_gasket]].

(** The query vectors of the text searches recorded in a trace. *)
Definition text_search_vectors (tr : list Event) : list Emb :=
  omap (fun ev =>
          match ev with
          | EvAggregate _ p =>
              if String.eqb (Params.index p) "vector_index"
              then Some (Params.queryVector p) else None
          | _ => None
          end) tr.

(** A search filtered on a key the registry does not know yet, and the
    state after the backend has refused it once. *)
Definition style_filter : option (list (string * string)) := Some [("style", "modern")].

Definition style_params : Params.t :=
  base_params "vector_index" "embedding" (sample_embed "oak table") 5.

Definition after_refusal : World :=
  (_execute_resilient_search sample_backend_unindexed unified_nodes
     style_params style_filter fresh_world).2.

Definition category_only : option (list (string * string)) :=
  Some [("category", "automotive")].

(** A backend whose index cannot filter and whose unfiltered retry times
    out. *)
Definition sample_backend_failing_retry (h : list Event) (c : Collection)
    (p : Params.t) : Res (list Node.t) :=
  match Params.filter p with
  | Some _ =>
      Raise (OperationFailure "Path 'style' needs to be indexed as filter")
  | None => Raise (OtherError "connection timed out")
  end.

(** Stand-ins for the sentence model and the two CLIP towers. *)
Definition sample_text_model (h : list RagTools.ModelCall) (text : string) : Emb :=
  sample_embed text.

Definition sample_clip_model (h : list RagTools.ModelCall) (text : string) : Emb :=
  sample_clip text.

Definition sample_image_model (h : list RagTools.ModelCall) (image_path : string)
    : Emb := emb_025.

(** The tools after one text embedding and one CLIP text embedding of the
    same text. *)
Definition sample_tools_embedded : RagTools.t :=
  (RagTools.get_embeddings sample_text_model "oak table" RagTools.init).2.

Definition sample_tools : RagTools.t :=
  (RagTools.get_clip_text_embedding sample_clip_model "oak table"
     sample_tools_embedded).2.

Definition sample_text : string := "one two  three four five".

(** ** Properties *)

(** *** The stable descending sort *)

Lemma StronglySorted_weaken {A : Type} (R1 R2 : A -> A -> Prop) (l : list A) :
  (forall a b, R1 a b -> R2 a b) -> StronglySorted R1 l -> StronglySorted R2 l.
Proof.
  intros HR Hs. induction Hs as [|a l Hs IH Ha]; constructor; [done|].
  eapply Forall_impl; [exact Ha|]. intros b. apply HR.
Qed.

Section SortFacts.
Context {A : Type} (key : A -> Q).

Lemma insert_desc_perm x l : insert_desc key x l ≡ₚ x :: l.
Proof.
  induction l as [|y l IH]; simpl; [done|].
  destruct (Qle_bool (key y) (key x)); [done|].
  rewrite IH. apply Permutation_swap.
Qed.

Lemma sort_desc_perm l : sort_desc key l ≡ₚ l.
Proof.
  induction l as [|x l IH]; simpl; [done|].
  unfold sort_desc in *. simpl. rewrite insert_desc_perm. by rewrite IH.
Qed.

Lemma sort_desc_elem x l : x ∈ sort_desc key l <-> x ∈ l.
Proof. by rewrite sort_desc_perm. Qed.

Lemma stable_before_cons x l a b :
  stable_before key l a b -> stable_before key (x :: l) a b.
Proof.
  intros [H|[H (i & j & Hij & Hi & Hj)]]; [by left|right].
  split; [done|]. exists (S i), (S j). repeat split; [lia|done..].
Qed.

Lemma insert_desc_sorted x l0 l :
  (forall y, y ∈ l -> y ∈ l0) ->
  StronglySorted (stable_before key l0) l ->
  StronglySorted (stable_before key (x :: l0)) (insert_desc key x l).
Proof.
  intros Hin Hs. induction Hs as [|y l Hs IH Hy]; simpl.
  - repeat constructor.
  - destruct (Qle_bool (key y) (key x)) eqn:Hle.
    + apply Qle_bool_iff in Hle.
      assert (Hx : forall z, z ∈ y :: l -> stable_before key (x :: l0) x z).
      { intros z Hz.
        assert (Hzx : (key z <= key x)%Q).
        { apply elem_of_cons in Hz as [->|Hz]; [done|].
          rewrite Forall_forall in Hy. 
          destruct (Hy z) as [Hlt|[Heq _]]; [done| |].
          - eapply Qle_trans; [apply Qlt_le_weak, Hlt|done].
          - rewrite <- Heq. done. }
        destruct (Qlt_le_dec (key z) (key x)) as [Hlt|Hge]; [by left|right].
        split; [by apply Qle_antisym|].
        apply Hin, list_elem_of_lookup in Hz as [j Hj].
        exists 0, (S j). repeat split; [lia|done..]. }
      constructor.
      * constructor.
        -- eapply StronglySorted_weaken; [|exact Hs]. intros; by apply stable_before_cons.
        -- eapply Forall_impl; [exact Hy|]. intros ??; by apply stable_before_cons.
      * apply Forall_forall. intros z Hz. by apply Hx.
    + assert (Hlt : (key x < key y)%Q).
      { apply Qnot_le_lt. intros H. apply Qle_bool_iff in H. congruence. }
      constructor.
      * apply IH. intros z Hz. apply Hin. by right.
      * apply Forall_forall. intros z Hz.
        rewrite insert_desc_perm in Hz. apply elem_of_cons in Hz as [->|Hz].
        -- by left.
        -- apply stable_before_cons. rewrite Forall_forall in Hy. by apply Hy.
Qed.

Lemma sort_desc_stable l : StronglySorted (stable_before key l) (sort_desc key l).
Proof.
  induction l as [|x l IH]; [constructor|].
  apply insert_desc_sorted; [|done]. intros y. by rewrite sort_desc_elem.
Qed.
End SortFacts.

(** *** Reciprocal rank fusion *)

Lemma rrf_scan_scores k results rank st :
  (rrf_scan k results rank st).1 = foldl add_entry st.1 (entries_from k rank results).
Proof.
  revert rank st. induction results as [|d rest IH]; intros rank st; simpl; [done|].
  by rewrite IH.
Qed.

Lemma rrf_accumulate_scores_from k lists st :
  (foldl (fun st results => rrf_scan k results 0 st) st lists).1
  = foldl add_entry st.1 (entries k lists).
Proof.
  revert st. induction lists as [|L lists IH]; intros st; simpl; [done|].
  rewrite IH, rrf_scan_scores. unfold entries. simpl. by rewrite foldl_app.
Qed.

Lemma rrf_accumulate_scores k lists :
  (rrf_accumulate k lists).1 = foldl add_entry [] (entries k lists).
Proof. apply rrf_accumulate_scores_from. Qed.

Lemma score_of_add_score id t fs id' :
  (score_of (add_score id t fs) id' == score_of fs id' + (if String.eqb id id' then t else 0))%Q.
Proof.
  induction fs as [|[i s] fs IH]; simpl.
  - destruct (String.eqb id id'); ring.
  - destruct (String.eqb i id) eqn:E1; simpl.
    + apply String.eqb_eq in E1 as ->.
      destruct (String.eqb id id'); ring.
    + destruct (String.eqb i id') eqn:E2.
      * apply String.eqb_eq in E2 as ->. rewrite String.eqb_sym, E1. ring.
      * done.
Qed.

Lemma score_of_foldl fs es id :
  (score_of (foldl add_entry fs es) id == score_of fs id + sum_for id es)%Q.
Proof.
  revert fs. induction es as [|[i t] es IH]; intros fs; simpl; [ring|].
  rewrite IH. unfold add_entry. simpl. rewrite score_of_add_score. ring.
Qed.

Lemma sum_for_app id es1 es2 :
  (sum_for id (es1 ++ es2) == sum_for id es1 + sum_for id es2)%Q.
Proof.
  induction es1 as [|[i t] es1 IH]; simpl; [ring|]. rewrite IH. ring.
Qed.

Lemma fused_score_sum k lists id :
  (fused_score k lists id == sum_for id (entries k lists))%Q.
Proof.
  unfold fused_score. rewrite rrf_accumulate_scores, score_of_foldl. simpl. ring.
Qed.







(** keys *)
Lemma keys_add_score id t fs :
  (add_score id t fs).*1 =
  if bool_decide (id ∈ fs.*1) then fs.*1 else fs.*1 ++ [id].
Proof.
  induction fs as [|[i s] fs IH]; csimpl; [done|].
  destruct (String.eqb i id) eqn:E.
  - apply String.eqb_eq in E as ->. csimpl.
    rewrite bool_decide_eq_true_2; [done|by left].
  - apply String.eqb_neq in E. csimpl. rewrite IH.
    destruct (bool_decide (id ∈ fs.*1)) eqn:B.
    + apply bool_decide_eq_true in B. rewrite bool_decide_eq_true_2; [done|by right].
    + apply bool_decide_eq_false in B.
      rewrite bool_decide_eq_false_2; [done|]. rewrite not_elem_of_cons. split; [congruence|done].
Qed.

Lemma first_seen_ext s1 s2 l :
  (forall x, x ∈ s1 <-> x ∈ s2) -> first_seen s1 l = first_seen s2 l.
Proof.
  revert s1 s2. induction l as [|x l IH]; intros s1 s2 H; simpl; [done|].
  rewrite (bool_decide_ext _ _ (H x)). destruct (bool_decide (x ∈ s2)).
  - by apply IH.
  - f_equal. apply IH. intros y. rewrite !elem_of_cons. by rewrite H.
Qed.

Lemma keys_foldl fs es :
  (foldl add_entry fs es).*1 = fs.*1 ++ first_seen fs.*1 es.*1.
Proof.
  revert fs. induction es as [|[i t] es IH]; intros fs; csimpl.
  - by rewrite app_nil_r.
  - rewrite IH. unfold add_entry. csimpl. rewrite keys_add_score.
    destruct (bool_decide (i ∈ fs.*1)) eqn:B; [done|].
    rewrite <- app_assoc. csimpl. f_equal. f_equal. apply first_seen_ext.
    intros x. rewrite elem_of_app, !elem_of_cons, elem_of_nil. tauto.
Qed.

Lemma first_seen_elem seen l x :
  x ∈ first_seen seen l <-> x ∈ l /\ x ∉ seen.
Proof.
  revert seen. induction l as [|y l IH]; intros seen; simpl.
  - split; [intros H; by apply elem_of_nil in H|intros [H _]; by apply elem_of_nil in H].
  - destruct (bool_decide (y ∈ seen)) eqn:B.
    + apply bool_decide_eq_true in B. rewrite IH, elem_of_cons.
      split; [tauto|]. intros [[->|H] Hs]; [done|tauto].
    + apply bool_decide_eq_false in B. rewrite !elem_of_cons, IH, not_elem_of_cons.
      split.
      * intros [->|(H1 & H2 & H3)]; tauto.
      * intros [[->|H] Hs]; [by left|]. destruct (decide (x = y)) as [->|Hne]; [by left|].
        right. tauto.
Qed.

Lemma first_seen_NoDup seen l : NoDup (first_seen seen l).
Proof.
  revert seen. induction l as [|y l IH]; intros seen; simpl; [constructor|].
  destruct (bool_decide (y ∈ seen)); [done|].
  constructor; [|done]. rewrite first_seen_elem, not_elem_of_cons. tauto.
Qed.




Lemma rrf_scan_store k results rank st :
  (rrf_scan k results rank st).2 = foldl store_doc st.2 results.
Proof.
  revert rank st. induction results as [|d rest IH]; intros rank st; simpl; [done|].
  by rewrite IH.
Qed.

Lemma rrf_accumulate_store_from k lists st :
  (foldl (fun st results => rrf_scan k results 0 st) st lists).2
  = foldl store_doc st.2 (concat lists).
Proof.
  revert st. induction lists as [|L lists IH]; intros st; simpl; [done|].
  by rewrite IH, rrf_scan_store, foldl_app.
Qed.

Lemma store_lookup m docs id d :
  foldl store_doc m docs !! id = Some d ->
  (d ∈ docs /\ Node._id d = id) \/ m !! id = Some d.
Proof.
  revert m. induction docs as [|x docs IH]; intros m H; simpl in *; [by right|].
  apply IH in H as [[H1 H2]|H].
  - left. split; [by right|done].
  - unfold store_doc in H. apply lookup_insert_Some in H as [[<- <-]|[_ H]].
    + left. split; [by left|done].
    + by right.
Qed.

Lemma store_is_Some m docs id :
  (id ∈ map Node._id docs \/ is_Some (m !! id)) -> is_Some (foldl store_doc m docs !! id).
Proof.
  revert m. induction docs as [|x docs IH]; intros m H; simpl in *.
  - destruct H as [H|H]; [by apply elem_of_nil in H|done].
  - apply IH. rewrite elem_of_cons in H. unfold store_doc.
    destruct (decide (Node._id x = id)) as [<-|Hne].
    + right. rewrite lookup_insert_eq. eauto.
    + rewrite lookup_insert_ne by done. destruct H as [[H|H]|H]; [congruence|by left|by right].
Qed.

Lemma entries_from_keys k r L : (entries_from k r L).*1 = map Node._id L.
Proof. revert r. induction L as [|d L IH]; intros r; csimpl; [done|]. by rewrite IH. Qed.

Lemma entries_keys k lists : (entries k lists).*1 = map Node._id (concat lists).
Proof.
  unfold entries. induction lists as [|L lists IH]; csimpl; [done|].
  by rewrite fmap_app, map_app, IH, entries_from_keys.
Qed.

Lemma rrf_keys k lists :
  (rrf_accumulate k lists).1.*1 = first_seen [] (map Node._id (concat lists)).
Proof. by rewrite rrf_accumulate_scores, keys_foldl, entries_keys. Qed.

Lemma StronglySorted_fst_weaken {A B : Type} (f : A -> B) (R1 : A -> A -> Prop)
    (R2 : B -> B -> Prop) (l : list A) :
  (forall a b, a ∈ l -> b ∈ l -> R1 a b -> R2 (f a) (f b)) ->
  StronglySorted R1 l -> StronglySorted R2 (map f l).
Proof.
  intros HR Hs. induction Hs as [|a l Hs IH Ha]; simpl; constructor.
  - apply IH. intros x y Hx Hy. apply HR; by right.
  - rewrite Forall_forall in Ha. apply List.Forall_map, Forall_forall. intros b Hb.
    apply HR; [by left|by right|by apply Ha].
Qed.

Lemma omap_store_ids (ds : gmap string Node.t) (l : list (string * Q)) :
  (forall e, e ∈ l -> exists d, ds !! e.1 = Some d /\ Node._id d = e.1) ->
  map Node._id (omap (fun e => ds !! e.1) l) = l.*1.
Proof.
  induction l as [|e l IH]; intros H; csimpl; [done|].
  destruct (H e) as (d & Hd & Hid); [by left|]. rewrite Hd. csimpl.
  rewrite Hid, IH; [done|]. intros e' He'. apply H. by right.
Qed.

(** rrf_term *)
Lemma rrf_term_pos rank k : 0 < k -> (0 < rrf_term rank k)%Q.
Proof.
  intros Hk. unfold rrf_term. apply Qlt_shift_div_l.
  - replace 0%Q with (inject_Z 0) by done. rewrite <- Zlt_Qlt. lia.
  - rewrite Qmult_0_l. done.
Qed.

Lemma rrf_term_antitone r1 r2 k : 0 < k -> r1 <= r2 -> (rrf_term r2 k <= rrf_term r1 k)%Q.
Proof.
  intros Hk Hr. unfold rrf_term.
  assert (H1 : (0 < inject_Z (Z.of_nat (r1 + k)))%Q).
  { replace 0%Q with (inject_Z 0) by done. rewrite <- Zlt_Qlt. lia. }
  assert (H2 : (0 < inject_Z (Z.of_nat (r2 + k)))%Q).
  { replace 0%Q with (inject_Z 0) by done. rewrite <- Zlt_Qlt. lia. }
  apply Qle_shift_div_l; [done|].
  unfold Qdiv. rewrite Qmult_1_l.
  rewrite Qmult_comm. apply Qle_shift_div_r; [done|].
  rewrite Qmult_1_l. rewrite <- Zle_Qle. lia.
Qed.



Lemma rrf_store_complete k lists id :
  id ∈ map Node._id (concat lists) ->
  exists d, (rrf_accumulate k lists).2 !! id = Some d /\ Node._id d = id.
Proof.
  intros H. unfold rrf_accumulate. rewrite rrf_accumulate_store_from. simpl.
  destruct (store_is_Some ∅ (concat lists) id) as [d Hd]; [by left|].
  exists d. split; [done|]. apply store_lookup in Hd as [[_ ?]|Hd]; [done|].
  by rewrite lookup_empty in Hd.
Qed.

Lemma rrf_key_in_inputs k lists (e : string * Q) :
  e ∈ (rrf_accumulate k lists).1 -> e.1 ∈ map Node._id (concat lists).
Proof.
  intros He.
  assert (H : e.1 ∈ (rrf_accumulate k lists).1.*1).
  { apply list_elem_of_fmap. by exists e. }
  rewrite rrf_keys in H. by apply first_seen_elem in H as [? _].
Qed.


Lemma entries_from_app k r l1 l2 :
  entries_from k r (l1 ++ l2) = entries_from k r l1 ++ entries_from k (r + length l1) l2.
Proof.
  revert r. induction l1 as [|d l1 IH]; intros r; simpl.
  - by rewrite Nat.add_0_r.
  - rewrite IH. do 3 f_equal. lia.
Qed.

Lemma sum_for_entries_from_nonneg k r L id :
  0 < k -> (0 <= sum_for id (entries_from k r L))%Q.
Proof.
  intros Hk. revert r. induction L as [|d L IH]; intros r; simpl; [done|].
  pose proof (IH (S r)). pose proof (rrf_term_pos r k Hk).
  destruct (String.eqb (Node._id d) id).
  - apply Qlt_le_weak in H0.
    replace 0%Q with (0 + 0)%Q by done. by apply Qplus_le_compat.
  - by rewrite Qplus_0_l.
Qed.

Lemma entries_split k pre L post :
  entries k (pre ++ L :: post) = entries k pre ++ entries_from k 0 L ++ entries k post.
Proof. unfold entries. by rewrite map_app, concat_app. Qed.

Lemma entries_app k pre post :
  entries k (pre ++ post) = entries k pre ++ entries k post.
Proof. unfold entries. by rewrite map_app, concat_app. Qed.

(** Exchanging the document with the entry just above it. *)
Lemma sum_for_swap k r l1 y d l2 :
  0 < k ->
  (sum_for (Node._id d) (entries_from k r (l1 ++ y :: d :: l2)) <=
   sum_for (Node._id d) (entries_from k r (l1 ++ d :: y :: l2)))%Q.
Proof.
  intros Hk. rewrite !entries_from_app, !sum_for_app. simpl.
  apply Qplus_le_r. rewrite String.eqb_refl.
  pose proof (rrf_term_antitone (r + length l1) (S (r + length l1)) k Hk ltac:(lia)) as Hle.
  set (rest := sum_for (Node._id d) (entries_from k (S (S (r + length l1))) l2)).
  set (hi := rrf_term (r + length l1) k) in *.
  set (lo := rrf_term (S (r + length l1)) k) in *.
  destruct (String.eqb (Node._id y) (Node._id d)).
  - apply Qle_lteq. right. ring.
  - rewrite !Qplus_0_l. apply Qplus_le_l with (z := (- rest)%Q).
    ring_simplify. done.
Qed.

Lemma insert_at_succ pos doc results y :
  results !! pos = Some y ->
  insert_at pos doc results = take pos results ++ doc :: y :: drop (S pos) results /\
  insert_at (S pos) doc results = take pos results ++ y :: doc :: drop (S pos) results.
Proof.
  intros H. unfold insert_at. split.
  - by rewrite (drop_S _ _ _ H).
  - rewrite (take_S_r _ _ _ H), <- app_assoc. done.
Qed.

Lemma sum_for_insert_at_le k better worse doc results :
  0 < k -> better <= worse -> worse <= length results ->
  (sum_for (Node._id doc) (entries_from k 0 (insert_at worse doc results)) <=
   sum_for (Node._id doc) (entries_from k 0 (insert_at better doc results)))%Q.
Proof.
  intros Hk Hle Hlen. induction Hle as [|worse Hle IH]; [apply Qle_refl|].
  eapply Qle_trans; [|apply IH; lia].
  destruct (lookup_lt_is_Some_2 results worse) as [y Hy]; [lia|].
  destruct (insert_at_succ worse doc results y Hy) as [-> ->].
  by apply sum_for_swap.
Qed.

Lemma sum_for_append_le k doc results :
  0 < k ->
  (sum_for (Node._id doc) (entries_from k 0 results) <=
   sum_for (Node._id doc) (entries_from k 0 (insert_at (length results) doc results)))%Q.
Proof.
  intros Hk. unfold insert_at. rewrite firstn_all, drop_all.
  rewrite entries_from_app, sum_for_app. simpl. rewrite String.eqb_refl.
  pose proof (rrf_term_pos (length results) k Hk) as Hpos. apply Qlt_le_weak in Hpos.
  set (t := rrf_term (length results) k) in *.
  set (s := sum_for _ _).
  apply Qplus_le_l with (z := (- s)%Q). ring_simplify. done.
Qed.

(** C6. Reciprocal rank fusion is monotonic in rank.  For a document and
    any collection of lists: giving it one more entry in a list, at any
    rank, never lowers its fused score; moving its entry in one list from
    a rank to a better (smaller) one never lowers it; and adding a whole
    list to the collection never lowers it. *)
Theorem reciprocal_rank_fusion_monotonic
    (before after : list (list Node.t)) (results extra : list Node.t)
    (doc : Node.t) (better worse : nat) :
  better <= worse -> worse <= length results ->
  let score lists := fused_score 60 lists (Node._id doc) in
  (score (before ++ results :: after)
   <= score (before ++ insert_at better doc results :: after))%Q /\
  (score (before ++ insert_at worse doc results :: after)
   <= score (before ++ insert_at better doc results :: after))%Q /\
  (score (before ++ after) <= score (before ++ extra :: after))%Q.
Proof.
  intros Hle Hlen score. subst score. simpl.
  rewrite !fused_score_sum, !entries_split, entries_app, !sum_for_app.
  assert (Hk : 0 < 60) by lia.
  repeat split.
  - apply Qplus_le_r, Qplus_le_l.
    eapply Qle_trans; [apply sum_for_append_le; exact Hk|].
    apply sum_for_insert_at_le; [done|lia|done].
  - apply Qplus_le_r, Qplus_le_l. by apply sum_for_insert_at_le.
  - apply Qplus_le_r.
    pose proof (sum_for_entries_from_nonneg 60 0 extra (Node._id doc) Hk) as H0.
    set (a := sum_for _ (entries_from _ _ _)) in *. set (b := sum_for _ _).
    apply Qplus_le_l with (z := (- b)%Q). ring_simplify. done.
Qed.

(** *** Image retrieval *)

Lemma Qgtb_true a b : Qgtb a b = true <-> (b < a)%Q.
Proof.
  unfold Qgtb. rewrite negb_true_iff. split.
  - intros H. apply Qnot_le_lt. intros Hle. apply Qle_bool_iff in Hle. congruence.
  - intros H. destruct (Qle_bool a b) eqn:E; [|done].
    apply Qle_bool_iff in E. exfalso. by apply (Qlt_not_le b a).
Qed.

Lemma format_image_path_path img s node p :
  py_or PyStr.truthy (Img.image_path img) (Img.path img) = Some p ->
  Out.image_path (_format_image_path (Img.set_score img s) node) = p.
Proof.
  unfold _format_image_path, py_or. simpl.
  destruct (Img.image_path img) as [x|]; [destruct (PyStr.truthy x)|];
    intros H; simpl; try congruence; by rewrite H.
Qed.

Lemma format_image_path_score img s node :
  Out.score (_format_image_path (Img.set_score img s) node) = s.
Proof. done. Qed.

Lemma foldl_invariant {A S : Type} (f : S -> A -> S) (P : S -> Prop) (l : list A) :
  (forall x s, x ∈ l -> P s -> P (f s x)) -> forall s, P s -> P (foldl f s l).
Proof.
  induction l as [|x l IH]; intros Hstep s Hs; simpl; [done|].
  apply IH.
  - intros y s' Hy. apply Hstep. by right.
  - apply Hstep; [by left|done].
Qed.

Section ImageScan.
Context (cos_sim : Emb -> Emb -> Q) (query_clip_emb : Emb).

Lemma scan_nodes_ind
    (body : Node.t -> list Out.t * gset string -> Img.t -> list Out.t * gset string)
    (nodes : list Node.t) (P : list Out.t * gset string -> Prop) :
  (forall node imgs img st,
      node ∈ nodes -> Node.related_images node = Some imgs -> img ∈ imgs ->
      P st -> P (body node st img)) ->
  forall st, P st -> P (scan_nodes body nodes st).
Proof.
  intros Hstep. unfold scan_nodes. apply foldl_invariant.
  intros node st Hn Hst. destruct (Node.related_images node) as [imgs|] eqn:E; [|done].
  revert st Hst. apply foldl_invariant. intros img st Hi Hst. by eapply Hstep.
Qed.

Lemma paths_tracked_snoc st o :
  paths_tracked st -> Out.image_path o ∉ st.2 ->
  paths_tracked (st.1 ++ [o], st.2 ∪ {[Out.image_path o]}).
Proof.
  intros [Hnd Hseen] Hnew. split; simpl.
  - rewrite map_app. simpl. apply NoDup_app. repeat split; [done| |apply NoDup_singleton].
    intros p Hp Hp'. apply list_elem_of_singleton in Hp'. subst p.
    apply list_elem_of_In, in_map_iff in Hp as (o' & Heq & Ho').
    apply Hnew. rewrite <- Heq. apply Hseen. by apply list_elem_of_In.
  - intros o' Ho'. apply elem_of_app in Ho' as [Ho'|Ho'].
    + apply elem_of_union_l. by apply Hseen.
    + apply list_elem_of_singleton in Ho'. subst o'. apply elem_of_union_r.
      by apply elem_of_singleton.
Qed.

(** One step of either pass leaves the state alone or appends one entry
    with a fresh path. *)
Lemma visual_image_step node st img :
  visual_image cos_sim query_clip_emb node st img = st \/
  exists img_path img_emb,
    py_or PyStr.truthy (Img.image_path img) (Img.path img) = Some img_path /\
    (img_path ∉ st.2) /\ Img.clip_embedding img = Some img_emb /\
    (image_threshold < cos_sim query_clip_emb img_emb)%Q /\
    visual_image cos_sim query_clip_emb node st img =
      (st.1 ++ [_format_image_path
                  (Img.set_score img (cos_sim query_clip_emb img_emb)) (Some node)],
       st.2 ∪ {[img_path]}).
Proof.
  unfold visual_image. destruct st as [acc seen]. simpl.
  destruct (py_or _ _ _) as [p|] eqn:Ep; [|by left].
  destruct (PyStr.truthy p); simpl; [|by left].
  destruct (bool_decide (p ∈ seen)) eqn:Es; simpl; [by left|].
  apply bool_decide_eq_false in Es.
  destruct (Img.clip_embedding img) as [e|] eqn:Ee; [|by left].
  destruct (emb_truthy e); [|by left].
  destruct (Qgtb _ _) eqn:Eq; [|by left].
  apply Qgtb_true in Eq. right. by exists p, e.
Qed.

Lemma context_image_step doc st img :
  context_image cos_sim query_clip_emb doc st img = st \/
  exists img_path img_emb,
    py_or PyStr.truthy (Img.image_path img) (Img.path img) = Some img_path /\
    (img_path ∉ st.2) /\ Img.clip_embedding img = Some img_emb /\
    (image_threshold < cos_sim query_clip_emb img_emb * context_boost)%Q /\
    context_image cos_sim query_clip_emb doc st img =
      (st.1 ++ [_format_image_path
                  (Img.set_score img (cos_sim query_clip_emb img_emb * context_boost)%Q)
                  (Some doc)],
       st.2 ∪ {[img_path]}).
Proof.
  unfold context_image. destruct st as [acc seen]. simpl.
  destruct (py_or _ _ _) as [p|] eqn:Ep; [|by left].
  destruct (PyStr.truthy p); simpl; [|by left].
  destruct (bool_decide (p ∈ seen)) eqn:Es; simpl; [by left|].
  apply bool_decide_eq_false in Es.
  destruct (Img.clip_embedding img) as [e|] eqn:Ee; [|by left].
  destruct (emb_truthy e); [|by left].
  destruct (Qgtb _ _) eqn:Eq; [|by left].
  apply Qgtb_true in Eq. right. by exists p, e.
Qed.

Lemma visual_pass_spec visual_nodes :
  let st := visual_candidates cos_sim query_clip_emb visual_nodes in
  paths_tracked st /\
  Forall (from_visual cos_sim query_clip_emb visual_nodes) st.1.
Proof.
  unfold visual_candidates.
  apply (scan_nodes_ind _ visual_nodes
           (fun st => paths_tracked st /\
                      Forall (from_visual cos_sim query_clip_emb visual_nodes) st.1)).
  - intros node imgs img st Hn Hr Hi [Ht Hf].
    destruct (visual_image_step node st img) as [->|(p & e & Hp & Hs & He & Hq & ->)]; [done|].
    pose proof (format_image_path_path img (cos_sim query_clip_emb e) (Some node) p Hp) as Hpath.
    split.
    + rewrite <- Hpath. apply paths_tracked_snoc; [done|by rewrite Hpath].
    + simpl. apply Forall_app. split; [done|]. apply Forall_singleton.
      exists e. repeat split; [done|]. by exists node, imgs, img.
  - split; [split; [constructor|]|constructor]. simpl. intros o Ho. by apply elem_of_nil in Ho.
Qed.

Lemma context_pass_spec text_docs st0 :
  paths_tracked st0 ->
  let st := scan_nodes (context_image cos_sim query_clip_emb) text_docs st0 in
  paths_tracked st /\
  exists added, st.1 = st0.1 ++ added /\
                Forall (from_context cos_sim query_clip_emb text_docs) added.
Proof.
  intros H0.
  apply (scan_nodes_ind _ text_docs
           (fun st => paths_tracked st /\
                      exists added, st.1 = st0.1 ++ added /\
                        Forall (from_context cos_sim query_clip_emb text_docs) added)).
  - intros doc imgs img st Hn Hr Hi [Ht (added & Hadd & Hf)].
    destruct (context_image_step doc st img) as [->|(p & e & Hp & Hs & He & Hq & ->)];
      [by eauto|].
    pose proof (format_image_path_path img (cos_sim query_clip_emb e * context_boost)%Q
                  (Some doc) p Hp) as Hpath.
    split.
    + rewrite <- Hpath. apply paths_tracked_snoc; [done|by rewrite Hpath].
    + simpl. eexists (added ++ [_]). rewrite Hadd, app_assoc. split; [done|].
      apply Forall_app. split; [done|]. apply Forall_singleton.
      exists e. repeat split; [done|]. by exists doc, imgs, img.
  - split; [done|]. exists []. by rewrite app_nil_r.
Qed.

Lemma rank_images_eq visual_nodes text_docs limit :
  rank_images cos_sim query_clip_emb visual_nodes text_docs limit =
  take limit (sort_desc Out.score (all_candidates cos_sim query_clip_emb visual_nodes text_docs).1).
Proof. unfold rank_images, all_candidates, visual_candidates. by destruct text_docs. Qed.

Lemma all_candidates_spec visual_nodes text_docs :
  let st := all_candidates cos_sim query_clip_emb visual_nodes text_docs in
  NoDup (map Out.image_path st.1) /\
  exists added,
    st.1 = (visual_candidates cos_sim query_clip_emb visual_nodes).1 ++ added /\
    Forall (from_visual cos_sim query_clip_emb visual_nodes)
      (visual_candidates cos_sim query_clip_emb visual_nodes).1 /\
    Forall (from_context cos_sim query_clip_emb text_docs) added.
Proof.
  destruct (visual_pass_spec visual_nodes) as [Ht Hv]. unfold all_candidates.
  destruct text_docs as [|doc docs].
  - split; [apply Ht|]. exists []. by rewrite app_nil_r.
  - destruct (context_pass_spec (doc :: docs) _ Ht) as [[Hnd _] (added & Hadd & Hc)].
    split; [done|]. by exists added.
Qed.
End ImageScan.

Lemma StronglySorted_take {A : Type} (R : A -> A -> Prop) (n : nat) (l : list A) :
  StronglySorted R l -> StronglySorted R (take n l).
Proof.
  intros Hs. revert n. induction Hs as [|a l Hs IH Ha]; intros [|n]; simpl; try constructor.
  - apply IH.
  - rewrite Forall_forall in Ha. apply Forall_forall. intros b Hb. apply Ha.
    apply elem_of_take in Hb as (i & Hb & _). by eapply list_elem_of_lookup_2.
Qed.

Lemma sort_desc_descending {A : Type} (key : A -> Q) (l : list A) :
  StronglySorted (fun a b => (key b <= key a)%Q) (sort_desc key l).
Proof.
  eapply StronglySorted_weaken; [|apply sort_desc_stable].
  intros a b [Hlt|[Heq _]]; [by apply Qlt_le_weak|]. rewrite Heq. apply Qle_refl.
Qed.

Lemma StronglySorted_lookup {A : Type} (R : A -> A -> Prop) (l : list A) i j a b :
  StronglySorted R l -> i < j -> l !! i = Some a -> l !! j = Some b -> R a b.
Proof.
  intros Hs. revert i j. induction Hs as [|x l Hs IH Hx]; intros i j Hij Hi Hj; [done|].
  destruct j as [|j]; [lia|]. simpl in Hj. destruct i as [|i]; simpl in Hi.
  - injection Hi as ->. rewrite Forall_forall in Hx. apply Hx. by eapply list_elem_of_lookup_2.
  - eapply IH; [|done..]. lia.
Qed.

Section ImageRanking.
Context (cos_sim : Emb -> Emb -> Q) (query_clip_emb : Emb).
Context (visual_nodes text_docs : list Node.t) (limit : nat).

Let out := rank_images cos_sim query_clip_emb visual_nodes text_docs limit.

Lemma rank_images_subset o :
  o ∈ out -> o ∈ (all_candidates cos_sim query_clip_emb visual_nodes text_docs).1.
Proof.
  subst out. rewrite rank_images_eq. intros H.
  apply elem_of_take in H as (i & H & _). apply list_elem_of_lookup_2 in H.
  by apply sort_desc_elem in H.
Qed.

Lemma rank_images_NoDup : NoDup (map Out.image_path out).
Proof.
  subst out. rewrite rank_images_eq.
  destruct (all_candidates_spec cos_sim query_clip_emb visual_nodes text_docs) as [Hnd _].
  change (map Out.image_path) with (fmap (M:=list) Out.image_path) in *.
  rewrite fmap_take. eapply sublist_NoDup; [|apply sublist_take].
  by rewrite sort_desc_perm.
Qed.

Lemma rank_images_descending :
  StronglySorted (fun a b => (Out.score b <= Out.score a)%Q) out.
Proof.
  subst out. rewrite rank_images_eq. apply StronglySorted_take, sort_desc_descending.
Qed.

Lemma rank_images_provenance o :
  o ∈ out ->
  from_visual cos_sim query_clip_emb visual_nodes o \/
  from_context cos_sim query_clip_emb text_docs o.
Proof.
  intros Ho. apply rank_images_subset in Ho.
  destruct (all_candidates_spec cos_sim query_clip_emb visual_nodes text_docs)
    as [_ (added & Heq & Hv & Hc)].
  rewrite Heq in Ho. rewrite Forall_forall in Hv, Hc.
  apply elem_of_app in Ho as [Ho|Ho]; [left; by apply Hv|right; by apply Hc].
Qed.

Lemma rank_images_visual_wins o :
  o ∈ out ->
  Out.image_path o ∈
    map Out.image_path (visual_candidates cos_sim query_clip_emb visual_nodes).1 ->
  o ∈ (visual_candidates cos_sim query_clip_emb visual_nodes).1.
Proof.
  intros Ho Hp. apply rank_images_subset in Ho.
  destruct (all_candidates_spec cos_sim query_clip_emb visual_nodes text_docs)
    as [Hnd (added & Heq & _ & _)].
  rewrite Heq in Ho, Hnd. apply elem_of_app in Ho as [Ho|Ho]; [done|].
  rewrite map_app in Hnd. apply NoDup_app in Hnd as (_ & Hdisj & _).
  exfalso. apply (Hdisj _ Hp). apply list_elem_of_In, in_map, list_elem_of_In, Ho.
Qed.
End ImageRanking.

(** *** The resilient search client *)

Ltac unfold_monad :=
  unfold mbind, M_bind, mret, M_ret, try_except, raise, lift_res, log, history,
    known_broken in *.

Section Database.
Context (aggregate : list Event -> Collection -> Params.t -> Res (list Node.t)).
Context (llm_invoke : list Event -> string -> Res string).
Context (chain_invoke : list Event -> string -> string -> Res string).

Abbreviation search := (_execute_resilient_search aggregate).
Abbreviation fallback := (_manual_fallback aggregate).
Abbreviation later := (later aggregate llm_invoke chain_invoke).

Lemma call_aggregate_run c p w :
  call_aggregate aggregate c p w =
  (aggregate (trace w) c p, snoc_event w (EvAggregate c p)).
Proof. done. Qed.

Lemma call_llm_run prompt w :
  call_llm llm_invoke prompt w =
  (llm_invoke (trace w) prompt, snoc_event w (EvInvoke prompt)).
Proof. done. Qed.

Lemma call_chain_run context question w :
  call_chain chain_invoke context question w =
  (chain_invoke (trace w) context question, snoc_event w (EvChain context question)).
Proof. done. Qed.

(** The fallback issues exactly one backend call, the unfiltered retry. *)
Lemma manual_fallback_run c p fd w :
  fallback c p fd w =
  (match aggregate (trace w) c (retry_params p) with
   | Ok results => Ok (take (Params.limit p) (List.filter (doc_matches fd) results))
   | Raise e => Raise e
   end,
   snoc_event w (EvAggregate c (retry_params p))).
Proof.
  unfold _manual_fallback. unfold_monad. rewrite call_aggregate_run.
  by destruct (aggregate _ _ _).
Qed.

Lemma existsb_broken (broken : gset string) (keys : list string) k :
  k ∈ broken -> k ∈ keys ->
  existsb (fun k => bool_decide (k ∈ broken)) keys = true.
Proof.
  intros Hb Hk. apply existsb_exists. exists k. split; [by apply list_elem_of_In|].
  by apply bool_decide_eq_true.
Qed.

Lemma filter_keys_truthy fd k : k ∈ filter_keys fd -> filter_truthy fd = true.
Proof.
  destruct fd as [[|kv items]|]; simpl; intros H; try done; by apply elem_of_nil in H.
Qed.

(** A filter with a key known to be broken goes straight to the fallback. *)
Lemma search_known_broken c p fd w k :
  k ∈ _broken_filters w -> k ∈ filter_keys fd ->
  search c p fd w = fallback c p (default [] fd) w.
Proof.
  intros Hb Hk. unfold _execute_resilient_search. unfold_monad.
  by rewrite (filter_keys_truthy fd k Hk), (existsb_broken _ _ k Hb Hk).
Qed.

Lemma for_each_add_broken keys w :
  for_each keys add_broken w =
  (Ok tt, {| _broken_filters := foldl (fun s k => s ∪ {[k]}) (_broken_filters w) keys;
             trace := trace w |}).
Proof.
  revert w. induction keys as [|k keys IH]; intros w; simpl.
  - by destruct w.
  - unfold_monad. unfold add_broken at 1. by rewrite IH.
Qed.

Lemma foldl_add_subseteq (keys : list string) (s : gset string) :
  s ⊆ foldl (fun s k => s ∪ {[k]}) s keys.
Proof.
  revert s. induction keys as [|k keys IH]; intros s; simpl; [done|].
  etrans; [|apply IH]. apply union_subseteq_l.
Qed.

Lemma foldl_add_elem (keys : list string) (s : gset string) k :
  k ∈ keys -> k ∈ foldl (fun s k => s ∪ {[k]}) s keys.
Proof.
  revert s. induction keys as [|k' keys IH]; intros s Hk; simpl.
  - by apply elem_of_nil in Hk.
  - apply elem_of_cons in Hk as [->|Hk]; [|by apply IH].
    apply (foldl_add_subseteq keys). apply elem_of_union_r. by apply elem_of_singleton.
Qed.

(** Every outcome of a search: what was sent to the backend and what the
    registry holds afterwards. *)
Lemma search_outcome c p fd w :
  let full := if filter_truthy fd then Params.set_filter p fd else p in
  let w' := (search c p fd w).2 in
  (w' = snoc_event w (EvAggregate c (retry_params p))) \/
  (w' = snoc_event w (EvAggregate c full)) \/
  (exists msg,
      aggregate (trace w) c full = Raise (OperationFailure msg) /\
      PyStr.contains "indexed as filter" msg = true /\
      filter_truthy fd = true /\
      w' = snoc_event
             {| _broken_filters :=
                  foldl (fun s k => s ∪ {[k]}) (_broken_filters w) (filter_keys fd);
                trace := trace w ++ [EvAggregate c full] |}
             (EvAggregate c (retry_params p))).
Proof.
  intros full w'. subst w'. unfold _execute_resilient_search. unfold_monad.
  destruct (filter_truthy fd && existsb _ _) eqn:Eb.
  { left. by rewrite manual_fallback_run. }
  fold full. rewrite call_aggregate_run.
  destruct (aggregate (trace w) c full) as [docs|e] eqn:Ea; [by right; left|].
  destruct e as [msg|msg]; simpl; [|by right; left].
  destruct (PyStr.contains "indexed as filter" msg && filter_truthy fd) eqn:Ec;
    [|by right; left].
  apply andb_true_iff in Ec as [Ec Ef].
  right; right. exists msg. repeat split; [done..|].
  rewrite for_each_add_broken, manual_fallback_run. done.
Qed.

Lemma search_monotone c p fd w :
  _broken_filters w ⊆ _broken_filters (search c p fd w).2.
Proof.
  destruct (search_outcome c p fd w) as [->|[->|(msg & _ & _ & _ & ->)]]; simpl;
    [done..|apply foldl_add_subseteq].
Qed.

Lemma later_monotone w w' : later w w' -> _broken_filters w ⊆ _broken_filters w'.
Proof.
  induction 1 as [|w1 c p fd _ IH|w1 prompt _ IH|w1 ctx q _ IH]; [done|..].
  - etrans; [exact IH|apply search_monotone].
  - by rewrite call_llm_run.
  - by rewrite call_chain_run.
Qed.

Lemma later_trans w1 w2 w3 : later w1 w2 -> later w2 w3 -> later w1 w3.
Proof. intros H12 H23. induction H23; [done|by constructor..]. Qed.

Lemma add_broken_known k w : k ∈ _broken_filters w -> (add_broken k w).2 = w.
Proof.
  intros Hk. unfold add_broken. destruct w as [b t]. simpl in *. f_equal.
  rewrite (union_comm_L b {[k]}). apply subseteq_union_1_L. by apply singleton_subseteq_l.
Qed.

Lemma add_broken_twice k w :
  (add_broken k (add_broken k w).2).2 = (add_broken k w).2.
Proof.
  apply add_broken_known. simpl. apply elem_of_union_r. by apply elem_of_singleton.
Qed.
End Database.

(** *** The generator helpers and the pipelines *)

Section Engine.
Context (aggregate : list Event -> Collection -> Params.t -> Res (list Node.t)).
Context (llm_invoke : list Event -> string -> Res string).
Context (chain_invoke : list Event -> string -> string -> Res string).
Context (get_embeddings get_clip_text_embedding : string -> Emb).
Context (cos_sim : Emb -> Emb -> Q).

Abbreviation search := (_execute_resilient_search aggregate).

Lemma search_unfiltered c p w :
  search c p None w = (aggregate (trace w) c p, snoc_event w (EvAggregate c p)).
Proof.
  unfold _execute_resilient_search. unfold_monad. cbn [filter_truthy andb].
  rewrite call_aggregate_run. destruct (aggregate _ _ _) as [docs|[msg|msg]]; simpl; [done| |done].
  by rewrite andb_false_r.
Qed.

Lemma retrieve_context_unfiltered question top_k w :
  _retrieve_context aggregate get_embeddings question top_k None w =
  (aggregate (trace w) unified_nodes
     (base_params "vector_index" "embedding" (get_embeddings question) top_k),
   snoc_event w (text_search_event (get_embeddings question) top_k)).
Proof. unfold _retrieve_context, unified_search. simpl. apply search_unfiltered. Qed.

Lemma rewrite_query_run query w :
  _rewrite_query llm_invoke query w =
  (Ok (rewritten_query (llm_invoke (trace w) (rewrite_prompt query)) query),
   snoc_event w (EvInvoke (rewrite_prompt query))).
Proof.
  unfold _rewrite_query. unfold_monad. rewrite call_llm_run.
  by destruct (llm_invoke _ _).
Qed.

Lemma score_relevance_run query context w :
  _score_relevance llm_invoke query context w =
  if negb (PyStr.truthy (PyStr.strip context)) then (Ok 0%Q, w)
  else (Ok (scored_relevance (llm_invoke (trace w) (relevance_prompt query context))),
        snoc_event w (EvInvoke (relevance_prompt query context))).
Proof.
  unfold _score_relevance. destruct (negb _); [done|].
  unfold_monad. rewrite call_llm_run. by destruct (llm_invoke _ _).
Qed.

Lemma extract_entities_run text w :
  _extract_entities llm_invoke text w =
  (Ok (extracted_entities (llm_invoke (trace w) (entities_prompt text))),
   snoc_event w (EvInvoke (entities_prompt text))).
Proof.
  unfold _extract_entities. unfold_monad. rewrite call_llm_run.
  by destruct (llm_invoke _ _).
Qed.

Lemma generate_queries_run question w :
  _generate_queries llm_invoke question w =
  (Ok (generated_queries (llm_invoke (trace w) (queries_prompt question)) question),
   snoc_event w (EvInvoke (queries_prompt question))).
Proof.
  unfold _generate_queries. unfold_monad. rewrite call_llm_run.
  by destruct (llm_invoke _ _).
Qed.

Lemma generate_answer_run question context w :
  exists text,
    _generate_answer chain_invoke question context w =
    (Ok text, snoc_event w (EvChain context question)).
Proof.
  unfold _generate_answer. unfold_monad. rewrite call_chain_run.
  destruct (chain_invoke _ _ _); eauto.
Qed.

Lemma generate_draft_answer_run question context w :
  exists text,
    _generate_draft_answer llm_invoke question context w =
    (Ok text, snoc_event w (EvInvoke (draft_prompt question context))).
Proof.
  unfold _generate_draft_answer. unfold_monad. rewrite call_llm_run.
  destruct (llm_invoke _ _); eauto.
Qed.

(** The image search: only calls on the CLIP index for the query's
    embedding, and the images are ranked from what the last one returned. *)
Lemma retrieve_images_run search_query category limit text_docs w out w' :
  _retrieve_images aggregate get_clip_text_embedding cos_sim
    search_query category limit text_docs w = (Ok out, w') ->
  exists visual_nodes evs,
    strict_visual_search aggregate (get_clip_text_embedding search_query)
      category 20 w = (Ok visual_nodes, w') /\
    out = rank_images cos_sim (get_clip_text_embedding search_query)
            visual_nodes text_docs limit /\
    trace w' = trace w ++ evs /\
    Forall (is_image_search (get_clip_text_embedding search_query)) evs.
Proof.
  unfold _retrieve_images. unfold_monad.
  destruct (strict_visual_search _ _ _ _ w) as [[vis|e] w1] eqn:Es; [|done].
  intros [= <- <-]. exists vis.
  pose proof Es as Es'. unfold strict_visual_search in Es'.
  set (p := base_params _ _ _ _) in Es'.
  pose proof (search_outcome aggregate unified_nodes p (category_filter category) w) as Ho.
  rewrite Es' in Ho. simpl in Ho.
  assert (Hp : forall p', Params.index p' = Params.index p ->
                 Params.queryVector p' = Params.queryVector p ->
                 is_image_search (get_clip_text_embedding search_query)
                   (EvAggregate unified_nodes p')).
  { intros p' Hi Hq. exists p'. by rewrite Hi, Hq. }
  assert (Hfull : is_image_search (get_clip_text_embedding search_query)
            (EvAggregate unified_nodes
               (if filter_truthy (category_filter category)
                then Params.set_filter p (category_filter category) else p))).
  { apply Hp; by destruct (filter_truthy _). }
  assert (Hevs : exists evs, trace w1 = trace w ++ evs /\
            Forall (is_image_search (get_clip_text_embedding search_query)) evs).
  { destruct Ho as [->|[->|(msg & _ & _ & _ & ->)]].
    - exists [EvAggregate unified_nodes (retry_params p)]. split; [done|].
      apply Forall_singleton. by apply Hp.
    - eexists [_]. split; [done|]. by apply Forall_singleton.
    - eexists [_; _]. simpl. rewrite <- app_assoc. split; [done|].
      repeat constructor; [done|]. by apply Hp. }
  destruct Hevs as (evs & Ht & Hf). by exists evs.
Qed.
End Engine.

Section Corrective.
Context (aggregate : list Event -> Collection -> Params.t -> Res (list Node.t)).
Context (llm_invoke : list Event -> string -> Res string).
Context (chain_invoke : list Event -> string -> string -> Res string).
Context (get_embeddings get_clip_text_embedding : string -> Emb).
Context (cos_sim : Emb -> Emb -> Q).

Abbreviation corrective :=
  (_corrective_rag_pipeline aggregate llm_invoke chain_invoke
     get_embeddings get_clip_text_embedding cos_sim).

End Corrective.

(** *** Whole requests: state reached, and termination without error *)

Section Requests.
Context (aggregate : list Event -> Collection -> Params.t -> Res (list Node.t)).
Context (llm_invoke : list Event -> string -> Res string).
Context (chain_invoke : list Event -> string -> string -> Res string).
Context (get_embeddings get_clip_text_embedding : string -> Emb).
Context (cos_sim : Emb -> Emb -> Q).

Abbreviation reach := (later aggregate llm_invoke chain_invoke).
Abbreviation ask_ :=
  (ask aggregate llm_invoke chain_invoke get_embeddings get_clip_text_embedding cos_sim).

Lemma advances_ret {A : Type} (a : A) : advances reach (mret a).
Proof. intros w. constructor. Qed.

Lemma advances_bind {A B : Type} (m : M A) (f : A -> M B) :
  advances reach m -> (forall a, advances reach (f a)) -> advances reach (m ≫= f).
Proof.
  intros Hm Hf w. unfold_monad. specialize (Hm w).
  destruct (m w) as [[a|e] w1]; simpl in *; [|done].
  eapply later_trans; [exact Hm|apply Hf].
Qed.

Lemma advances_try {A : Type} (body : M A) catches handler :
  advances reach body -> (forall e, advances reach (handler e)) ->
  advances reach (try_except body catches handler).
Proof.
  intros Hb Hh w. unfold try_except. specialize (Hb w).
  destruct (body w) as [[a|e] w1]; simpl in *; [done|].
  destruct (catches e); [|done]. eapply later_trans; [exact Hb|apply Hh].
Qed.

Lemma advances_llm prompt : advances reach (call_llm llm_invoke prompt).
Proof. intros w. apply later_llm. constructor. Qed.

Lemma advances_chain context question :
  advances reach (call_chain chain_invoke context question).
Proof. intros w. apply later_chain. constructor. Qed.

Lemma advances_search c p fd : advances reach (_execute_resilient_search aggregate c p fd).
Proof. intros w. apply later_search. constructor. Qed.

Lemma advances_if {A : Type} (b : bool) (m1 m2 : M A) :
  advances reach m1 -> advances reach m2 -> advances reach (if b then m1 else m2).
Proof. by destruct b. Qed.

Ltac advance :=
  repeat first
    [ apply advances_search
    | apply advances_llm
    | apply advances_chain
    | apply advances_ret
    | apply advances_try; [|intros ?]
    | apply advances_if
    | apply advances_bind; [|intros ?]
    | progress cbv zeta
    | match goal with |- advances _ (let '(_, _) := ?x in _) => destruct x end ].

Lemma advances_retrieve_context question top_k category :
  advances reach (_retrieve_context aggregate get_embeddings question top_k category).
Proof. apply advances_search. Qed.

Lemma advances_retrieve_images search_query category limit text_docs :
  advances reach (_retrieve_images aggregate get_clip_text_embedding cos_sim
                    search_query category limit text_docs).
Proof. unfold _retrieve_images, strict_visual_search. advance. Qed.

Lemma advances_enrich entities enriched :
  advances reach (enrich aggregate get_embeddings entities enriched).
Proof.
  revert enriched. induction entities as [|e rest IH]; intros enriched; simpl.
  - apply advances_ret.
  - apply advances_bind; [apply advances_retrieve_context|]. intros found. apply IH.
Qed.

Lemma advances_multi_search queries category all_results :
  advances reach (multi_search aggregate get_embeddings queries category all_results).
Proof.
  revert all_results. induction queries as [|q rest IH]; intros all_results; simpl.
  - apply advances_ret.
  - apply advances_bind; [apply advances_retrieve_context|]. intros docs. apply IH.
Qed.

Ltac advance_pipeline :=
  repeat first
    [ apply advances_retrieve_context
    | apply advances_retrieve_images
    | apply advances_enrich
    | apply advances_multi_search
    | progress advance ].

Lemma advances_run_pipeline rag_mode question initial_docs :
  advances reach
    (run_pipeline aggregate llm_invoke chain_invoke get_embeddings
       get_clip_text_embedding cos_sim rag_mode question initial_docs).
Proof.
  unfold run_pipeline, _standard_rag_pipeline, _corrective_rag_pipeline,
    _speculative_rag_pipeline, _fusion_rag_pipeline, _score_relevance,
    _rewrite_query, _extract_entities, _generate_queries, _generate_answer,
    _generate_draft_answer.
  advance_pipeline.
Qed.

(** Every request is a sequence of search and generator calls. *)
Lemma ask_advances question rag_mode : advances reach (ask_ question rag_mode).
Proof.
  unfold ask. apply advances_if; [|apply advances_run_pipeline].
  apply advances_bind; [apply advances_retrieve_context|].
  intros docs. apply advances_run_pipeline.
Qed.
End Requests.

Section NeverRaises.
Context (aggregate : list Event -> Collection -> Params.t -> Res (list Node.t)).
Context (llm_invoke : list Event -> string -> Res string).
Context (chain_invoke : list Event -> string -> string -> Res string).
Context (get_embeddings get_clip_text_embedding : string -> Emb).
Context (cos_sim : Emb -> Emb -> Q).

Lemma total_ret {A : Type} (a : A) : total (mret a).
Proof. intros w. exists a, w. reflexivity. Qed.

Lemma total_bind {A B : Type} (m : M A) (f : A -> M B) :
  total m -> (forall a, total (f a)) -> total (m ≫= f).
Proof.
  intros Hm Hf w. destruct (Hm w) as (a & w1 & Ha).
  destruct (Hf a w1) as (b & w2 & Hb). exists b, w2.
  unfold_monad. by rewrite Ha.
Qed.

(** A handler that catches everything and never raises makes the whole
    [try] statement safe, whatever the body does. *)
Lemma total_try_any {A : Type} (body : M A) (handler : Exn -> M A) :
  (forall e, total (handler e)) -> total (try_except body any_exception handler).
Proof.
  intros Hh w. unfold returns, try_except.
  destruct (body w) as [[a|e] w1]; [exists a, w1; reflexivity|]. apply Hh.
Qed.

Lemma total_if {A : Type} (b : bool) (m1 m2 : M A) :
  total m1 -> total m2 -> total (if b then m1 else m2).
Proof. by destruct b. Qed.

Lemma total_rewrite_query query : total (_rewrite_query llm_invoke query).
Proof. intros w. unfold returns. rewrite rewrite_query_run. eexists _, _; reflexivity. Qed.

Lemma total_score_relevance query context :
  total (_score_relevance llm_invoke query context).
Proof. intros w. unfold returns. rewrite score_relevance_run. destruct (negb _); eexists _, _; reflexivity. Qed.

Lemma total_extract_entities text : total (_extract_entities llm_invoke text).
Proof. intros w. unfold returns. rewrite extract_entities_run. eexists _, _; reflexivity. Qed.

Lemma total_generate_queries question : total (_generate_queries llm_invoke question).
Proof. intros w. unfold returns. rewrite generate_queries_run. eexists _, _; reflexivity. Qed.

Lemma total_generate_answer question context :
  total (_generate_answer chain_invoke question context).
Proof.
  intros w. destruct (generate_answer_run chain_invoke question context w) as [t Ht].
  by eexists _, _.
Qed.

Lemma total_generate_draft_answer question context :
  total (_generate_draft_answer llm_invoke question context).
Proof.
  intros w. destruct (generate_draft_answer_run llm_invoke question context w) as [t Ht].
  by eexists _, _.
Qed.

(** From here on the search backend is assumed to answer every call. *)
Hypothesis backend_up : forall h c p, exists docs, aggregate h c p = Ok docs.

Lemma total_search c p fd : total (_execute_resilient_search aggregate c p fd).
Proof.
  intros w. unfold returns, _execute_resilient_search. unfold_monad.
  destruct (filter_truthy fd && existsb _ _).
  - rewrite manual_fallback_run.
    destruct (backend_up (trace w) c (retry_params p)) as [docs ->]. eexists _, _; reflexivity.
  - rewrite call_aggregate_run.
    destruct (backend_up (trace w) c
                (if filter_truthy fd then Params.set_filter p fd else p)) as [docs ->].
    eexists _, _; reflexivity.
Qed.

Ltac settle :=
  repeat first
    [ apply total_search
    | apply total_rewrite_query
    | apply total_score_relevance
    | apply total_extract_entities
    | apply total_generate_queries
    | apply total_generate_answer
    | apply total_generate_draft_answer
    | apply total_ret
    | apply total_if
    | apply total_bind; [|intros ?]
    | progress cbv zeta
    | match goal with |- total (let '(_, _) := ?x in _) => destruct x end ].

Lemma total_retrieve_context question top_k category :
  total (_retrieve_context aggregate get_embeddings question top_k category).
Proof. apply total_search. Qed.

Lemma total_retrieve_images search_query category limit text_docs :
  total (_retrieve_images aggregate get_clip_text_embedding cos_sim
           search_query category limit text_docs).
Proof. unfold _retrieve_images, strict_visual_search. settle. Qed.

Lemma total_enrich entities enriched :
  total (enrich aggregate get_embeddings entities enriched).
Proof.
  revert enriched. induction entities as [|e rest IH]; intros enriched; simpl.
  - apply total_ret.
  - apply total_bind; [apply total_retrieve_context|]. intros found. apply IH.
Qed.

Lemma total_multi_search queries category all_results :
  total (multi_search aggregate get_embeddings queries category all_results).
Proof.
  revert all_results. induction queries as [|q rest IH]; intros all_results; simpl.
  - apply total_ret.
  - apply total_bind; [apply total_retrieve_context|]. intros docs. apply IH.
Qed.

Ltac settle_pipeline :=
  repeat first
    [ apply total_retrieve_context
    | apply total_retrieve_images
    | apply total_enrich
    | apply total_multi_search
    | progress settle ].

Lemma total_run_pipeline rag_mode question initial_docs :
  total (run_pipeline aggregate llm_invoke chain_invoke get_embeddings
           get_clip_text_embedding cos_sim rag_mode question initial_docs).
Proof.
  unfold run_pipeline, _standard_rag_pipeline, _corrective_rag_pipeline,
    _speculative_rag_pipeline, _fusion_rag_pipeline.
  settle_pipeline.
Qed.

(** With the backend up, a request ends with an answer whatever the
    generator does. *)
Lemma total_ask question rag_mode :
  total (ask aggregate llm_invoke chain_invoke get_embeddings
           get_clip_text_embedding cos_sim question rag_mode).
Proof.
  unfold ask. apply total_if; [|apply total_run_pipeline].
  apply total_bind; [apply total_retrieve_context|].
  intros docs. apply total_run_pipeline.
Qed.
End NeverRaises.

(** *** The capability registry over a process lifetime *)

Section Registry.
Context (aggregate : list Event -> Collection -> Params.t -> Res (list Node.t)).
Context (llm_invoke : list Event -> string -> Res string).
Context (chain_invoke : list Event -> string -> string -> Res string).
Context (get_embeddings get_clip_text_embedding : string -> Emb).
Context (cos_sim : Emb -> Emb -> Q).

Abbreviation search_ := (_execute_resilient_search aggregate).
Abbreviation fallback_ := (_manual_fallback aggregate).
Abbreviation reach_ := (later aggregate llm_invoke chain_invoke).

(** A refused filter is recorded: every key of the filter is in the
    registry after the call. *)
Lemma search_learns c p fd w msg k :
  filter_truthy fd = true ->
  existsb (fun k => bool_decide (k ∈ _broken_filters w)) (filter_keys fd) = false ->
  aggregate (trace w) c (Params.set_filter p fd) = Raise (OperationFailure msg) ->
  PyStr.contains "indexed as filter" msg = true ->
  k ∈ filter_keys fd ->
  k ∈ _broken_filters (search_ c p fd w).2.
Proof.
  intros Hf Hb Ha Hc Hk. unfold _execute_resilient_search. unfold_monad.
  rewrite Hf, Hb. cbn [andb]. rewrite call_aggregate_run, Ha. cbn [is_operation_failure exn_str].
  rewrite Hc. cbn [andb]. rewrite for_each_add_broken, manual_fallback_run. simpl.
  by apply foldl_add_elem.
Qed.

Lemma fallback_only c p fd w k :
  k ∈ _broken_filters w -> k ∈ filter_keys fd ->
  search_ c p fd w =
  (match aggregate (trace w) c (retry_params p) with
   | Ok results =>
       Ok (take (Params.limit p) (List.filter (doc_matches (default [] fd)) results))
   | Raise e => Raise e
   end,
   snoc_event w (EvAggregate c (retry_params p))).
Proof.
  intros Hb Hk. by rewrite (search_known_broken aggregate c p fd w k Hb Hk), manual_fallback_run.
Qed.

(** Two consecutive searches on a filter the index refuses: after the
    first one, any search with the same filter sends only the retry. *)
Lemma refused_filter_never_retried c p fd w msg c' p' :
  filter_truthy fd = true ->
  existsb (fun k => bool_decide (k ∈ _broken_filters w)) (filter_keys fd) = false ->
  aggregate (trace w) c (Params.set_filter p fd) = Raise (OperationFailure msg) ->
  PyStr.contains "indexed as filter" msg = true ->
  let w1 := (search_ c p fd w).2 in
  (search_ c' p' fd w1).2 = snoc_event w1 (EvAggregate c' (retry_params p')).
Proof.
  intros Hf Hb Ha Hc w1.
  destruct fd as [[|[k v] items]|]; try done.
  assert (Hk : k ∈ filter_keys (Some ((k, v) :: items))) by (simpl; left).
  assert (Hk1 : k ∈ _broken_filters w1) by (by eapply search_learns).
  by rewrite (fallback_only c' p' _ w1 k Hk1 Hk).
Qed.

(** C4. Capability learning is sticky, monotone and idempotent.  Over any
    sequence of search and generator calls, and over any request, the
    set of known-broken filter keys only grows; adding a key that is
    already present changes nothing; a filtered attempt the backend
    refuses with the capability error records every key of the filter;
    and once a key is in the set, every later search whose filter uses
    that key is the fallback itself: its only backend call is the
    unfiltered retry, so the filtered attempt is never sent again. *)
Theorem capability_learning_sticky :
  (forall w w', reach_ w w' -> _broken_filters w ⊆ _broken_filters w') /\
  (forall question rag_mode w,
      _broken_filters w ⊆
      _broken_filters
        (ask aggregate llm_invoke chain_invoke get_embeddings
           get_clip_text_embedding cos_sim question rag_mode w).2) /\
  (forall k w, k ∈ _broken_filters w -> (add_broken k w).2 = w) /\
  (forall k w, (add_broken k (add_broken k w).2).2 = (add_broken k w).2) /\
  (forall c p fd w msg k,
      filter_truthy fd = true ->
      existsb (fun k => bool_decide (k ∈ _broken_filters w)) (filter_keys fd) = false ->
      aggregate (trace w) c (Params.set_filter p fd) = Raise (OperationFailure msg) ->
      PyStr.contains "indexed as filter" msg = true ->
      k ∈ filter_keys fd ->
      k ∈ _broken_filters (search_ c p fd w).2) /\
  (forall k w w' c p fd,
      k ∈ _broken_filters w -> reach_ w w' -> k ∈ filter_keys fd ->
      search_ c p fd w' = fallback_ c p (default [] fd) w' /\
      (search_ c p fd w').2 = snoc_event w' (EvAggregate c (retry_params p)) /\
      Params.filter (retry_params p) = None).
Proof.
  split; [|split; [|split; [|split; [|split]]]].
  - apply later_monotone.
  - intros question rag_mode w. eapply later_monotone, ask_advances.
  - apply add_broken_known.
  - apply add_broken_twice.
  - apply search_learns.
  - intros k w w' c p fd Hk Hr Hfd.
    assert (Hk' : k ∈ _broken_filters w').
    { eapply later_monotone in Hr. by apply Hr. }
    split; [by eapply search_known_broken|]. split; [|done].
    by rewrite (fallback_only c p fd w' k Hk' Hfd).
Qed.

(** C9. The registry is non-empty from construction: a fresh handler
    already holds ["category"], it still does after any sequence of
    calls, and so every search whose filter has the key ["category"],
    the first one included, sends the backend only the unfiltered,
    widened retry and filters its results locally. *)
Theorem category_filter_never_attempted :
  "category" ∈ _broken_filters fresh_world /\
  forall w, reach_ fresh_world w ->
    "category" ∈ _broken_filters w /\
    forall c p fd, "category" ∈ filter_keys fd ->
      search_ c p fd w =
      (match aggregate (trace w) c (retry_params p) with
       | Ok results =>
           Ok (take (Params.limit p)
                 (List.filter (doc_matches (default [] fd)) results))
       | Raise e => Raise e
       end,
       snoc_event w (EvAggregate c (retry_params p))) /\
      Params.filter (retry_params p) = None /\
      Params.limit (retry_params p) = 100 /\
      Params.numCandidates (retry_params p) = 250.
Proof.
  assert (H0 : "category" ∈ _broken_filters fresh_world).
  { simpl. by apply elem_of_singleton. }
  split; [done|]. intros w Hr.
  assert (Hw : "category" ∈ _broken_filters w).
  { eapply later_monotone in Hr. by apply Hr. }
  split; [done|]. intros c p fd Hfd. split; [|done].
  by apply (fallback_only c p fd w "category").
Qed.
End Registry.

(** *** Generator failures, routing and image ranking of whole requests *)

Section Claims.
Context (aggregate : list Event -> Collection -> Params.t -> Res (list Node.t)).
Context (llm_invoke : list Event -> string -> Res string).
Context (chain_invoke : list Event -> string -> string -> Res string).
Context (get_embeddings get_clip_text_embedding : string -> Emb).
Context (cos_sim : Emb -> Emb -> Q).

Abbreviation ask' :=
  (ask aggregate llm_invoke chain_invoke get_embeddings get_clip_text_embedding cos_sim).
Abbreviation retrieve_images' :=
  (_retrieve_images aggregate get_clip_text_embedding cos_sim).

(** The variations the Fusion pipeline searches and reports: the first two
    entries of what [_generate_queries] returned. *)
Lemma fusion_queries_capped question initial_docs w bundle w' :
  _fusion_rag_pipeline aggregate llm_invoke chain_invoke get_embeddings
    get_clip_text_embedding cos_sim question initial_docs w = (Ok bundle, w') ->
  queries bundle =
    Some (take 2 (generated_queries
                    (llm_invoke (trace w) (queries_prompt question)) question)).
Proof.
  unfold _fusion_rag_pipeline. unfold_monad. rewrite generate_queries_run.
  destruct (multi_search _ _ _ _ _ _) as [[all_results|e] w2]; [|done].
  destruct (_retrieve_images _ _ _ _ _ _ _ _) as [[imgs|e] w3]; [|done].
  destruct (generate_answer_run chain_invoke question
              (context_of (_reciprocal_rank_fusion all_results 15 60)) w3) as [text Ht].
  rewrite Ht. by intros [= <- _].
Qed.

(** With two or more paraphrases the cap leaves no room for the original. *)
Lemma generated_queries_cap content question v1 v2 rest :
  stripped_fields PyStr.newline (PyStr.strip content) = v1 :: v2 :: rest ->
  take 2 (generated_queries (Ok content) question) = [v1; v2].
Proof. intros H. unfold generated_queries. by rewrite H. Qed.

(** C7. Every failure of the generator degrades to a safe default: when
    the generator raises, [_rewrite_query] returns the original query,
    [_score_relevance] returns 0.5 (also when the answer holds no score),
    [_extract_entities] returns the empty list and [_generate_queries]
    returns the list holding only the original query; none of the four
    helpers ever raises; and with the search backend answering, a
    request returns a result whatever the generator does. *)
Theorem generator_failures_degrade :
  (forall query w e,
      llm_invoke (trace w) (rewrite_prompt query) = Raise e ->
      (_rewrite_query llm_invoke query w).1 = Ok query) /\
  (forall query context w e,
      PyStr.truthy (PyStr.strip context) = true ->
      llm_invoke (trace w) (relevance_prompt query context) = Raise e ->
      (_score_relevance llm_invoke query context w).1 = Ok (1 # 2)%Q) /\
  (forall query context w content,
      PyStr.truthy (PyStr.strip context) = true ->
      llm_invoke (trace w) (relevance_prompt query context) = Ok content ->
      first_score (PyStr.strip content) = None ->
      (_score_relevance llm_invoke query context w).1 = Ok (1 # 2)%Q) /\
  (forall text w e,
      llm_invoke (trace w) (entities_prompt text) = Raise e ->
      (_extract_entities llm_invoke text w).1 = Ok []) /\
  (forall question w e,
      llm_invoke (trace w) (queries_prompt question) = Raise e ->
      (_generate_queries llm_invoke question w).1 = Ok [question]) /\
  (forall text context w,
      returns (_rewrite_query llm_invoke text) w /\
      returns (_score_relevance llm_invoke text context) w /\
      returns (_extract_entities llm_invoke text) w /\
      returns (_generate_queries llm_invoke text) w) /\
  ((forall h c p, exists docs, aggregate h c p = Ok docs) ->
   forall question rag_mode w, returns (ask' question rag_mode) w).
Proof.
  split; [|split; [|split; [|split; [|split; [|split]]]]].
  - intros query w e H. by rewrite rewrite_query_run, H.
  - intros query context w e Hc H. by rewrite score_relevance_run, Hc, H.
  - intros query context w content Hc H Hs.
    rewrite score_relevance_run, Hc, H. simpl. by rewrite Hs.
  - intros text w e H. by rewrite extract_entities_run, H.
  - intros question w e H. by rewrite generate_queries_run, H.
  - intros text context w. repeat split.
    + apply total_rewrite_query.
    + apply total_score_relevance.
    + apply total_extract_entities.
    + apply total_generate_queries.
  - intros Hup question rag_mode. by apply total_ask.
Qed.

(** C8. The router's decision table.  In auto mode [ask] first runs the
    width-5 unfiltered probe for the question; when the probe returns,
    a question of at most 3 words runs the Speculative pipeline,
    otherwise a probe of fewer than 3 documents runs the Fusion
    pipeline, otherwise the Standard pipeline runs; in each case the
    pipeline receives the probe's documents as [initial_docs] and the
    result carries the chosen mode.  In particular 2 words give
    Speculative, 6 words with 2 probe documents give Fusion and 6 words
    with 5 probe documents give Standard. *)
Theorem auto_router_table question w :
  _retrieve_context aggregate get_embeddings question 5 None w =
    (aggregate (trace w) unified_nodes
       (base_params "vector_index" "embedding" (get_embeddings question) 5),
     snoc_event w (text_search_event (get_embeddings question) 5)) /\
  (forall probe w1,
      _retrieve_context aggregate get_embeddings question 5 None w = (Ok probe, w1) ->
      let wc := length (PyStr.split question) in
      (wc <= 3 ->
       auto_router question probe = "speculative" /\
       ask' question "auto" w =
       (result ← _speculative_rag_pipeline aggregate llm_invoke chain_invoke
                   get_embeddings get_clip_text_embedding cos_sim
                   question (Some probe);
        mret (result, "speculative")) w1) /\
      (3 < wc -> length probe < 3 ->
       auto_router question probe = "fusion" /\
       ask' question "auto" w =
       (result ← _fusion_rag_pipeline aggregate llm_invoke chain_invoke
                   get_embeddings get_clip_text_embedding cos_sim
                   question (Some probe);
        mret (result, "fusion")) w1) /\
      (3 < wc -> 3 <= length probe ->
       auto_router question probe = "standard" /\
       ask' question "auto" w =
       (result ← _standard_rag_pipeline aggregate chain_invoke
                   get_embeddings get_clip_text_embedding cos_sim
                   question (Some probe);
        mret (result, "standard")) w1) /\
      (wc = 2 -> auto_router question probe = "speculative") /\
      (wc = 6 -> length probe = 2 -> auto_router question probe = "fusion") /\
      (wc = 6 -> length probe = 5 -> auto_router question probe = "standard")).
Proof.
  split; [apply retrieve_context_unfiltered|].
  intros probe w1 Hprobe wc.
  assert (Hask : forall mode, auto_router question probe = mode ->
            ask' question "auto" w =
            run_pipeline aggregate llm_invoke chain_invoke get_embeddings
              get_clip_text_embedding cos_sim mode question (Some probe) w1).
  { intros mode <-. unfold ask. cbn [String.eqb Ascii.eqb Bool.eqb]. unfold_monad.
    by rewrite Hprobe. }
  assert (H1 : wc <= 3 -> auto_router question probe = "speculative").
  { intros H. unfold auto_router. fold wc. by rewrite (proj2 (Nat.leb_le _ _) H). }
  assert (H2 : 3 < wc -> length probe < 3 -> auto_router question probe = "fusion").
  { intros H H'. unfold auto_router. fold wc.
    rewrite (proj2 (Nat.leb_gt _ _) H). by rewrite (proj2 (Nat.ltb_lt _ _) H'). }
  assert (H3 : 3 < wc -> 3 <= length probe -> auto_router question probe = "standard").
  { intros H H'. unfold auto_router. fold wc.
    rewrite (proj2 (Nat.leb_gt _ _) H). by rewrite (proj2 (Nat.ltb_ge _ _) H'). }
  repeat split.
  - by apply H1.
  - by rewrite (Hask _ (H1 H)).
  - by apply H2.
  - by rewrite (Hask _ (H2 H H0)).
  - by apply H3.
  - by rewrite (Hask _ (H3 H H0)).
  - intros H. apply H1. lia.
  - intros H H'. apply H2; lia.
  - intros H H'. apply H3; lia.
Qed.

(** C2 (as the code has it).  Every returned image either comes from the
    visual-direct pass, with its cosine similarity above 0.22 as score,
    or from the text-context pass, with 1.15 times its similarity as
    score and that boosted score above 0.22; so every returned score is
    above 0.22 and an image of similarity 0.20 is never returned by the
    visual-direct pass.  The list is in descending score order, so an
    entry boosted from 0.25 to 0.2875 stands before an entry with the
    unboosted score 0.27. *)
Theorem retrieve_images_threshold_and_order
    search_query category limit text_docs w out w' :
  retrieve_images' search_query category limit text_docs w = (Ok out, w') ->
  let query_clip_emb := get_clip_text_embedding search_query in
  exists visual_nodes,
    strict_visual_search aggregate query_clip_emb category 20 w
      = (Ok visual_nodes, w') /\
    (forall o, o ∈ out ->
       from_visual cos_sim query_clip_emb visual_nodes o \/
       from_context cos_sim query_clip_emb text_docs o) /\
    (forall o, o ∈ out -> (22 # 100 < Out.score o)%Q) /\
    (forall o, o ∈ out -> from_visual cos_sim query_clip_emb visual_nodes o ->
       ~ (Out.score o == 20 # 100)%Q) /\
    StronglySorted (fun a b => (Out.score b <= Out.score a)%Q) out /\
    (forall i j a b,
        out !! i = Some a -> out !! j = Some b ->
        (Out.score a == (25 # 100) * context_boost)%Q ->
        (Out.score b == 27 # 100)%Q ->
        i < j).
Proof.
  intros Hrun q. apply retrieve_images_run in Hrun as (vis & evs & Hvis & -> & _ & _).
  exists vis. split; [done|].
  assert (Hprov := rank_images_provenance cos_sim q vis text_docs limit).
  assert (Hsorted := rank_images_descending cos_sim q vis text_docs limit).
  assert (Hscore : forall o,
            o ∈ rank_images cos_sim q vis text_docs limit -> (22 # 100 < Out.score o)%Q).
  { intros o Ho. destruct (Hprov o Ho) as [(e & Hlt & -> & _)|(e & Hlt & -> & _)]; exact Hlt. }
  split; [done|]. split; [done|]. split; [|split; [done|]].
  - intros o Ho _ Heq. specialize (Hscore o Ho). rewrite Heq in Hscore.
    vm_compute in Hscore. discriminate.
  - intros i j a b Hi Hj Ha Hb.
    destruct (Nat.lt_trichotomy i j) as [Hlt|[->|Hgt]]; [done|exfalso..].
    + rewrite Hi in Hj. injection Hj as ->. rewrite Ha in Hb. vm_compute in Hb. discriminate.
    + pose proof (StronglySorted_lookup _ _ j i b a Hsorted Hgt Hj Hi) as Hle.
      simpl in Hle. rewrite Ha, Hb in Hle. vm_compute in Hle. by apply Hle.
Qed.

(** C10. The returned image list has no two entries with the same image
    path; and an entry whose path the visual-direct pass accepted is the
    visual-direct entry, scored with the unboosted cosine similarity:
    the text-context pass never replaces or duplicates it. *)
Theorem retrieve_images_distinct_paths
    search_query category limit text_docs w out w' :
  retrieve_images' search_query category limit text_docs w = (Ok out, w') ->
  let query_clip_emb := get_clip_text_embedding search_query in
  NoDup (map Out.image_path out) /\
  exists visual_nodes,
    strict_visual_search aggregate query_clip_emb category 20 w
      = (Ok visual_nodes, w') /\
    forall o, o ∈ out ->
      Out.image_path o ∈
        map Out.image_path (visual_candidates cos_sim query_clip_emb visual_nodes).1 ->
      o ∈ (visual_candidates cos_sim query_clip_emb visual_nodes).1 /\
      from_visual cos_sim query_clip_emb visual_nodes o.
Proof.
  intros Hrun q. apply retrieve_images_run in Hrun as (vis & evs & Hvis & -> & _ & _).
  split; [apply rank_images_NoDup|]. exists vis. split; [done|].
  intros o Ho Hp.
  pose proof (rank_images_visual_wins cos_sim q vis text_docs limit o Ho Hp) as Hin.
  split; [done|].
  destruct (visual_pass_spec cos_sim q vis) as [_ Hall].
  rewrite Forall_forall in Hall. by apply Hall.
Qed.
End Claims.

(** ** The properties on the sample catalogue *)

Example split_counts_words :
  PyStr.split "  impact   wrench " = ["impact"; "wrench"] /\
  length (PyStr.split sample_question) = 6.
Proof. split; reflexivity. Qed.

Example first_score_samples :
  first_score "Score: 0.85 (maybe 1.0)" = Some (85 # 100)%Q /\
  first_score "1.0" = Some 1%Q /\
  first_score "10.5" = Some (5 # 10)%Q /\
  first_score "not sure" = None.
Proof. repeat split; reflexivity. Qed.

Example router_samples :
  auto_router "impact wrench" [] = "speculative" /\
  auto_router sample_question [node_wrench; node_gasket] = "fusion" /\
  auto_router sample_question
    [node_wrench; node_gasket; node_socket; node_wrench; node_gasket] = "standard".
Proof. repeat split; reflexivity. Qed.

(** Two documents tie at [1/60 + 1/61]; the one met first comes first. *)
Example fusion_sample_ranking :
  map Node._id (_reciprocal_rank_fusion sample_rankings 2 60) = ["n1"; "n2"] /\
  (fused_score 60 sample_rankings "n1" == fused_score 60 sample_rankings "n2")%Q.
Proof. split; reflexivity. Qed.

(** The socket image is found by both passes and kept once, unboosted; the
    wrench image, boosted from 0.25, comes first. *)
Example image_sample_ranking :
  map (fun o => (Out.image_path o, Qred (Out.score o)))
    (rank_images sample_cos_sim (sample_clip sample_question)
       [node_socket] [node_wrench; node_socket_again] 12) =
  [("images/p7_wrench.png", (23 # 80)%Q); ("images/p7_socket.png", (27 # 100)%Q)].
Proof. vm_compute. reflexivity. Qed.

(** A corrective run with relevance 0.4: the text searches are the first
    pass for the question and one more for the rewritten query. *)
Example corrective_sample_searches :
  let run := _corrective_rag_pipeline sample_backend sample_llm sample_chain
               sample_embed sample_clip sample_cos_sim sample_question None
               fresh_world in
  text_search_vectors (trace run.2) =
    [sample_embed sample_question; sample_embed "pneumatic impact wrench torque"] /\
  length (List.filter
            (fun ev => match ev with
                       | EvInvoke p => PyStr.startswith "Rewrite the following" p
                       | _ => false
                       end) (trace run.2)) = 1.
Proof. split; vm_compute; reflexivity. Qed.

Lemma sample_backend_up h c p : exists docs, sample_backend h c p = Ok docs.
Proof. unfold sample_backend. destruct (String.eqb _ _); eexists; reflexivity. Qed.



Lemma reciprocal_rank_fusion_monotonic_witness :
  0 <= 2 /\ 2 <= length [node_gasket; node_wrench] /\
  (fused_score 60
     ([] ++ insert_at 2 node_socket [node_gasket; node_wrench] :: [[node_wrench]])
     (Node._id node_socket)
   <= fused_score 60
        ([] ++ insert_at 0 node_socket [node_gasket; node_wrench] :: [[node_wrench]])
        (Node._id node_socket))%Q.
Proof.
  assert (H1 : 0 <= 2) by lia.
  assert (H2 : 2 <= length [node_gasket; node_wrench]) by (simpl; lia).
  split; [exact H1|]. split; [exact H2|].
  exact (proj1 (proj2 (reciprocal_rank_fusion_monotonic [] [[node_wrench]]
                         [node_gasket; node_wrench] [] node_socket 0 2 H1 H2))).
Defined.

(** C1 on the code.  With a generator that returns three paraphrases, the
    Fusion pipeline keeps the first two entries of
    [paraphrases + [original]]: the searches issued are for the two
    paraphrases only and the original question is not searched. *)
Theorem fusion_searches_without_original :
  exists bundle w',
    _fusion_rag_pipeline sample_backend sample_llm sample_chain sample_embed
      sample_clip sample_cos_sim sample_question None fresh_world = (Ok bundle, w') /\
    queries bundle =
      Some ["industrial torque driver"; "high power fastening equipment"] /\
    text_search_vectors (trace w') =
      [sample_embed "industrial torque driver";
       sample_embed "high power fastening equipment"] /\
    sample_embed sample_question ∉ text_search_vectors (trace w').
Proof.
  eexists _, _. split; [vm_compute; reflexivity|].
  split; [reflexivity|]. split; [vm_compute; reflexivity|].
  apply (bool_decide_unpack _). vm_compute. exact I.
Qed.

(** C2 as stated fails: an image whose cosine similarity to the query is
    0.20, met only in the text-context pass, is returned with score 0.23. *)
Lemma low_similarity_image_returned :
  (sample_cos_sim (sample_clip sample_question) emb_020 == 20 # 100)%Q /\
  exists o w',
    _retrieve_images sample_backend_no_visual sample_clip sample_cos_sim
      sample_question None 12 [node_gasket] fresh_world = (Ok [o], w') /\
    Out.image_path o = "images/p7_gasket.png" /\
    (Out.score o == 23 # 100)%Q.
Proof.
  split; [reflexivity|]. eexists _, _. split; [vm_compute; reflexivity|].
  split; reflexivity.
Qed.

Lemma retrieve_images_threshold_and_order_witness :
  exists out w',
    _retrieve_images sample_backend sample_clip sample_cos_sim
      sample_question None 12 [node_wrench; node_gasket] fresh_world = (Ok out, w') /\
    StronglySorted (fun a b => (Out.score b <= Out.score a)%Q) out.
Proof.
  eexists _, _. split; [vm_compute; reflexivity|].
  edestruct (retrieve_images_threshold_and_order sample_backend sample_clip sample_cos_sim
               sample_question None 12 [node_wrench; node_gasket] fresh_world)
    as (vis & _ & _ & _ & _ & Hs & _); [vm_compute; reflexivity|].
  exact Hs.
Defined.

Lemma retrieve_images_distinct_paths_witness :
  exists out w',
    _retrieve_images sample_backend sample_clip sample_cos_sim
      sample_question None 12 [node_wrench; node_socket_again] fresh_world
      = (Ok out, w') /\
    NoDup (map Out.image_path out).
Proof.
  eexists _, _. split; [vm_compute; reflexivity|].
  edestruct (retrieve_images_distinct_paths sample_backend sample_clip sample_cos_sim
               sample_question None 12 [node_wrench; node_socket_again] fresh_world)
    as [Hnd _]; [vm_compute; reflexivity|].
  exact Hnd.
Defined.


(** Two consecutive searches on a filter the index cannot honour: the
    first sends the filtered attempt and then the retry, the second only
    the retry. *)
Example refused_filter_is_tried_once :
  trace after_refusal =
    [EvAggregate unified_nodes (Params.set_filter style_params style_filter);
     EvAggregate unified_nodes (retry_params style_params)] /\
  trace (_execute_resilient_search sample_backend_unindexed unified_nodes
           style_params style_filter after_refusal).2 =
    trace after_refusal ++ [EvAggregate unified_nodes (retry_params style_params)].
Proof. split; vm_compute; reflexivity. Qed.

Lemma capability_learning_sticky_witness :
  "style" ∈ _broken_filters after_refusal /\
  (_execute_resilient_search sample_backend_unindexed unified_nodes
     style_params style_filter after_refusal).2 =
  snoc_event after_refusal (EvAggregate unified_nodes (retry_params style_params)).
Proof.
  destruct (capability_learning_sticky sample_backend_unindexed sample_llm sample_chain
              sample_embed sample_clip sample_cos_sim)
    as (_ & _ & _ & _ & Hlearn & Hsticky).
  assert (Hkey : "style" ∈ filter_keys style_filter) by (simpl; left).
  assert (Hk : "style" ∈ _broken_filters after_refusal).
  { apply (Hlearn unified_nodes style_params style_filter fresh_world
             "Path 'style' needs to be indexed as filter" "style");
      [reflexivity|vm_compute; reflexivity|reflexivity|vm_compute; reflexivity|exact Hkey]. }
  split; [exact Hk|].
  apply (Hsticky "style" after_refusal after_refusal unified_nodes style_params
           style_filter Hk); [constructor|exact Hkey].
Defined.

Lemma category_filter_never_attempted_witness :
  later sample_backend sample_llm sample_chain fresh_world fresh_world /\
  "category" ∈ filter_keys category_only /\
  (_execute_resilient_search sample_backend unified_nodes style_params
     category_only fresh_world).2 =
  snoc_event fresh_world (EvAggregate unified_nodes (retry_params style_params)).
Proof.
  assert (Hr : later sample_backend sample_llm sample_chain fresh_world fresh_world)
    by constructor.
  assert (Hkey : "category" ∈ filter_keys category_only) by (simpl; left).
  split; [exact Hr|]. split; [exact Hkey|].
  destruct (category_filter_never_attempted sample_backend sample_llm sample_chain)
    as [_ H].
  destruct (H fresh_world Hr) as [_ H'].
  destruct (H' unified_nodes style_params category_only Hkey) as [Heq _].
  rewrite Heq. reflexivity.
Defined.

Lemma generator_failures_degrade_witness :
  (_rewrite_query sample_llm_down sample_question fresh_world).1 = Ok sample_question /\
  returns (ask sample_backend sample_llm_down sample_chain sample_embed sample_clip
             sample_cos_sim sample_question "corrective") fresh_world.
Proof.
  destruct (generator_failures_degrade sample_backend sample_llm_down sample_chain
              sample_embed sample_clip sample_cos_sim)
    as (Hrewrite & _ & _ & _ & _ & _ & Hask).
  split.
  - apply (Hrewrite sample_question fresh_world (OtherError "connection refused")).
    reflexivity.
  - apply Hask. exact sample_backend_up.
Defined.

Lemma auto_router_table_witness :
  auto_router "impact wrench" [node_wrench; node_gasket] = "speculative" /\
  auto_router sample_question [node_wrench; node_gasket] = "fusion".
Proof.
  split.
  - destruct (auto_router_table sample_backend sample_llm sample_chain sample_embed
                sample_clip sample_cos_sim "impact wrench" fresh_world) as [_ H].
    edestruct (H [node_wrench; node_gasket]) as (H1 & _); [vm_compute; reflexivity|].
    apply H1. vm_compute. lia.
  - destruct (auto_router_table sample_backend sample_llm sample_chain sample_embed
                sample_clip sample_cos_sim sample_question fresh_world) as [_ H].
    edestruct (H [node_wrench; node_gasket]) as (_ & H2 & _); [vm_compute; reflexivity|].
    apply H2; vm_compute; lia.
Defined.

(** ** Further properties of the code *)

(** *** Python string primitives *)

Lemma string_app_cons (c : ascii) (s t : string) :
  String c s +:+ t = String c (s +:+ t).
Proof. reflexivity. Qed.

Lemma string_app_nil_l (s : string) : "" +:+ s = s.
Proof. reflexivity. Qed.

Lemma string_app_nil_r (s : string) : s +:+ "" = s.
Proof. induction s as [|c s IH]; [done|]. by rewrite string_app_cons, IH. Qed.

Lemma string_app_assoc (a b c : string) : (a +:+ b) +:+ c = a +:+ (b +:+ c).
Proof. induction a as [|x a IH]; [done|]. by rewrite !string_app_cons, IH. Qed.

Lemma rev_onto_app (s acc : string) : PyStr.rev_onto s acc = PyStr.rev s +:+ acc.
Proof.
  unfold PyStr.rev. revert acc. induction s as [|c s IH]; intros acc; simpl; [done|].
  by rewrite (IH (String c acc)), (IH (String c "")), string_app_assoc.
Qed.

Lemma rev_cons (c : ascii) (s : string) :
  PyStr.rev (String c s) = PyStr.rev s +:+ String c "".
Proof. unfold PyStr.rev at 1. simpl. apply rev_onto_app. Qed.

Lemma rev_app (a b : string) : PyStr.rev (a +:+ b) = PyStr.rev b +:+ PyStr.rev a.
Proof.
  induction a as [|c a IH].
  - change (PyStr.rev "") with "". by rewrite string_app_nil_l, string_app_nil_r.
  - by rewrite string_app_cons, !rev_cons, IH, string_app_assoc.
Qed.

Lemma rev_involutive (s : string) : PyStr.rev (PyStr.rev s) = s.
Proof.
  induction s as [|c s IH]; [done|]. by rewrite rev_cons, rev_app, IH.
Qed.

Lemma lstrip_split (s : string) :
  exists sp, s = sp +:+ PyStr.lstrip s /\ all_space sp = true.
Proof.
  induction s as [|c s (sp & Hs & Hsp)]; [by exists ""|]. simpl.
  destruct (PyStr.is_space c) eqn:E.
  - exists (String c sp). rewrite string_app_cons, <- Hs. simpl. by rewrite E, Hsp.
  - by exists "".
Qed.

Lemma lstrip_no_leading_space (s : string) : no_leading_space (PyStr.lstrip s).
Proof.
  induction s as [|c s IH]; simpl; [done|].
  destruct (PyStr.is_space c) eqn:E; [done|]. simpl. done.
Qed.

Lemma lstrip_fixed (s : string) : no_leading_space s -> PyStr.lstrip s = s.
Proof. destruct s as [|c s]; simpl; [done|]. by intros ->. Qed.

(** [rstrip] only removes a whitespace suffix. *)
Lemma rstrip_split (s : string) :
  exists sp, s = PyStr.rstrip s +:+ sp /\ all_space sp = true.
Proof.
  destruct (lstrip_split (PyStr.rev s)) as (sp & Hs & Hsp).
  exists (PyStr.rev sp). split.
  - unfold PyStr.rstrip. rewrite <- rev_app, <- Hs. by rewrite rev_involutive.
  - clear Hs. induction sp as [|c sp IH]; [done|]. simpl in Hsp.
    apply andb_true_iff in Hsp as [Hc Hsp]. rewrite rev_cons.
    specialize (IH Hsp). revert IH. generalize (PyStr.rev sp). intros t.
    induction t as [|d t IHt]; [by rewrite string_app_nil_l; simpl; rewrite Hc|].
    rewrite string_app_cons. simpl.
    intros Ht. apply andb_true_iff in Ht as [-> Ht]. by apply IHt.
Qed.

Lemma rstrip_no_leading_space (s : string) :
  no_leading_space s -> no_leading_space (PyStr.rstrip s).
Proof.
  intros H. destruct (rstrip_split s) as (sp & Hs & _).
  destruct (PyStr.rstrip s) as [|c r]; [done|]. rewrite Hs, string_app_cons in H. exact H.
Qed.

Lemma rstrip_fixed (s : string) :
  no_leading_space (PyStr.rev s) -> PyStr.rstrip s = s.
Proof. intros H. unfold PyStr.rstrip. by rewrite lstrip_fixed, rev_involutive. Qed.

Lemma strip_no_leading_space (s : string) : no_leading_space (PyStr.strip s).
Proof. apply rstrip_no_leading_space, lstrip_no_leading_space. Qed.

Lemma strip_no_trailing_space (s : string) :
  no_leading_space (PyStr.rev (PyStr.strip s)).
Proof.
  unfold PyStr.strip, PyStr.rstrip. rewrite rev_involutive.
  apply lstrip_no_leading_space.
Qed.

Lemma strip_idempotent (s : string) : PyStr.strip (PyStr.strip s) = PyStr.strip s.
Proof.
  unfold PyStr.strip at 1.
  rewrite (lstrip_fixed _ (strip_no_leading_space s)).
  apply rstrip_fixed, strip_no_trailing_space.
Qed.

Lemma has_nonspace_app (a b : string) :
  has_nonspace (a +:+ b) = has_nonspace a || has_nonspace b.
Proof.
  induction a as [|c a IH]; [done|]. rewrite string_app_cons. simpl.
  by rewrite IH, orb_assoc.
Qed.

Lemma has_nonspace_all_space (s : string) :
  all_space s = true -> has_nonspace s = false.
Proof.
  induction s as [|c s IH]; simpl; [done|].
  intros H. apply andb_true_iff in H as [-> H]. by apply IH.
Qed.

Lemma truthy_no_leading_space (s : string) :
  no_leading_space s -> PyStr.truthy s = has_nonspace s.
Proof. destruct s as [|c s]; simpl; [done|]. by intros ->. Qed.

(** [s.strip()] is non-empty exactly when [s] has a character that is not
    whitespace. *)
Lemma truthy_strip (s : string) : PyStr.truthy (PyStr.strip s) = has_nonspace s.
Proof.
  rewrite (truthy_no_leading_space _ (strip_no_leading_space s)).
  destruct (lstrip_split s) as (sp1 & H1 & Hsp1).
  destruct (rstrip_split (PyStr.lstrip s)) as (sp2 & H2 & Hsp2).
  fold (PyStr.strip s) in H2.
  transitivity (has_nonspace (sp1 +:+ PyStr.strip s +:+ sp2)).
  - rewrite !has_nonspace_app, (has_nonspace_all_space _ Hsp1),
      (has_nonspace_all_space _ Hsp2).
    by rewrite orb_false_r.
  - by rewrite <- H2, <- H1.
Qed.

(** *** What the generator helpers return *)

Lemma chars_app (a b : string) : chars (a +:+ b) = chars a ++ chars b.
Proof.
  induction a as [|c a IH]; [done|]. rewrite string_app_cons. simpl. by rewrite IH.
Qed.

Lemma strip_chars (s : string) (c : ascii) : c ∈ chars (PyStr.strip s) -> c ∈ chars s.
Proof.
  destruct (lstrip_split s) as (sp1 & H1 & _).
  destruct (rstrip_split (PyStr.lstrip s)) as (sp2 & H2 & _).
  fold (PyStr.strip s) in H2. intros Hc.
  assert (Hs : chars s = chars sp1 ++ chars (PyStr.strip s) ++ chars sp2).
  { rewrite <- !chars_app. by rewrite <- H2, <- H1. }
  rewrite Hs, !elem_of_app. tauto.
Qed.

Lemma split_on_no_sep (sep : ascii) (s : string) :
  Forall (fun f => sep ∉ chars f) (PyStr.split_on sep s).
Proof.
  induction s as [|c s IH]; simpl.
  - repeat constructor. apply not_elem_of_nil.
  - destruct (Ascii.eqb c sep) eqn:E.
    + constructor; [apply not_elem_of_nil|done].
    + apply Ascii.eqb_neq in E.
      destruct (PyStr.split_on sep s) as [|f fs].
      * repeat constructor. simpl. rewrite not_elem_of_cons. split; [congruence|apply not_elem_of_nil].
      * apply Forall_cons in IH as [Hf Hfs]. constructor; [|done].
        simpl. rewrite not_elem_of_cons. split; [congruence|done].
Qed.

Lemma stripped_fields_clean (sep : ascii) (res : string) :
  Forall (clean_field sep) (stripped_fields sep res).
Proof.
  unfold stripped_fields. apply List.Forall_map.
  pose proof (split_on_no_sep sep res) as Hsep. rewrite Forall_forall in Hsep.
  apply Forall_forall. intros v Hv.
  apply list_elem_of_In, filter_In in Hv as [Hv Ht]. apply list_elem_of_In in Hv.
  repeat split; [done|apply strip_idempotent|].
  intros Hc. apply strip_chars in Hc. by apply (Hsep v).
Qed.

Lemma remove_char_absent (c : ascii) (s : string) : c ∉ chars (PyStr.remove_char c s).
Proof.
  induction s as [|d s IH]; simpl; [apply not_elem_of_nil|].
  destruct (Ascii.eqb d c) eqn:E; [done|].
  apply Ascii.eqb_neq in E. simpl. rewrite not_elem_of_cons. split; [congruence|done].
Qed.

Lemma remove_char_fixed (c : ascii) (s : string) :
  c ∉ chars s -> PyStr.remove_char c s = s.
Proof.
  induction s as [|d s IH]; simpl; [done|]. rewrite not_elem_of_cons. intros [Hd Hs].
  destruct (Ascii.eqb d c) eqn:E.
  - apply Ascii.eqb_eq in E. congruence.
  - by rewrite IH.
Qed.




Lemma lower_char_idempotent (c : ascii) :
  PyStr.lower_char (PyStr.lower_char c) = PyStr.lower_char c.
Proof. destruct c as [[] [] [] [] [] [] [] []]; reflexivity. Qed.

Lemma lower_idempotent (s : string) : PyStr.lower (PyStr.lower s) = PyStr.lower s.
Proof.
  induction s as [|c s IH]; simpl; [done|]. by rewrite lower_char_idempotent, IH.
Qed.

Lemma lower_app (a b : string) :
  PyStr.lower (a +:+ b) = PyStr.lower a +:+ PyStr.lower b.
Proof.
  induction a as [|c a IH]; [done|]. rewrite string_app_cons. simpl.
  by rewrite IH, string_app_cons.
Qed.

Lemma startswith_app (p s t : string) :
  PyStr.startswith p s = true -> PyStr.startswith p (s +:+ t) = true.
Proof.
  revert s. induction p as [|a p IH]; intros s; [done|].
  destruct s as [|b s]; [done|]. rewrite string_app_cons. simpl.
  intros H. apply andb_true_iff in H as [-> H]. by apply IH.
Qed.

Lemma contains_app_r (w s t : string) :
  PyStr.contains w s = true -> PyStr.contains w (s +:+ t) = true.
Proof.
  induction s as [|c s IH].
  - simpl. rewrite orb_false_r. intros H. rewrite string_app_nil_l.
    destruct w; [by destruct t; simpl|done].
  - rewrite string_app_cons. simpl. intros H. apply orb_true_iff in H as [H|H].
    + change (PyStr.startswith w (String c (s +:+ t)))
        with (PyStr.startswith w (String c s +:+ t)).
      by rewrite (startswith_app _ _ _ H).
    + by rewrite (IH H), orb_true_r.
Qed.

Lemma contains_app_l (w s t : string) :
  PyStr.contains w t = true -> PyStr.contains w (s +:+ t) = true.
Proof.
  intros H. induction s as [|c s IH]; [done|].
  rewrite string_app_cons. simpl. by rewrite IH, orb_true_r.
Qed.

Section GeneratorHelpers.
Context (llm_invoke : list Event -> string -> Res string).
Context (chain_invoke : list Event -> string -> string -> Res string).


(** X2. When the generator answers, the rewritten query holds no double
    quote character (it is the stripped answer with the quotes removed);
    when it fails, the query comes back unchanged.  One generator call is
    made either way. *)
Theorem rewrite_query_unquoted query w :
  exists rewritten_q,
    _rewrite_query llm_invoke query w =
      (Ok rewritten_q, snoc_event w (EvInvoke (rewrite_prompt query))) /\
    match llm_invoke (trace w) (rewrite_prompt query) with
    | Ok content =>
        (PyStr.dquote ∉ chars rewritten_q) /\
        rewritten_q = PyStr.remove_char PyStr.dquote (PyStr.strip content) /\
        length (chars rewritten_q) <= length (chars content)
    | Raise _ => rewritten_q = query
    end.
Proof.
  rewrite rewrite_query_run. eexists. split; [done|].
  destruct (llm_invoke _ _) as [content|e]; simpl; [|done].
  split; [apply remove_char_absent|]. split; [done|].
  assert (H1 : forall s, length (chars (PyStr.remove_char PyStr.dquote s)) <= length (chars s)).
  { induction s as [|c s IH]; simpl; [done|].
    destruct (Ascii.eqb c PyStr.dquote); simpl; lia. }
  etrans; [apply H1|].
  destruct (lstrip_split content) as (sp1 & Hc1 & _).
  destruct (rstrip_split (PyStr.lstrip content)) as (sp2 & Hc2 & _).
  fold (PyStr.strip content) in Hc2.
  assert (Hc : chars content
               = chars sp1 ++ chars (PyStr.strip content) ++ chars sp2).
  { rewrite <- !chars_app. by rewrite <- Hc2, <- Hc1. }
  rewrite Hc, !length_app. lia.
Qed.

(** X3. Every extracted entity is non-empty, has no surrounding whitespace
    and holds no comma; the helper never raises and makes one generator
    call. *)
Theorem extract_entities_clean text w :
  exists entities,
    _extract_entities llm_invoke text w =
      (Ok entities, snoc_event w (EvInvoke (entities_prompt text))) /\
    Forall (clean_field PyStr.comma) entities.
Proof.
  rewrite extract_entities_run. eexists. split; [done|].
  destruct (llm_invoke _ _); simpl; [apply stripped_fields_clean|constructor].
Qed.

(** X4. The generated query list is at most three variations followed by
    the original question, which is always its last entry; every
    variation is non-empty, stripped and holds no line break. *)
Theorem generate_queries_shape question w :
  exists variations,
    _generate_queries llm_invoke question w =
      (Ok (variations ++ [question]),
       snoc_event w (EvInvoke (queries_prompt question))) /\
    length variations <= 3 /\
    Forall (clean_field PyStr.newline) variations.
Proof.
  rewrite generate_queries_run.
  destruct (llm_invoke _ _) as [content|e]; simpl.
  - eexists. split; [done|]. split; [rewrite length_take; lia|].
    apply Forall_take, stripped_fields_clean.
  - exists []. split; [done|]. split; [simpl; lia|constructor].
Qed.

(** X5. The answer handed to the caller is never blank: a blank generator
    answer is replaced by the apology sentence and a generator failure by
    an error sentence; the helper never raises. *)
Theorem generate_answer_never_blank question context w :
  exists text,
    _generate_answer chain_invoke question context w =
      (Ok text, snoc_event w (EvChain context question)) /\
    has_nonspace text = true /\
    match chain_invoke (trace w) context question with
    | Ok res =>
        text = if has_nonspace res then res
               else "I'm sorry, I couldn't find enough information in our catalogs to answer that specific design question."
    | Raise e =>
        text = "I encountered an error while analyzing the catalogs: " +:+ exn_str e
    end.
Proof.
  unfold _generate_answer. unfold_monad. rewrite call_chain_run.
  destruct (chain_invoke _ _ _) as [res|e]; simpl.
  - rewrite truthy_strip. destruct (has_nonspace res) eqn:E; eexists; by repeat split.
  - eexists. split; [done|]. split; [|done]. by rewrite has_nonspace_app.
Qed.
End GeneratorHelpers.

(** X6. Category detection answers only ["automotive"] or nothing, ignores
    letter case, and works on substrings: text added before or after a
    question that is detected as automotive never removes the category. *)
Theorem detect_category_substring :
  (forall question,
      _detect_category question = None \/
      _detect_category question = Some "automotive") /\
  (forall question,
      _detect_category (PyStr.lower question) = _detect_category question) /\
  (forall before question after,
      _detect_category question = Some "automotive" ->
      _detect_category (before +:+ question +:+ after) = Some "automotive").
Proof.
  split; [|split].
  - intros q. unfold _detect_category. destruct (existsb _ _); [by right|by left].
  - intros q. unfold _detect_category. by rewrite lower_idempotent.
  - intros p q r. unfold _detect_category.
    destruct (existsb _ category_keywords) eqn:E; [|done]. intros _.
    apply existsb_exists in E as (kw & Hkw & Hc).
    assert (E' : existsb (fun w => PyStr.contains w (PyStr.lower (p +:+ q +:+ r)))
                   category_keywords = true).
    { apply existsb_exists. exists kw. split; [done|].
      rewrite !lower_app. by apply contains_app_l, contains_app_r. }
    by rewrite E'.
Qed.

(** *** Deduplication, reranking and fusion *)

Lemma dedup_from_spec (seen : gset string) (docs : list Node.t) :
  let out := dedup_from seen docs in
  NoDup (map Node._id out) /\
  out `sublist_of` docs /\
  (forall id, id ∈ map Node._id out <-> id ∈ map Node._id docs /\ id ∉ seen) /\
  (forall d, d ∈ out -> first_with_id docs d).
Proof.
  revert seen. induction docs as [|x docs IH]; intros seen; simpl.
  - split; [constructor|]. split; [done|]. split.
    + intros id. rewrite elem_of_nil. tauto.
    + intros d Hd. by apply elem_of_nil in Hd.
  - destruct (bool_decide (Node._id x ∈ seen)) eqn:B.
    + apply bool_decide_eq_true in B.
      destruct (IH seen) as (Hnd & Hsub & Hids & Hfirst).
      split; [done|]. split; [by apply sublist_cons|]. split.
      * intros id. rewrite Hids, elem_of_cons. split; [tauto|].
        intros [[->|H] Hs]; [done|tauto].
      * intros d Hd. destruct (Hfirst d Hd) as (l1 & l2 & -> & Hl1).
        assert (Hdx : Node._id d <> Node._id x).
        { intros E. assert (Hin : Node._id d ∈ map Node._id (dedup_from seen (l1 ++ d :: l2))).
          { apply list_elem_of_In, in_map, list_elem_of_In, Hd. }
          apply Hids in Hin as [_ Hin]. apply Hin. by rewrite E. }
        exists (x :: l1), l2. split; [done|]. simpl. rewrite not_elem_of_cons. done.
    + apply bool_decide_eq_false in B.
      destruct (IH (seen ∪ {[Node._id x]})) as (Hnd & Hsub & Hids & Hfirst).
      split; [|split; [|split]].
      * simpl. constructor; [|done]. rewrite Hids. intros [_ H]. apply H.
        apply elem_of_union_r. by apply elem_of_singleton.
      * by apply sublist_skip.
      * intros id. simpl. rewrite !elem_of_cons, Hids, not_elem_of_union, not_elem_of_singleton.
        split.
        -- intros [->|(H1 & H2 & H3)]; [by split; [left|]|by split; [right|]].
        -- intros [[->|H] Hs]; [by left|].
           destruct (decide (id = Node._id x)) as [->|Hne]; [by left|by right].
      * intros d Hd. apply elem_of_cons in Hd as [->|Hd].
        -- exists [], docs. split; [done|]. apply not_elem_of_nil.
        -- destruct (Hfirst d Hd) as (l1 & l2 & -> & Hl1).
           assert (Hdx : Node._id d <> Node._id x).
           { intros E.
             assert (Hin : Node._id d ∈ map Node._id
                             (dedup_from (seen ∪ {[Node._id x]}) (l1 ++ d :: l2))).
             { apply list_elem_of_In, in_map, list_elem_of_In, Hd. }
             apply Hids in Hin as [_ Hin]. apply Hin.
             apply elem_of_union_r. by apply elem_of_singleton. }
           exists (x :: l1), l2. split; [done|]. simpl. rewrite not_elem_of_cons. done.
Qed.

Lemma dedup_from_fixed (seen : gset string) (docs : list Node.t) :
  NoDup (map Node._id docs) -> (forall d, d ∈ docs -> Node._id d ∉ seen) ->
  dedup_from seen docs = docs.
Proof.
  revert seen. induction docs as [|x docs IH]; intros seen Hnd Hs; simpl; [done|].
  simpl in Hnd. apply NoDup_cons in Hnd as [Hx Hnd].
  rewrite bool_decide_eq_false_2 by (apply Hs; by left).
  f_equal. apply IH; [done|]. intros d Hd.
  rewrite not_elem_of_union, not_elem_of_singleton. split; [apply Hs; by right|].
  intros E. apply Hx. rewrite <- E. apply list_elem_of_In, in_map, list_elem_of_In, Hd.
Qed.

Lemma dedup_from_app (seen : gset string) (a b : list Node.t) :
  exists kept, dedup_from seen (a ++ b) = dedup_from seen a ++ kept /\ kept `sublist_of` b.
Proof.
  revert seen. induction a as [|x a IH]; intros seen; simpl.
  - exists (dedup_from seen b). split; [done|]. apply dedup_from_spec.
  - destruct (bool_decide (Node._id x ∈ seen)); [apply IH|].
    destruct (IH (seen ∪ {[Node._id x]})) as (kept & -> & Hk). by exists kept.
Qed.

(** X7. Deduplication keeps exactly the first document of each identifier,
    in the original order: the result has pairwise distinct identifiers,
    the same identifiers as the input, is a sublist of the input, and
    deduplicating it again changes nothing.  Merging a second list after a
    first one leaves the first list's documents in front, followed by
    documents of the second list only. *)
Theorem deduplicate_docs_first_occurrences (docs more : list Node.t) :
  let out := _deduplicate_docs docs in
  NoDup (map Node._id out) /\
  out `sublist_of` docs /\
  (forall id, id ∈ map Node._id out <-> id ∈ map Node._id docs) /\
  Forall (first_with_id docs) out /\
  _deduplicate_docs out = out /\
  exists kept,
    _deduplicate_docs (docs ++ more) = out ++ kept /\ kept `sublist_of` more.
Proof.
  unfold _deduplicate_docs.
  destruct (dedup_from_spec ∅ docs) as (Hnd & Hsub & Hids & Hfirst).
  split; [done|]. split; [done|]. split; [|split; [|split]].
  - intros id. rewrite Hids. split; [tauto|]. intros H. split; [done|apply not_elem_of_empty].
  - by apply Forall_forall.
  - apply dedup_from_fixed; [done|]. intros d _. apply not_elem_of_empty.
  - apply dedup_from_app.
Qed.

(** Sorting a list that is already in descending key order returns it. *)
Lemma sort_desc_sorted {A : Type} (key : A -> Q) (l : list A) :
  StronglySorted (fun a b => (key b <= key a)%Q) l -> sort_desc key l = l.
Proof.
  induction 1 as [|x l Hs IH Hx]; [done|].
  unfold sort_desc in *. simpl. rewrite IH.
  destruct l as [|y l]; [done|]. simpl.
  apply Forall_cons in Hx as [Hy _]. apply Qle_bool_iff in Hy. by rewrite Hy.
Qed.

Section Rerank.
Context (get_embeddings : string -> Emb) (cos_sim : Emb -> Emb -> Q).

Lemma rerank_scored (docs : list Node.t) (q_emb : Emb) :
  omap (fun d =>
          if emb_truthy (default [] (Node.embedding d))
          then Some (cos_sim q_emb (default [] (Node.embedding d)), d) else None) docs
  = map (fun d => (cos_sim q_emb (default [] (Node.embedding d)), d))
      (List.filter has_embedding docs).
Proof.
  induction docs as [|d docs IH]; [done|]. csimpl. unfold has_embedding at 1.
  destruct (emb_truthy _); csimpl; by rewrite IH.
Qed.

(** X8. Reranking returns at most [top_k] documents, exactly
    [min top_k n] where [n] counts the input documents with a non-empty
    embedding; each returned document is one of those, none is returned
    more often than it occurs in the input, and the result is in
    descending order of similarity to the query.  Documents without an
    embedding are left out. *)
Theorem rerank_by_relevance_spec (query : string) (docs : list Node.t) (top_k : nat) :
  let out := _rerank_by_relevance get_embeddings cos_sim query docs top_k in
  let sim := rerank_score get_embeddings cos_sim query in
  length out = top_k `min` length (List.filter has_embedding docs) /\
  out ⊆+ List.filter has_embedding docs /\
  Forall (fun d => has_embedding d = true /\ d ∈ docs) out /\
  StronglySorted (fun a b => (sim b <= sim a)%Q) out.
Proof.
  intros out sim. subst out. unfold _rerank_by_relevance. cbv zeta. rewrite rerank_scored.
  set (scored := map _ (List.filter has_embedding docs)).
  assert (Hsnd : map snd scored = List.filter has_embedding docs).
  { subst scored. rewrite map_map. simpl. apply map_id. }
  assert (Hsub : map snd (take top_k (sort_desc fst scored)) ⊆+ List.filter has_embedding docs).
  { rewrite <- Hsnd.
    change (map snd) with (fmap (M:=list) (@snd Q Node.t)).
    apply fmap_submseteq. etrans; [apply sublist_submseteq, sublist_take|].
    by rewrite sort_desc_perm. }
  split; [|split; [done|split]].
  - rewrite length_map, length_take.
    rewrite (Permutation_length (sort_desc_perm fst scored)).
    subst scored. by rewrite length_map.
  - apply Forall_forall. intros d Hd.
    apply (elem_of_submseteq _ _ _ Hd) in Hsub.
    apply list_elem_of_In, filter_In in Hsub as [Hin Hemb].
    split; [done|by apply list_elem_of_In].
  - apply (StronglySorted_fst_weaken snd (fun a b => (fst b <= fst a)%Q)).
    + intros a b Ha Hb Hab.
      assert (Hfst : forall e, e ∈ take top_k (sort_desc fst scored) -> fst e = sim (snd e)).
      { intros e He. apply elem_of_take in He as (i & He & _).
        apply list_elem_of_lookup_2, sort_desc_elem in He. subst scored.
        apply list_elem_of_In, in_map_iff in He as (d & <- & _). done. }
      by rewrite <- (Hfst a Ha), <- (Hfst b Hb).
    + apply StronglySorted_take, sort_desc_descending.
Qed.
End Rerank.

Lemma store_last (m : gmap string Node.t) (docs : list Node.t) (id : string) (d : Node.t) :
  foldl store_doc m docs !! id = Some d ->
  (last_with_id docs d /\ Node._id d = id) \/
  (m !! id = Some d /\ id ∉ map Node._id docs).
Proof.
  revert m. induction docs as [|x docs IH]; intros m H; simpl in *.
  - right. split; [done|apply not_elem_of_nil].
  - apply IH in H as [[(l1 & l2 & -> & Hl2) Hid]|[H Hn]].
    + left. split; [|done]. by exists (x :: l1), l2.
    + unfold store_doc in H. apply lookup_insert_Some in H as [[<- <-]|[Hne H]].
      * left. split; [|done]. by exists [], docs.
      * right. split; [done|]. rewrite not_elem_of_cons. done.
Qed.

Lemma first_seen_length_le (seen ids : list string) :
  length (first_seen seen ids) <= length ids.
Proof.
  revert seen. induction ids as [|x ids IH]; intros seen; simpl; [done|].
  destruct (bool_decide _); simpl; [specialize (IH seen)|specialize (IH (x :: seen))]; lia.
Qed.

Lemma rrf_shape (results_lists : list (list Node.t)) (limit k : nat) :
  let out := _reciprocal_rank_fusion results_lists limit k in
  let ids := map Node._id (concat results_lists) in
  length out = limit `min` length (first_seen [] ids) /\
  length out <= length (concat results_lists) /\
  NoDup (map Node._id out) /\
  Forall (last_with_id (concat results_lists)) out.
Proof.
  intros out ids. subst out ids. unfold _reciprocal_rank_fusion.
  destruct (rrf_accumulate k results_lists) as [fs ds] eqn:Eacc.
  assert (Hfs : fs = (rrf_accumulate k results_lists).1) by (by rewrite Eacc).
  assert (Hds : ds = (rrf_accumulate k results_lists).2) by (by rewrite Eacc).
  assert (Hkeys : fs.*1 = first_seen [] (map Node._id (concat results_lists))).
  { rewrite Hfs. apply rrf_keys. }
  assert (Hids : map Node._id (omap (fun e => ds !! e.1) (take limit (sort_desc snd fs)))
                 = (take limit (sort_desc snd fs)).*1).
  { apply omap_store_ids. intros e He.
    apply elem_of_take in He as (i & He & _). apply list_elem_of_lookup_2 in He.
    apply sort_desc_elem in He. rewrite Hds. apply rrf_store_complete.
    apply (rrf_key_in_inputs k). by rewrite <- Hfs. }
  assert (Hlen : length (omap (fun e => ds !! e.1) (take limit (sort_desc snd fs)))
                 = limit `min` length (first_seen [] (map Node._id (concat results_lists)))).
  { rewrite <- (length_map Node._id), Hids, length_fmap, length_take.
    rewrite (Permutation_length (sort_desc_perm snd fs)).
    by rewrite <- Hkeys, length_fmap. }
  split; [done|]. split; [|split].
  - rewrite Hlen.
    pose proof (first_seen_length_le [] (map Node._id (concat results_lists))) as Hle.
    rewrite length_map in Hle. lia.
  - rewrite Hids, fmap_take. eapply sublist_NoDup; [|apply sublist_take].
    rewrite sort_desc_perm, Hkeys. apply first_seen_NoDup.
  - apply Forall_forall. intros d Hd. apply list_elem_of_omap in Hd as (e & _ & Hd).
    rewrite Hds in Hd. unfold rrf_accumulate in Hd.
    rewrite rrf_accumulate_store_from in Hd. simpl in Hd.
    apply store_last in Hd as [[Hd _]|[Hd _]]; [done|]. by rewrite lookup_empty in Hd.
Qed.

Lemma rrf_length_le (results_lists : list (list Node.t)) (limit k : nat) :
  length (_reciprocal_rank_fusion results_lists limit k) <= limit.
Proof. destruct (rrf_shape results_lists limit k) as (H & _). simpl in H. lia. Qed.


Lemma foldl_add_entry_fresh (fs es : list (string * Q)) :
  NoDup (fs.*1 ++ es.*1) ->
  foldl add_entry fs es = fs ++ map (fun e => (e.1, (0 + e.2)%Q)) es.
Proof.
  revert fs. induction es as [|[id t] es IH]; intros fs Hnd; simpl.
  - by rewrite app_nil_r.
  - assert (Hadd : add_entry fs (id, t) = fs ++ [(id, (0 + t)%Q)]).
    { unfold add_entry. simpl.
      assert (Hid : id ∉ fs.*1).
      { apply NoDup_app in Hnd as (_ & Hd & _). intros H. apply (Hd id H). csimpl. by left. }
      clear -Hid. induction fs as [|[i s] fs IH]; simpl; [done|].
      csimpl in Hid. rewrite not_elem_of_cons in Hid. destruct Hid as [Hne Hid].
      rewrite (proj2 (String.eqb_neq i id)) by congruence. by rewrite IH. }
    rewrite Hadd, IH.
    + by rewrite <- app_assoc.
    + rewrite fmap_app. csimpl. rewrite <- app_assoc. csimpl in Hnd. done.
Qed.

Lemma entries_from_descending (k rank : nat) (results : list Node.t) :
  0 < k ->
  StronglySorted (fun a b : string * Q => (snd b <= snd a)%Q)
    (map (fun e => (e.1, (0 + e.2)%Q)) (entries_from k rank results)) /\
  Forall (fun e : string * Q => (snd e <= 0 + rrf_term rank k)%Q)
    (map (fun e => (e.1, (0 + e.2)%Q)) (entries_from k rank results)).
Proof.
  intros Hk. revert rank. induction results as [|d results IH]; intros rank; simpl.
  - split; constructor.
  - destruct (IH (S rank)) as [Hs Hf].
    assert (Hstep : (0 + rrf_term (S rank) k <= 0 + rrf_term rank k)%Q).
    { rewrite !Qplus_0_l. by apply rrf_term_antitone; [|lia]. }
    split.
    + constructor; [done|]. eapply Forall_impl; [exact Hf|]. simpl. intros e He.
      eapply Qle_trans; [exact He|exact Hstep].
    + constructor; [simpl; apply Qle_refl|].
      eapply Forall_impl; [exact Hf|]. simpl. intros e He.
      eapply Qle_trans; [exact He|exact Hstep].
Qed.

Lemma omap_store_entries (k rank limit : nat) (results : list Node.t)
    (ds : gmap string Node.t) :
  (forall d, d ∈ results -> ds !! Node._id d = Some d) ->
  omap (fun e : string * Q => ds !! e.1)
    (take limit (map (fun e => (e.1, (0 + e.2)%Q)) (entries_from k rank results)))
  = take limit results.
Proof.
  revert rank limit. induction results as [|d results IH]; intros rank limit H; simpl.
  - by destruct limit.
  - destruct limit as [|limit]; [done|]. csimpl.
    rewrite (H d) by (by left). csimpl. f_equal. apply IH.
    intros d' Hd'. apply H. by right.
Qed.

Lemma store_NoDup_lookup (m : gmap string Node.t) (docs : list Node.t) (d : Node.t) :
  NoDup (map Node._id docs) -> d ∈ docs -> foldl store_doc m docs !! Node._id d = Some d.
Proof.
  intros Hnd Hd.
  destruct (store_is_Some m docs (Node._id d)) as [d' Hd'].
  { left. apply list_elem_of_In, in_map, list_elem_of_In, Hd. }
  rewrite Hd'. f_equal.
  apply store_last in Hd' as [[(l1 & l2 & Hdocs & Hl2) Hid]|[_ Hn]]; cycle 1.
  { exfalso. apply Hn. apply list_elem_of_In, in_map, list_elem_of_In, Hd. }
  (* both [d] and [d'] occur in [docs] with the same identifier *)
  apply list_elem_of_lookup in Hd as [i Hi].
  assert (Hj : docs !! length l1 = Some d').
  { rewrite Hdocs. by rewrite list_lookup_middle. }
  assert (Hi' : map Node._id docs !! i = Some (Node._id d)) by (by rewrite list_lookup_fmap, Hi).
  assert (Hj' : map Node._id docs !! length l1 = Some (Node._id d)).
  { by rewrite list_lookup_fmap, Hj, <- Hid. }
  pose proof (NoDup_lookup _ _ _ _ Hnd Hi' Hj') as ->. congruence.
Qed.

(** X10. Fusing a single ranked list (distinct identifiers, [k = 60])
    returns that list unchanged, cut to the limit: ranks alone never
    reorder one list. *)
Theorem reciprocal_rank_fusion_single_list (results : list Node.t) (limit : nat) :
  NoDup (map Node._id results) ->
  _reciprocal_rank_fusion [results] limit 60 = take limit results.
Proof.
  intros Hnd. unfold _reciprocal_rank_fusion.
  destruct (rrf_accumulate 60 [results]) as [fs ds] eqn:Eacc.
  assert (Hfs : fs = map (fun e => (e.1, (0 + e.2)%Q)) (entries_from 60 0 results)).
  { transitivity (rrf_accumulate 60 [results]).1; [by rewrite Eacc|].
    rewrite rrf_accumulate_scores. unfold entries. simpl. rewrite app_nil_r.
    rewrite foldl_add_entry_fresh; [done|]. csimpl. by rewrite entries_from_keys. }
  assert (Hds : ds = foldl store_doc ∅ results).
  { transitivity (rrf_accumulate 60 [results]).2; [by rewrite Eacc|].
    unfold rrf_accumulate. rewrite rrf_accumulate_store_from. simpl. by rewrite app_nil_r. }
  rewrite sort_desc_sorted.
  - rewrite Hfs. apply omap_store_entries. intros d Hd. rewrite Hds.
    by apply store_NoDup_lookup.
  - rewrite Hfs. apply entries_from_descending. lia.
Qed.

(** *** The search client: filtered results and errors *)

Section SearchClient.
Context (aggregate : list Event -> Collection -> Params.t -> Res (list Node.t)).

Abbreviation search' := (_execute_resilient_search aggregate).





(** X12. An absent filter and an empty filter dictionary are the same
    thing: the caller's parameters go to the backend unchanged in a single
    call, the backend's answer or error comes back as it is (a capability
    error included), and the registry is neither read nor changed. *)
Theorem search_without_filter c p w :
  search' c p None w = (aggregate (trace w) c p, snoc_event w (EvAggregate c p)) /\
  search' c p (Some []) w = (aggregate (trace w) c p, snoc_event w (EvAggregate c p)).
Proof.
  split; unfold _execute_resilient_search; unfold_monad; cbn [filter_truthy andb];
    rewrite call_aggregate_run;
    destruct (aggregate _ _ _) as [docs|[msg|msg]]; simpl; try done;
    by rewrite andb_false_r.
Qed.

(** X13. Errors of the backend.  On the first attempt, an error that is
    not an [OperationFailure], or whose text lacks ["indexed as filter"],
    is raised to the caller after that single call with the registry
    unchanged.  An error of the fallback's retry is raised as it is, also
    when it is the capability error itself: the fallback is never
    retried.  When the attempt is refused and the retry then fails, the
    filter keys stay recorded although the call raised. *)
Theorem search_errors_propagate c p fd w e :
  let full := if filter_truthy fd then Params.set_filter p fd else p in
  let known := existsb (fun k => bool_decide (k ∈ _broken_filters w)) (filter_keys fd) in
  (known = false ->
   aggregate (trace w) c full = Raise e ->
   is_operation_failure e && PyStr.contains "indexed as filter" (exn_str e) = false ->
   search' c p fd w = (Raise e, snoc_event w (EvAggregate c full))) /\
  (filter_truthy fd && known = true ->
   aggregate (trace w) c (retry_params p) = Raise e ->
   search' c p fd w = (Raise e, snoc_event w (EvAggregate c (retry_params p)))) /\
  (forall msg,
   filter_truthy fd = true -> known = false ->
   aggregate (trace w) c full = Raise (OperationFailure msg) ->
   PyStr.contains "indexed as filter" msg = true ->
   aggregate (trace w ++ [EvAggregate c full]) c (retry_params p) = Raise e ->
   (search' c p fd w).1 = Raise e /\
   trace (search' c p fd w).2 =
     trace w ++ [EvAggregate c full; EvAggregate c (retry_params p)] /\
   forall key, key ∈ filter_keys fd -> key ∈ _broken_filters (search' c p fd w).2).
Proof.
  intros full known. split; [|split].
  - intros Hk Ha He. unfold _execute_resilient_search. unfold_monad.
    fold known. rewrite Hk, andb_false_r. fold full. rewrite call_aggregate_run, Ha.
    destruct e as [msg|msg]; simpl in *; [|done]. by rewrite He.
  - intros Hk Ha. unfold _execute_resilient_search. unfold_monad.
    fold known. rewrite Hk, manual_fallback_run, Ha. done.
  - intros msg Hf Hk Ha Hc Hretry. unfold _execute_resilient_search. unfold_monad.
    fold known. rewrite Hk, andb_false_r. fold full. rewrite call_aggregate_run, Ha.
    cbn [is_operation_failure exn_str]. rewrite Hc, Hf. cbn [andb].
    rewrite for_each_add_broken, manual_fallback_run. simpl. rewrite Hretry.
    split; [done|]. split; [by rewrite <- app_assoc|].
    intros key Hkey. simpl. by apply foldl_add_elem.
Qed.
End SearchClient.

(** *** The pipelines call by call *)

(** X14. A formatted image always carries a usable page marker: the first
    truthy one among the image's [page_label], the image's [page] and the
    parent node's [page], and ["N/A"] when there is none; its path is the
    image's [image_path] if truthy, else its [path], else the empty
    string; its score is the image's, or 0.3 when none was set. *)
Theorem format_image_path_fields (img : Img.t) (node : Node.t) :
  let o := _format_image_path img (Some node) in
  page_truthy (Out.page o) = true /\
  Out.page o =
    default (PageStr "N/A")
      (first_truthy_page [Img.page_label img; Img.page img; Node.page node]) /\
  Out.image_path o =
    (if is_truthy PyStr.truthy (Img.image_path img)
     then default "" (Img.image_path img) else default "" (Img.path img)) /\
  Out.score o = default (3 # 10)%Q (Img.score img).
Proof.
  unfold _format_image_path, py_or, first_truthy_page, is_truthy. simpl.
  destruct (Img.page_label img) as [a|], (Img.page img) as [b|],
    (Node.page node) as [c|], (Img.image_path img) as [x|], (Img.path img) as [y|];
    simpl;
    repeat match goal with
           | |- context [page_truthy ?p] =>
               is_var p; let E := fresh "E" in destruct (page_truthy p) eqn:E; simpl
           | |- context [PyStr.truthy ?s] =>
               is_var s; let E := fresh "E" in destruct (PyStr.truthy s) eqn:E; simpl
           end;
    repeat split; try done; try congruence.
Qed.

Section Pipelines.
Context (aggregate : list Event -> Collection -> Params.t -> Res (list Node.t)).
Context (llm_invoke : list Event -> string -> Res string).
Context (chain_invoke : list Event -> string -> string -> Res string).
Context (get_embeddings get_clip_text_embedding : string -> Emb).
Context (cos_sim : Emb -> Emb -> Q).

Abbreviation retrieve_context' := (_retrieve_context aggregate get_embeddings).
Abbreviation retrieve_images'' := (_retrieve_images aggregate get_clip_text_embedding cos_sim).

(** A text search sends only calls on the text index for the query's
    embedding: one, or two when a filtered attempt is refused. *)
Lemma retrieve_context_events question top_k category w :
  exists evs,
    trace (retrieve_context' question top_k category w).2 = trace w ++ evs /\
    Forall (is_text_search (get_embeddings question)) evs /\
    1 <= length evs <= 2.
Proof.
  unfold _retrieve_context, unified_search.
  set (p := base_params _ _ _ _).
  pose proof (search_outcome aggregate unified_nodes p (category_filter category) w) as Ho.
  simpl in Ho.
  assert (Hp : forall p', Params.index p' = Params.index p ->
                 Params.queryVector p' = Params.queryVector p ->
                 is_text_search (get_embeddings question) (EvAggregate unified_nodes p')).
  { intros p' Hi Hq. exists p'. by rewrite Hi, Hq. }
  assert (Hfull : is_text_search (get_embeddings question)
            (EvAggregate unified_nodes
               (if filter_truthy (category_filter category)
                then Params.set_filter p (category_filter category) else p))).
  { apply Hp; by destruct (filter_truthy _). }
  destruct Ho as [->|[->|(msg & _ & _ & _ & ->)]].
  - exists [EvAggregate unified_nodes (retry_params p)]. split; [done|].
    split; [|simpl; lia]. apply Forall_singleton. by apply Hp.
  - eexists [_]. split; [done|]. split; [by apply Forall_singleton|simpl; lia].
  - eexists [_; _]. simpl. rewrite <- app_assoc. split; [done|].
    split; [|lia]. repeat constructor; [done|]. by apply Hp.
Qed.

Lemma retrieve_images_gallery search_query category text_docs w imgs w' :
  retrieve_images'' search_query category 12 text_docs w = (Ok imgs, w') ->
  gallery_ok imgs.
Proof.
  intros Hrun. apply retrieve_images_run in Hrun as (vis & evs & _ & -> & _ & _).
  pose proof (rank_images_provenance cos_sim (get_clip_text_embedding search_query)
                vis text_docs 12) as Hprov.
  split; [|split; [|split]].
  - rewrite rank_images_eq, length_take. lia.
  - apply rank_images_NoDup.
  - apply rank_images_descending.
  - apply Forall_forall. intros o Ho.
    destruct (Hprov o Ho) as [(e & Hlt & -> & _)|(e & Hlt & -> & _)]; exact Hlt.
Qed.

(** X15. The Standard pipeline never calls the generator's [invoke]: when
    it returns, what it did is text-search calls for the question (none
    at all when router-cached documents were passed in), then
    image-search calls for the original question, then exactly one answer
    generation over the joined text of all the context documents.  Its
    bundle carries no relevance score, entities or query list. *)
Theorem standard_pipeline_calls question initial_docs w bundle w' :
  _standard_rag_pipeline aggregate chain_invoke get_embeddings
    get_clip_text_embedding cos_sim question initial_docs w = (Ok bundle, w') ->
  exists context_docs text_events visual_nodes image_events,
    trace w' =
      trace w ++ text_events ++ image_events
      ++ [EvChain (context_of context_docs) question] /\
    Forall (is_text_search (get_embeddings question)) text_events /\
    Forall (is_image_search (get_clip_text_embedding question)) image_events /\
    (if docs_truthy initial_docs
     then text_events = [] /\ context_docs = default [] initial_docs
     else 1 <= length text_events <= 2) /\
    images bundle =
      rank_images cos_sim (get_clip_text_embedding question) visual_nodes
        context_docs 12 /\
    relevance_score bundle = None /\ entities bundle = None /\ queries bundle = None.
Proof.
  unfold _standard_rag_pipeline. unfold_monad.
  set (first_pass := if docs_truthy initial_docs then _ else _).
  assert (Hfirst : forall docs w1, first_pass w = (Ok docs, w1) ->
            exists evs, trace w1 = trace w ++ evs /\
              Forall (is_text_search (get_embeddings question)) evs /\
              (if docs_truthy initial_docs
               then evs = [] /\ docs = default [] initial_docs
               else 1 <= length evs <= 2)).
  { subst first_pass. intros docs w1. destruct (docs_truthy initial_docs).
    - intros [= <- <-]. exists []. by rewrite app_nil_r.
    - intros H. destruct (retrieve_context_events question 10 (_detect_category question) w)
        as (evs & Ht & Hf & Hl).
      rewrite H in Ht. by exists evs. }
  destruct (first_pass w) as [[docs|e] w1] eqn:E1; [|done].
  destruct (Hfirst docs w1 eq_refl) as (tevs & Ht & Hf & Hc).
  destruct (_retrieve_images _ _ _ _ _ _ _ _) as [[imgs|e] w2] eqn:E2; [|done].
  apply retrieve_images_run in E2 as (vis & ievs & _ & Himgs & Hi & Hif).
  destruct (generate_answer_run chain_invoke question (context_of docs) w2) as [text Ha].
  rewrite Ha. intros [= <- <-]. exists docs, tevs, vis, ievs. simpl.
  rewrite Hi, Ht, <- !app_assoc. by repeat split.
Qed.

Lemma enrich_run entities enriched w all w' :
  enrich aggregate get_embeddings entities enriched w = (Ok all, w') ->
  trace w' = trace w ++ map (fun e => text_search_event (get_embeddings e) 3) entities /\
  exists found, all = enriched ++ found.
Proof.
  revert enriched w. induction entities as [|e rest IH]; intros enriched w; simpl.
  - intros [= <- <-]. split; [by rewrite app_nil_r|]. exists []. by rewrite app_nil_r.
  - unfold_monad. rewrite retrieve_context_unfiltered.
    destruct (aggregate _ _ _) as [found|err]; [|done].
    intros H. apply IH in H as [Ht (more & ->)]. split.
    + rewrite Ht. simpl. by rewrite <- app_assoc.
    + exists (found ++ more). by rewrite app_assoc.
Qed.

(** X16. The Speculative pipeline bounds its enrichment: after the quick
    search it makes one generator call for the draft and one for the
    entities, then exactly one unfiltered text search of width 3 for each
    of the first two entities and no more, then the answer generation and
    the image search for the question followed by those two entities.  The
    bundle still lists every entity that was extracted. *)
Theorem speculative_pipeline_calls question initial_docs w bundle w' :
  _speculative_rag_pipeline aggregate llm_invoke chain_invoke get_embeddings
    get_clip_text_embedding cos_sim question initial_docs w = (Ok bundle, w') ->
  exists quick_docs quick_events draft all_entities context image_events,
    trace w' =
      trace w ++ quick_events
      ++ [EvInvoke (draft_prompt question (context_of quick_docs));
          EvInvoke (entities_prompt (question +:+ " " +:+ draft))]
      ++ map (fun e => text_search_event (get_embeddings e) 3) (take 2 all_entities)
      ++ [EvChain context question]
      ++ image_events /\
    Forall (is_text_search (get_embeddings question)) quick_events /\
    (if docs_truthy initial_docs
     then quick_events = [] /\ quick_docs = take 3 (default [] initial_docs)
     else 1 <= length quick_events <= 2) /\
    entities bundle = Some all_entities /\
    Forall (clean_field PyStr.comma) all_entities /\
    Forall (is_image_search
              (get_clip_text_embedding
                 (question +:+ " " +:+ PyStr.join " " (take 2 all_entities))))
      image_events /\
    gallery_ok (images bundle).
Proof.
  unfold _speculative_rag_pipeline. unfold_monad.
  set (first_pass := if docs_truthy initial_docs then _ else _).
  assert (Hfirst : forall docs w1, first_pass w = (Ok docs, w1) ->
            exists evs, trace w1 = trace w ++ evs /\
              Forall (is_text_search (get_embeddings question)) evs /\
              (if docs_truthy initial_docs
               then evs = [] /\ docs = take 3 (default [] initial_docs)
               else 1 <= length evs <= 2)).
  { subst first_pass. intros docs w1. destruct (docs_truthy initial_docs).
    - intros [= <- <-]. exists []. by rewrite app_nil_r.
    - intros H. destruct (retrieve_context_events question 3 (_detect_category question) w)
        as (evs & Ht & Hf & Hl).
      rewrite H in Ht. by exists evs. }
  destruct (first_pass w) as [[quick|e] w1] eqn:E1; [|done].
  destruct (Hfirst quick w1 eq_refl) as (qevs & Ht & Hf & Hc).
  destruct (generate_draft_answer_run llm_invoke question (context_of quick) w1)
    as [draft Hd].
  rewrite Hd, extract_entities_run.
  set (ents := extracted_entities _).
  assert (Hclean : Forall (clean_field PyStr.comma) ents).
  { subst ents. unfold extracted_entities. destruct (llm_invoke _ _);
      [apply stripped_fields_clean|constructor]. }
  destruct (enrich _ _ _ _ _) as [[enriched|e] w3] eqn:E3; [|done].
  apply enrich_run in E3 as [Htr3 _].
  match goal with
  | |- context [_generate_answer chain_invoke question ?ctx w3] =>
      destruct (generate_answer_run chain_invoke question ctx w3) as [text Ha];
      set (context := ctx) in *
  end.
  rewrite Ha.
  destruct (_retrieve_images _ _ _ _ _ _ _ _) as [[imgs|e] w5] eqn:E5; [|done].
  pose proof (retrieve_images_gallery _ _ _ _ _ _ E5) as Hg.
  apply retrieve_images_run in E5 as (vis & ievs & _ & Himgs & Hi & Hif).
  intros [= <- <-]. exists quick, qevs, draft, ents, context, ievs. simpl.
  split; [|repeat (split; [done|]); done].
  rewrite Hi. simpl. rewrite Htr3. simpl. rewrite Ht, <- !app_assoc. done.
Qed.

Lemma multi_search_run queries category all_results w all w' :
  multi_search aggregate get_embeddings queries category all_results w = (Ok all, w') ->
  exists evs,
    trace w' = trace w ++ evs /\
    Forall (fun ev => exists q, q ∈ queries /\ is_text_search (get_embeddings q) ev) evs /\
    length queries <= length evs <= 2 * length queries /\
    length all = length all_results + length queries.
Proof.
  revert all_results w. induction queries as [|q rest IH]; intros all_results w; simpl.
  - intros [= <- <-]. exists []. rewrite app_nil_r. split; [done|].
    split; [apply List.Forall_nil|]. simpl. lia.
  - unfold_monad.
    destruct (retrieve_context_events q 10 category w) as (evs1 & Ht1 & Hf1 & Hl1).
    destruct (retrieve_context' q 10 category w) as [[docs|e] w1]; [|done].
    simpl in Ht1. intros H. apply IH in H as (evs2 & Ht2 & Hf2 & Hl2 & Hlen).
    exists (evs1 ++ evs2). rewrite Ht2, Ht1, <- app_assoc. split; [done|].
    split; [|split].
    + apply Forall_app. split.
      * eapply Forall_impl; [exact Hf1|]. intros ev Hev. exists q. split; [by left|done].
      * eapply Forall_impl; [exact Hf2|]. intros ev (q' & Hq' & Hev).
        exists q'. split; [by right|done].
    + rewrite length_app. lia.
    + rewrite Hlen, length_app. simpl. lia.
Qed.

(** X17. The Fusion pipeline: one generator call for the paraphrases, then
    text searches for one or two query variations only (each search is for
    one of the reported variations), then the image search for the
    original question and one answer generation over at most 15 fused
    documents.  The reported query list has one or two entries. *)
Theorem fusion_pipeline_calls question initial_docs w bundle w' :
  _fusion_rag_pipeline aggregate llm_invoke chain_invoke get_embeddings
    get_clip_text_embedding cos_sim question initial_docs w = (Ok bundle, w') ->
  exists variations text_events fused_docs image_events,
    queries bundle = Some variations /\
    1 <= length variations <= 2 /\
    trace w' =
      trace w ++ [EvInvoke (queries_prompt question)]
      ++ text_events ++ image_events
      ++ [EvChain (context_of fused_docs) question] /\
    Forall (fun ev => exists q, q ∈ variations /\ is_text_search (get_embeddings q) ev)
      text_events /\
    length variations <= length text_events <= 2 * length variations /\
    length fused_docs <= 15 /\
    Forall (is_image_search (get_clip_text_embedding question)) image_events /\
    gallery_ok (images bundle).
Proof.
  unfold _fusion_rag_pipeline. unfold_monad. rewrite generate_queries_run.
  set (qs := take 2 (generated_queries _ _)).
  assert (Hqs : 1 <= length qs <= 2).
  { subst qs. rewrite length_take. unfold generated_queries.
    destruct (llm_invoke _ _); [rewrite length_app|]; cbn [length]; lia. }
  destruct (multi_search _ _ _ _ _ _) as [[all|e] w2] eqn:E2; [|done].
  apply multi_search_run in E2 as (tevs & Ht & Hf & Hl & _).
  destruct (_retrieve_images _ _ _ _ _ _ _ _) as [[imgs|e] w3] eqn:E3; [|done].
  pose proof (retrieve_images_gallery _ _ _ _ _ _ E3) as Hg.
  apply retrieve_images_run in E3 as (vis & ievs & _ & Himgs & Hi & Hif).
  destruct (generate_answer_run chain_invoke question
              (context_of (_reciprocal_rank_fusion all 15 60)) w3) as [text Ha].
  rewrite Ha. intros [= <- <-].
  exists qs, tevs, (_reciprocal_rank_fusion all 15 60), ievs. simpl.
  split; [done|]. split; [done|]. split.
  { rewrite Hi, Ht. simpl. by rewrite <- !app_assoc. }
  split; [done|]. split; [done|]. split; [|done].
  pose proof (rrf_length_le all 15 60). lia.
Qed.
End Pipelines.

(** *** Whole requests: modes, result keys and errors *)

Ltac run_step :=
  match goal with
  | |- context [let (_, _) := ?t in _] =>
      let E := fresh "E" in destruct t as [[?|?] ?] eqn:E; [|try done]
  end.

Section AskResults.
Context (aggregate : list Event -> Collection -> Params.t -> Res (list Node.t)).
Context (llm_invoke : list Event -> string -> Res string).
Context (chain_invoke : list Event -> string -> string -> Res string).
Context (get_embeddings get_clip_text_embedding : string -> Emb).
Context (cos_sim : Emb -> Emb -> Q).

Abbreviation run_pipeline' :=
  (run_pipeline aggregate llm_invoke chain_invoke get_embeddings
     get_clip_text_embedding cos_sim).
Abbreviation ask'' :=
  (ask aggregate llm_invoke chain_invoke get_embeddings get_clip_text_embedding cos_sim).

Lemma standard_bundle question initial_docs w bundle w' :
  _standard_rag_pipeline aggregate chain_invoke get_embeddings
    get_clip_text_embedding cos_sim question initial_docs w = (Ok bundle, w') ->
  gallery_ok (images bundle) /\ keys_match_mode bundle "standard".
Proof.
  unfold _standard_rag_pipeline. unfold_monad. repeat run_step.
  intros [= <- <-]. simpl. split; [by eapply retrieve_images_gallery|].
  by repeat split.
Qed.

Lemma corrective_bundle question initial_docs w bundle w' :
  _corrective_rag_pipeline aggregate llm_invoke chain_invoke get_embeddings
    get_clip_text_embedding cos_sim question initial_docs w = (Ok bundle, w') ->
  gallery_ok (images bundle) /\ keys_match_mode bundle "corrective".
Proof.
  unfold _corrective_rag_pipeline. unfold_monad. repeat run_step.
  match goal with |- context [let '(_, _) := ?p in _] => destruct p as [docs v_query] end.
  repeat run_step.
  intros [= <- <-]. simpl. split; [by eapply retrieve_images_gallery|].
  by repeat split.
Qed.

Lemma speculative_bundle question initial_docs w bundle w' :
  _speculative_rag_pipeline aggregate llm_invoke chain_invoke get_embeddings
    get_clip_text_embedding cos_sim question initial_docs w = (Ok bundle, w') ->
  gallery_ok (images bundle) /\ keys_match_mode bundle "speculative".
Proof.
  unfold _speculative_rag_pipeline. unfold_monad. repeat run_step.
  intros [= <- <-]. simpl. split; [by eapply retrieve_images_gallery|].
  by repeat split.
Qed.

Lemma fusion_bundle question initial_docs w bundle w' :
  _fusion_rag_pipeline aggregate llm_invoke chain_invoke get_embeddings
    get_clip_text_embedding cos_sim question initial_docs w = (Ok bundle, w') ->
  gallery_ok (images bundle) /\ keys_match_mode bundle "fusion".
Proof.
  unfold _fusion_rag_pipeline. unfold_monad. repeat run_step.
  intros [= <- <-]. simpl. split; [by eapply retrieve_images_gallery|].
  by repeat split.
Qed.

Lemma run_pipeline_result rag_mode question initial_docs w bundle mode w' :
  run_pipeline' rag_mode question initial_docs w = (Ok (bundle, mode), w') ->
  mode ∈ pipeline_modes /\
  (if bool_decide (rag_mode ∈ pipeline_modes) then mode = rag_mode
   else mode = "standard") /\
  gallery_ok (images bundle) /\ keys_match_mode bundle mode.
Proof.
  unfold run_pipeline.
  destruct (String.eqb rag_mode "standard") eqn:E1;
    [apply String.eqb_eq in E1; subst rag_mode|
     destruct (String.eqb rag_mode "corrective") eqn:E2;
     [apply String.eqb_eq in E2; subst rag_mode|
      destruct (String.eqb rag_mode "speculative") eqn:E3;
      [apply String.eqb_eq in E3; subst rag_mode|
       destruct (String.eqb rag_mode "fusion") eqn:E4;
       [apply String.eqb_eq in E4; subst rag_mode|]]]];
    unfold_monad; run_step; intros [= <- <- <-].
  - apply standard_bundle in E. split; [by left|]. by split.
  - apply corrective_bundle in E. split; [by right; left|]. by split.
  - apply speculative_bundle in E. split; [by right; right; left|]. by split.
  - apply fusion_bundle in E. split; [by right; right; right; left|]. by split.
  - apply standard_bundle in E. split; [by left|]. split; [|done].
    rewrite bool_decide_eq_false_2; [done|].
    apply String.eqb_neq in E1, E2, E3, E4. unfold pipeline_modes.
    rewrite !not_elem_of_cons. repeat split; try done. apply not_elem_of_nil.
Qed.

(** X18. Whatever the mode asked for, a returned result names one of the
    four pipelines as its mode (the requested one when it is one of the
    four), its image list has at most 12 entries with pairwise distinct
    paths, in descending score order and all scored above 0.22, and its
    optional keys follow the mode: a relevance score only in corrective
    mode, entities only in speculative mode, a query list only in fusion
    mode. *)
Theorem ask_result_shape question rag_mode w bundle mode w' :
  ask'' question rag_mode w = (Ok (bundle, mode), w') ->
  mode ∈ pipeline_modes /\
  (if bool_decide (rag_mode ∈ pipeline_modes) then mode = rag_mode
   else if String.eqb rag_mode "auto"
        then mode ∈ ["speculative"; "fusion"; "standard"]
        else mode = "standard") /\
  gallery_ok (images bundle) /\
  keys_match_mode bundle mode.
Proof.
  unfold ask. destruct (String.eqb rag_mode "auto") eqn:Ea.
  - apply String.eqb_eq in Ea. subst rag_mode. unfold_monad. run_step.
    intros H. apply run_pipeline_result in H as (Hm & Hsel & Hg & Hk).
    split; [done|]. split; [|done].
    rewrite bool_decide_eq_false_2 by (by vm_compute; intros H; inversion H; subst;
      repeat match goal with H : _ ∈ _ |- _ => inversion H; clear H; subst end).
    revert Hsel. unfold auto_router.
    destruct (_ <=? 3); [|destruct (_ <? 3)]; simpl; intros ->.
    + by left.
    + by right; left.
    + by right; right; left.
  - intros H. apply run_pipeline_result in H as (Hm & Hsel & Hg & Hk).
    split; [done|]. split; [|done]. by destruct (bool_decide _).
Qed.

(** X19. A mode name that is not known is not an error: the request is
    served exactly as a ["standard"] request, with the same calls, the
    same result and ["standard"] as reported mode; like every mode other
    than ["auto"] it issues no probe search. *)
Theorem ask_unknown_mode_is_standard question rag_mode w :
  rag_mode ∉ ("auto" :: pipeline_modes) ->
  ask'' question rag_mode w = ask'' question "standard" w /\
  ask'' question rag_mode w =
    (result ← _standard_rag_pipeline aggregate chain_invoke get_embeddings
                get_clip_text_embedding cos_sim question None;
     mret (result, "standard")) w.
Proof.
  unfold pipeline_modes. rewrite !not_elem_of_cons.
  intros (Ha & H1 & H2 & H3 & H4 & _).
  apply String.eqb_neq in Ha, H1, H2, H3, H4.
  unfold ask, run_pipeline. rewrite Ha, H1, H2, H3, H4. by split.
Qed.
End AskResults.

(** *** The HTTP entry point *)

Section HttpErrors.
Context (aggregate : list Event -> Collection -> Params.t -> Res (list Node.t)).
Context (llm_invoke : list Event -> string -> Res string).
Context (chain_invoke : list Event -> string -> string -> Res string).
Context (get_embeddings get_clip_text_embedding : string -> Emb).
Context (cos_sim : Emb -> Emb -> Q).

Abbreviation faults := (backend_faults_only aggregate).

Lemma faults_of_total {A : Type} (m : M A) : total m -> faults m.
Proof.
  intros Hm w e w' H. destruct (Hm w) as (a & w1 & Ha).
  unfold returns in Ha. congruence.
Qed.

Lemma faults_bind {A B : Type} (m : M A) (f : A -> M B) :
  faults m -> (forall a, faults (f a)) -> faults (m ≫= f).
Proof.
  intros Hm Hf w e w'. unfold_monad.
  destruct (m w) as [[a|e1] w1] eqn:E.
  - apply Hf.
  - intros [= -> ->]. by eapply Hm.
Qed.

Lemma faults_if {A : Type} (b : bool) (m1 m2 : M A) :
  faults m1 -> faults m2 -> faults (if b then m1 else m2).
Proof. by destruct b. Qed.

Lemma faults_fallback c p fd : faults (_manual_fallback aggregate c p fd).
Proof.
  intros w e w'. rewrite manual_fallback_run.
  destruct (aggregate (trace w) c (retry_params p)) eqn:E; [done|].
  intros [= -> _]. by eexists _, _, _.
Qed.

Lemma faults_search c p fd : faults (_execute_resilient_search aggregate c p fd).
Proof.
  intros w e w'. unfold _execute_resilient_search. unfold_monad.
  destruct (filter_truthy fd && existsb _ _); [apply faults_fallback|].
  rewrite call_aggregate_run.
  destruct (aggregate (trace w) c _) as [docs|e1] eqn:E; [done|].
  destruct (is_operation_failure e1).
  - destruct (PyStr.contains _ _ && filter_truthy fd).
    + rewrite for_each_add_broken. apply faults_fallback.
    + intros [= -> _]. by eexists _, _, _.
  - intros [= -> _]. by eexists _, _, _.
Qed.

Ltac trace_faults :=
  repeat first
    [ apply faults_search
    | apply faults_of_total;
      first [ apply total_rewrite_query | apply total_score_relevance
            | apply total_extract_entities | apply total_generate_queries
            | apply total_generate_answer | apply total_generate_draft_answer
            | apply total_ret ]
    | apply faults_if
    | apply faults_bind; [|intros ?]
    | progress cbv zeta
    | match goal with |- faults (let '(_, _) := ?x in _) => destruct x end ].

Lemma faults_retrieve_context question top_k category :
  faults (_retrieve_context aggregate get_embeddings question top_k category).
Proof. apply faults_search. Qed.

Lemma faults_retrieve_images search_query category limit text_docs :
  faults (_retrieve_images aggregate get_clip_text_embedding cos_sim
            search_query category limit text_docs).
Proof. unfold _retrieve_images, strict_visual_search. trace_faults. Qed.

Lemma faults_enrich entities enriched :
  faults (enrich aggregate get_embeddings entities enriched).
Proof.
  revert enriched. induction entities as [|e rest IH]; intros enriched; simpl.
  - apply faults_of_total, total_ret.
  - apply faults_bind; [apply faults_retrieve_context|]. intros found. apply IH.
Qed.

Lemma faults_multi_search queries category all_results :
  faults (multi_search aggregate get_embeddings queries category all_results).
Proof.
  revert all_results. induction queries as [|q rest IH]; intros all_results; simpl.
  - apply faults_of_total, total_ret.
  - apply faults_bind; [apply faults_retrieve_context|]. intros docs. apply IH.
Qed.

Lemma faults_run_pipeline rag_mode question initial_docs :
  faults (run_pipeline aggregate llm_invoke chain_invoke get_embeddings
            get_clip_text_embedding cos_sim rag_mode question initial_docs).
Proof.
  unfold run_pipeline, _standard_rag_pipeline, _corrective_rag_pipeline,
    _speculative_rag_pipeline, _fusion_rag_pipeline.
  repeat first
    [ apply faults_retrieve_context
    | apply faults_retrieve_images
    | apply faults_enrich
    | apply faults_multi_search
    | progress trace_faults ].
Qed.

Lemma faults_ask question rag_mode :
  faults (ask aggregate llm_invoke chain_invoke get_embeddings
            get_clip_text_embedding cos_sim question rag_mode).
Proof.
  unfold ask. apply faults_if; [|apply faults_run_pipeline].
  apply faults_bind; [apply faults_retrieve_context|].
  intros docs. apply faults_run_pipeline.
Qed.

(** X20. The endpoint either returns the engine's result unchanged or
    answers with an HTTP error whose status is 500 and whose detail is
    the text of an error that a search-backend call raised in this
    deployment; a failure of the language model never reaches the client
    as an error. *)
Theorem ask_question_errors request w :
  match ask_question aggregate llm_invoke chain_invoke get_embeddings
          get_clip_text_embedding cos_sim request w with
  | (inr response, w') =>
      ask aggregate llm_invoke chain_invoke get_embeddings
        get_clip_text_embedding cos_sim
        (Api.question request) (Api.rag_mode request) w = (Ok response, w')
  | (inl error, w') =>
      Api.status_code error = 500 /\
      exists h c p e,
        aggregate h c p = Raise e /\ Api.detail error = exn_str e
  end.
Proof.
  unfold ask_question.
  destruct (ask _ _ _ _ _ _ _ _ w) as [[response|e] w1] eqn:E; [done|].
  split; [done|]. apply faults_ask in E as (h & c & p & E). by exists h, c, p, e.
Qed.
End HttpErrors.

(** *** The embedding caches *)

Section EmbeddingCaches.
Context (text_model_encode clip_text_features clip_image_features
  : list RagTools.ModelCall -> string -> Emb).

Abbreviation rt_get_embeddings := (RagTools.get_embeddings text_model_encode).
Abbreviation rt_get_clip_text := (RagTools.get_clip_text_embedding clip_text_features).
Abbreviation rt_get_clip_image := (RagTools.get_clip_image_embedding clip_image_features).
Abbreviation rt_used :=
  (RagTools.used text_model_encode clip_text_features clip_image_features).

Lemma caches_kept_text text self : caches_kept self (rt_get_embeddings text self).2.
Proof.
  unfold RagTools.get_embeddings.
  destruct (RagTools._text_cache self !! text) eqn:E; simpl; [done|].
  split; [|done]. intros t v Ht. simpl.
  destruct (decide (text = t)) as [->|Hne]; [congruence|].
  by rewrite lookup_insert_ne.
Qed.

Lemma caches_kept_clip text self : caches_kept self (rt_get_clip_text text self).2.
Proof.
  unfold RagTools.get_clip_text_embedding.
  destruct (RagTools._clip_text_cache self !! text) eqn:E; simpl; [done|].
  split; [done|]. intros t v Ht. simpl.
  destruct (decide (text = t)) as [->|Hne]; [congruence|].
  by rewrite lookup_insert_ne.
Qed.

Lemma used_caches_kept self self' : rt_used self self' -> caches_kept self self'.
Proof.
  induction 1 as [self|self text self' _ IH|self p self' _ IH|self text self' _ IH].
  - done.
  - destruct (caches_kept_text text self) as [H1 H2], IH as [H3 H4].
    split; intros t v Ht; auto.
  - destruct IH as [H3 H4]. split; intros t v Ht; [apply H3|apply H4]; done.
  - destruct (caches_kept_clip text self) as [H1 H2], IH as [H3 H4].
    split; intros t v Ht; auto.
Qed.

Lemma text_cached_after text self :
  RagTools._text_cache (rt_get_embeddings text self).2 !! text
  = Some (rt_get_embeddings text self).1.
Proof.
  unfold RagTools.get_embeddings.
  destruct (RagTools._text_cache self !! text) eqn:E; simpl; [done|].
  by rewrite lookup_insert_eq.
Qed.

Lemma clip_cached_after text self :
  RagTools._clip_text_cache (rt_get_clip_text text self).2 !! text
  = Some (rt_get_clip_text text self).1.
Proof.
  unfold RagTools.get_clip_text_embedding.
  destruct (RagTools._clip_text_cache self !! text) eqn:E; simpl; [done|].
  by rewrite lookup_insert_eq.
Qed.

(** X21. Once a text has been embedded, every later request for the same
    text, after any number of other embedding requests, returns the very
    same vector and leaves the object as it is (no model call, no cache
    change); this holds for the sentence-embedding cache and for the CLIP
    text cache, which do not disturb one another. *)
Theorem embedding_cache_stable text self self' :
  let used := RagTools.used text_model_encode clip_text_features clip_image_features in
  let get_embeddings := RagTools.get_embeddings text_model_encode in
  let get_clip_text_embedding := RagTools.get_clip_text_embedding clip_text_features in
  (used (get_embeddings text self).2 self' ->
   get_embeddings text self' = ((get_embeddings text self).1, self')) /\
  (used (get_clip_text_embedding text self).2 self' ->
   get_clip_text_embedding text self' = ((get_clip_text_embedding text self).1, self')).
Proof.
  cbv zeta. split; intros H; apply used_caches_kept in H as [H1 H2].
  - specialize (H1 _ _ (text_cached_after text self)).
    unfold RagTools.get_embeddings at 1. by rewrite H1.
  - specialize (H2 _ _ (clip_cached_after text self)).
    unfold RagTools.get_clip_text_embedding at 1. by rewrite H2.
Qed.

Lemma encoded_texts_app l1 l2 :
  RagTools.encoded_texts (l1 ++ l2) = RagTools.encoded_texts l1 ++ RagTools.encoded_texts l2.
Proof. apply omap_app. Qed.

Lemma clip_texts_app l1 l2 :
  RagTools.clip_texts (l1 ++ l2) = RagTools.clip_texts l1 ++ RagTools.clip_texts l2.
Proof. apply omap_app. Qed.

Lemma NoDup_snoc {A : Type} (l : list A) (x : A) : NoDup l -> x ∉ l -> NoDup (l ++ [x]).
Proof.
  intros Hl Hx. apply NoDup_app. split; [done|]. split; [|apply NoDup_singleton].
  intros y Hy Hy'. apply list_elem_of_singleton in Hy'. by subst.
Qed.

Lemma caches_match_text text self :
  caches_match_calls self -> caches_match_calls (rt_get_embeddings text self).2.
Proof.
  intros (H1 & H2 & H3 & H4). unfold RagTools.get_embeddings.
  destruct (RagTools._text_cache self !! text) eqn:E; simpl; [done|].
  unfold caches_match_calls. simpl.
  rewrite encoded_texts_app, clip_texts_app. cbn [RagTools.encoded_texts RagTools.clip_texts omap list_omap].
  rewrite app_nil_r. repeat split; try done.
  - intros Hs. apply elem_of_app. destruct (decide (text = text0)) as [->|Hne].
    + right. by left.
    + left. apply H1. by rewrite lookup_insert_ne in Hs.
  - intros [Hin|Hin%list_elem_of_singleton]%elem_of_app.
    + destruct (decide (text = text0)) as [->|Hne].
      * by rewrite lookup_insert_eq.
      * rewrite lookup_insert_ne by done. by apply H1.
    + subst. by rewrite lookup_insert_eq.
  - apply H2.
  - apply H2.
  - apply NoDup_snoc; [done|]. intros Hin. apply H1 in Hin. rewrite E in Hin.
    by destruct Hin.
Qed.

Lemma caches_match_clip text self :
  caches_match_calls self -> caches_match_calls (rt_get_clip_text text self).2.
Proof.
  intros (H1 & H2 & H3 & H4). unfold RagTools.get_clip_text_embedding.
  destruct (RagTools._clip_text_cache self !! text) eqn:E; simpl; [done|].
  unfold caches_match_calls. simpl.
  rewrite encoded_texts_app, clip_texts_app. cbn [RagTools.encoded_texts RagTools.clip_texts omap list_omap].
  rewrite app_nil_r. repeat split; try done.
  - apply H1.
  - apply H1.
  - intros Hs. apply elem_of_app. destruct (decide (text = text0)) as [->|Hne].
    + right. by left.
    + left. apply H2. by rewrite lookup_insert_ne in Hs.
  - intros [Hin|Hin%list_elem_of_singleton]%elem_of_app.
    + destruct (decide (text = text0)) as [->|Hne].
      * by rewrite lookup_insert_eq.
      * rewrite lookup_insert_ne by done. by apply H2.
    + subst. by rewrite lookup_insert_eq.
  - apply NoDup_snoc; [done|]. intros Hin. apply H2 in Hin. rewrite E in Hin.
    by destruct Hin.
Qed.

Lemma caches_match_image image_path self :
  caches_match_calls self -> caches_match_calls (rt_get_clip_image image_path self).2.
Proof.
  intros (H1 & H2 & H3 & H4). unfold caches_match_calls. simpl.
  rewrite encoded_texts_app, clip_texts_app. cbn [RagTools.encoded_texts RagTools.clip_texts omap list_omap].
  by rewrite !app_nil_r.
Qed.

Lemma used_caches_match self self' :
  rt_used self self' -> caches_match_calls self -> caches_match_calls self'.
Proof.
  induction 1 as [self|self text self' _ IH|self p self' _ IH|self text self' _ IH];
    intros Hinv; [done|apply IH..].
  - by apply caches_match_text.
  - by apply caches_match_image.
  - by apply caches_match_clip.
Qed.

(** X22. In an object that started with empty caches, whatever requests
    were served since, each model has been given every text at most once,
    and a text is in a cache exactly when the corresponding model was
    given it. *)
Theorem models_encode_each_text_once self :
  rt_used RagTools.init self ->
  NoDup (RagTools.encoded_texts (RagTools.calls self)) /\
  NoDup (RagTools.clip_texts (RagTools.calls self)) /\
  (forall text, is_Some (RagTools._text_cache self !! text) <->
                text ∈ RagTools.encoded_texts (RagTools.calls self)) /\
  (forall text, is_Some (RagTools._clip_text_cache self !! text) <->
                text ∈ RagTools.clip_texts (RagTools.calls self)).
Proof.
  intros H. apply used_caches_match in H as (H1 & H2 & H3 & H4); [done|].
  unfold caches_match_calls. simpl. repeat split; try apply NoDup_nil_2.
  - rewrite lookup_empty. by intros [? ?].
  - by intros ?%elem_of_nil.
  - rewrite lookup_empty. by intros [? ?].
  - by intros ?%elem_of_nil.
Qed.
End EmbeddingCaches.

(** *** Chunking *)

Lemma split_every_space_fields (s : string) :
  Forall (fun w => Forall (fun c => PyStr.is_space c = false) (chars w))
    (PyStr.split_every_space s).
Proof.
  induction s as [|c s IH]; simpl.
  - by repeat constructor.
  - destruct (PyStr.is_space c) eqn:E.
    + constructor; [constructor|done].
    + destruct (PyStr.split_every_space s) as [|w ws].
      * by repeat constructor.
      * inversion IH; subst. constructor; [|done]. simpl. by constructor.
Qed.

Lemma split_words (text : string) : Forall is_word (PyStr.split text).
Proof.
  unfold PyStr.split. apply Forall_forall. intros w Hw.
  apply list_elem_of_filter in Hw as [Ht Hw]. split; [done|].
  by eapply Forall_forall in Hw; [|apply split_every_space_fields].
Qed.

Lemma split_every_space_word (w : string) :
  Forall (fun c => PyStr.is_space c = false) (chars w) ->
  PyStr.split_every_space w = [w].
Proof.
  induction w as [|c w IH]; simpl; [done|].
  intros H. inversion H as [|? ? Hc Hw]; subst. by rewrite Hc, IH.
Qed.

Lemma split_every_space_word_sep (w s : string) :
  Forall (fun c => PyStr.is_space c = false) (chars w) ->
  PyStr.split_every_space (w +:+ String " " s) = w :: PyStr.split_every_space s.
Proof.
  induction w as [|c w IH]; intros H.
  - by rewrite string_app_nil_l.
  - inversion H as [|? ? Hc Hw]; subst. rewrite string_app_cons. simpl.
    by rewrite Hc, IH.
Qed.

Lemma join_cons2 (w w' : string) (ws : list string) :
  PyStr.join " " (w :: w' :: ws) = w +:+ String " " (PyStr.join " " (w' :: ws)).
Proof. reflexivity. Qed.

(** Splitting a space-joined list of words gives the words back. *)
Lemma split_join (ws : list string) :
  Forall is_word ws -> PyStr.split (PyStr.join " " ws) = ws.
Proof.
  induction ws as [|w ws IH]; intros H; [done|].
  inversion H as [|? ? [Ht Hc] Hws]; subst.
  destruct ws as [|w' ws'].
  - unfold PyStr.split. simpl PyStr.join. rewrite split_every_space_word by done.
    by rewrite filter_cons_True.
  - rewrite join_cons2. unfold PyStr.split in *.
    rewrite split_every_space_word_sep by done.
    rewrite filter_cons_True by done. by rewrite IH.
Qed.

Lemma word_has_nonspace (w : string) : is_word w -> has_nonspace w = true.
Proof.
  intros [Ht Hc]. destruct w as [|c w]; [done|]. simpl.
  inversion Hc as [|? ? Hc1 _]; subst. by rewrite Hc1.
Qed.

Lemma join_words_truthy (ws : list string) :
  Forall is_word ws -> ws <> [] ->
  PyStr.truthy (PyStr.strip (PyStr.join " " ws)) = true.
Proof.
  intros H Hne. rewrite truthy_strip.
  destruct ws as [|w ws]; [done|]. inversion H as [|? ? Hw _]; subst.
  destruct ws as [|w' ws'].
  - by apply word_has_nonspace.
  - rewrite join_cons2, has_nonspace_app, word_has_nonspace; done.
Qed.

Lemma slice_bound_nat (n a : nat) : slice_bound n (Z.of_nat a) = min a n.
Proof.
  unfold slice_bound. destruct (Z.ltb_spec (Z.of_nat a) 0); [lia|].
  by rewrite Nat2Z.id.
Qed.

Lemma take_clip {A : Type} (l : list A) (a c : nat) :
  take (min (a + c) (length l) - a) (drop a l) = take c (drop a l).
Proof.
  destruct (Nat.le_gt_cases (a + c) (length l)) as [Hle|Hgt].
  - by replace (min (a + c) (length l) - a) with c by lia.
  - rewrite !take_ge; [done| |]; rewrite length_drop; lia.
Qed.

(** A window that starts inside the list is what the slice selects. *)
Lemma py_slice_window {A : Type} (l : list A) (a c : nat) :
  a < length l ->
  py_slice l (Z.of_nat a) (Z.of_nat a + Z.of_nat c) = take c (drop a l).
Proof.
  intros Ha. unfold py_slice. rewrite <- Nat2Z.inj_add, !slice_bound_nat.
  replace (min a (length l)) with a by lia. apply take_clip.
Qed.

Lemma chunk_loop_windows (words : list string) (c s : nat) (ks : list nat) :
  0 < c ->
  Forall is_word words ->
  Forall (fun k => k * s < length words) ks ->
  chunk_loop words (Z.of_nat c) (map (fun k => (0 + Z.of_nat k * Z.of_nat s)%Z) ks)
  = map (fun k => PyStr.join " " (take c (drop (k * s) words))) ks.
Proof.
  intros Hc Hw Hks.
  induction ks as [|k ks IH]; [done|]. inversion Hks; subst. simpl.
  replace (0 + Z.of_nat k * Z.of_nat s)%Z with (Z.of_nat (k * s)) by lia.
  rewrite py_slice_window by done.
  rewrite join_words_truthy.
  - f_equal. rewrite <- IH by done. f_equal.
  - apply Forall_take, Forall_drop, Hw.
  - intros E. apply (f_equal length) in E. rewrite length_take, length_drop in E.
    simpl in E. lia.
Qed.

(** The number of iterations of [range(0, n, s)] for a positive step. *)
Lemma range_count (n s : nat) :
  0 < s ->
  exists cnt,
    Z.of_nat cnt = ((Z.of_nat n + Z.of_nat s - 1) / Z.of_nat s)%Z /\
    forall k, k < cnt <-> k * s < n.
Proof.
  intros Hs.
  assert (Hdiv : ((Z.of_nat n + Z.of_nat s - 1) / Z.of_nat s
                  = (Z.of_nat n - 1) / Z.of_nat s + 1)%Z).
  { replace (Z.of_nat n + Z.of_nat s - 1)%Z
      with (Z.of_nat n - 1 + 1 * Z.of_nat s)%Z by lia.
    rewrite Z.div_add by lia. done. }
  pose proof (Z.div_mod (Z.of_nat n - 1) (Z.of_nat s) ltac:(lia)) as Hdm.
  pose proof (Z.mod_pos_bound (Z.of_nat n - 1) (Z.of_nat s) ltac:(lia)) as Hmod.
  set (q := ((Z.of_nat n - 1) / Z.of_nat s)%Z) in *.
  set (r := ((Z.of_nat n - 1) mod Z.of_nat s)%Z) in *.
  assert (Hq : (-1 <= q)%Z) by nia.
  exists (Z.to_nat (q + 1)). split; [rewrite Hdiv; lia|].
  intros k. split; intros Hk; nia.
Qed.

(** X23. With [0 <= overlap < chunk_size], chunking never fails; chunk
    number [k] exists exactly when word [k * (chunk_size - overlap)]
    exists, and splitting it gives back the [chunk_size] words from that
    position on (fewer at the end of the text).  So no word is lost:
    word [j] of the text is word [j mod step] of chunk [j / step]. *)
Theorem get_chunks_windows (text : string) (chunk_size overlap : Z) :
  (0 <= overlap < chunk_size)%Z ->
  let words := PyStr.split text in
  let step := Z.to_nat (chunk_size - overlap) in
  exists chunks,
    get_chunks text chunk_size overlap = Ok chunks /\
    (forall k, k < length chunks <-> k * step < length words) /\
    (forall k chunk, chunks !! k = Some chunk ->
       PyStr.split chunk = take (Z.to_nat chunk_size) (drop (k * step) words)) /\
    (forall j word, words !! j = Some word ->
       exists chunk, chunks !! (j / step) = Some chunk /\
                     PyStr.split chunk !! (j mod step) = Some word).
Proof.
  intros Hb words step.
  set (c := Z.to_nat chunk_size).
  assert (Hc : chunk_size = Z.of_nat c) by lia.
  assert (Hs : (chunk_size - overlap)%Z = Z.of_nat step) by lia.
  assert (Hpos : 0 < step) by lia.
  assert (Hsc : step <= c) by lia.
  destruct (range_count (length words) step Hpos) as (cnt & Hcnt & Hk).
  pose proof (split_words text) as Hw. fold words in Hw.
  assert (Hwin : forall k, k < cnt ->
            PyStr.split (PyStr.join " " (take c (drop (k * step) words)))
            = take c (drop (k * step) words)).
  { intros k _. apply split_join, Forall_take, Forall_drop, Hw. }
  exists (map (fun k => PyStr.join " " (take c (drop (k * step) words))) (seq 0 cnt)).
  split; [|split; [|split]].
  - unfold get_chunks, py_range. fold words. rewrite Hs.
    destruct (Z.eqb_spec (Z.of_nat step) 0); [lia|].
    destruct (Z.ltb_spec 0 (Z.of_nat step)); [|lia].
    rewrite Z.sub_0_r, <- Hcnt, Nat2Z.id, Hc. f_equal.
    apply chunk_loop_windows; [lia|done|].
    apply Forall_forall. intros k Hin. apply elem_of_seq in Hin. apply Hk. lia.
  - intros k. by rewrite length_map, length_seq.
  - intros k chunk Hl. rewrite list_lookup_fmap in Hl.
    destruct (seq 0 cnt !! k) as [k'|] eqn:E; [|done].
    apply lookup_seq in E as [-> Hlt]. simpl in Hl. injection Hl as <-.
    by apply Hwin.
  - intros j word Hj.
    assert (Hjn : j < length words) by (by eapply lookup_lt_Some).
    pose proof (Nat.div_mod_eq j step) as Hdm.
    pose proof (Nat.mod_upper_bound j step ltac:(lia)) as Hm.
    assert (Hlt : j / step < cnt) by (apply Hk; nia).
    eexists. split.
    + rewrite list_lookup_fmap, lookup_seq_lt by done. reflexivity.
    + rewrite Hwin by done. rewrite lookup_take_lt by lia. rewrite lookup_drop.
      change (0 + j / step) with (j / step).
      replace (j / step * step + j mod step) with j
        by (rewrite (Nat.mul_comm (j / step) step); lia).
      done.
Qed.

(** X24. The degenerate settings: an overlap equal to the chunk size
    raises (a zero step) whatever the text, and an overlap larger than the
    chunk size silently yields no chunk at all. *)
Theorem get_chunks_degenerate (text : string) (chunk_size : Z) (excess : positive) :
  get_chunks text chunk_size chunk_size
    = Raise (OtherError "range() arg 3 must not be zero") /\
  get_chunks text chunk_size (chunk_size + Z.pos excess) = Ok [].
Proof.
  unfold get_chunks, py_range. split.
  - by rewrite Z.sub_diag.
  - replace (chunk_size - (chunk_size + Z.pos excess))%Z with (Z.neg excess) by lia.
    change (Z.neg excess =? 0)%Z with false.
    change (0 <? Z.neg excess)%Z with false. cbv iota.
    match goal with
    | |- context [Z.to_nat ?x] => replace (Z.to_nat x) with 0; [done|]
    end.
    change (- Z.neg excess)%Z with (Z.pos excess).
    match goal with
    | |- context [Z.to_nat ?x] => assert (x < 1)%Z; [|lia]
    end.
    apply Z.div_lt_upper_bound; lia.
Qed.

(** *** The further properties on the sample catalogue *)

Example get_chunks_sample :
  get_chunks sample_text 3 1 = Ok ["one two three"; "three four five"; "five"] /\
  get_chunks sample_text 500 100 = Ok ["one two three four five"] /\
  get_chunks "   " 500 100 = Ok [].
Proof. repeat split; vm_compute; reflexivity. Qed.

Lemma detect_category_substring_witness :
  _detect_category "scarf" = Some "automotive" /\
  _detect_category ("a red " +:+ "scarf" +:+ " for winter") = Some "automotive".
Proof.
  assert (H : _detect_category "scarf" = Some "automotive") by reflexivity.
  split; [exact H|].
  exact (proj2 (proj2 detect_category_substring) "a red " "scarf" " for winter" H).
Defined.

Lemma reciprocal_rank_fusion_single_list_witness :
  NoDup (map Node._id [node_gasket; node_wrench; node_socket]) /\
  _reciprocal_rank_fusion [[node_gasket; node_wrench; node_socket]] 2 60
  = take 2 [node_gasket; node_wrench; node_socket].
Proof.
  assert (H : NoDup (map Node._id [node_gasket; node_wrench; node_socket]))
    by (apply (bool_decide_unpack _); vm_compute; exact I).
  split; [exact H|].
  exact (reciprocal_rank_fusion_single_list [node_gasket; node_wrench; node_socket] 2 H).
Defined.


Lemma search_errors_propagate_witness :
  (_execute_resilient_search sample_backend_failing_retry unified_nodes
     style_params style_filter fresh_world).1
  = Raise (OtherError "connection timed out") /\
  forall key, key ∈ filter_keys style_filter ->
    key ∈ _broken_filters
            (_execute_resilient_search sample_backend_failing_retry unified_nodes
               style_params style_filter fresh_world).2.
Proof.
  destruct (search_errors_propagate sample_backend_failing_retry unified_nodes
              style_params style_filter fresh_world (OtherError "connection timed out"))
    as (_ & _ & H).
  destruct (H "Path 'style' needs to be indexed as filter") as (Hr & _ & Hk);
    [reflexivity|vm_compute; reflexivity|reflexivity|vm_compute; reflexivity
    |reflexivity|].
  split; [exact Hr|exact Hk].
Defined.

Lemma standard_pipeline_calls_witness :
  exists bundle w',
    _standard_rag_pipeline sample_backend sample_chain sample_embed sample_clip
      sample_cos_sim sample_question None fresh_world = (Ok bundle, w') /\
    relevance_score bundle = None.
Proof.
  eexists _, _. split; [vm_compute; reflexivity|].
  edestruct (standard_pipeline_calls sample_backend sample_chain sample_embed
               sample_clip sample_cos_sim sample_question None fresh_world)
    as (docs & tev & vis & iev & _ & _ & _ & _ & _ & Hr & _);
    [vm_compute; reflexivity|].
  exact Hr.
Defined.

Lemma speculative_pipeline_calls_witness :
  exists bundle w',
    _speculative_rag_pipeline sample_backend sample_llm sample_chain sample_embed
      sample_clip sample_cos_sim sample_question None fresh_world = (Ok bundle, w') /\
    gallery_ok (images bundle).
Proof.
  eexists _, _. split; [vm_compute; reflexivity|].
  edestruct (speculative_pipeline_calls sample_backend sample_llm sample_chain
               sample_embed sample_clip sample_cos_sim sample_question None fresh_world)
    as (docs & qev & draft & ents & ctx & iev & _ & _ & _ & _ & _ & _ & Hg);
    [vm_compute; reflexivity|].
  exact Hg.
Defined.

Lemma fusion_pipeline_calls_witness :
  exists bundle w',
    _fusion_rag_pipeline sample_backend sample_llm sample_chain sample_embed
      sample_clip sample_cos_sim sample_question None fresh_world = (Ok bundle, w') /\
    gallery_ok (images bundle).
Proof.
  eexists _, _. split; [vm_compute; reflexivity|].
  edestruct (fusion_pipeline_calls sample_backend sample_llm sample_chain
               sample_embed sample_clip sample_cos_sim sample_question None fresh_world)
    as (vars & tev & fused & iev & _ & _ & _ & _ & _ & _ & _ & Hg);
    [vm_compute; reflexivity|].
  exact Hg.
Defined.

Lemma ask_result_shape_witness :
  exists bundle mode w',
    ask sample_backend sample_llm sample_chain sample_embed sample_clip
      sample_cos_sim sample_question "auto" fresh_world = (Ok (bundle, mode), w') /\
    keys_match_mode bundle mode.
Proof.
  eexists _, _, _. split; [vm_compute; reflexivity|].
  edestruct (ask_result_shape sample_backend sample_llm sample_chain sample_embed
               sample_clip sample_cos_sim sample_question "auto" fresh_world)
    as (_ & _ & _ & Hk); [vm_compute; reflexivity|].
  exact Hk.
Defined.

Lemma ask_unknown_mode_is_standard_witness :
  ("hybrid" ∉ ("auto" :: pipeline_modes)) /\
  ask sample_backend sample_llm sample_chain sample_embed sample_clip
    sample_cos_sim sample_question "hybrid" fresh_world
  = ask sample_backend sample_llm sample_chain sample_embed sample_clip
      sample_cos_sim sample_question "standard" fresh_world.
Proof.
  assert (H : "hybrid" ∉ ("auto" :: pipeline_modes))
    by (apply (bool_decide_unpack _); vm_compute; exact I).
  split; [exact H|].
  exact (proj1 (ask_unknown_mode_is_standard sample_backend sample_llm sample_chain
                  sample_embed sample_clip sample_cos_sim sample_question "hybrid"
                  fresh_world H)).
Defined.

Lemma embedding_cache_stable_witness :
  RagTools.get_embeddings sample_text_model "oak table" sample_tools
  = ((RagTools.get_embeddings sample_text_model "oak table" RagTools.init).1,
     sample_tools).
Proof.
  apply (proj1 (embedding_cache_stable sample_text_model sample_clip_model
                  sample_image_model "oak table" RagTools.init sample_tools)).
  apply RagTools.used_clip_text with (text := "oak table").
  apply RagTools.used_now.
Defined.

Lemma models_encode_each_text_once_witness :
  RagTools.used sample_text_model sample_clip_model sample_image_model
    RagTools.init sample_tools /\
  NoDup (RagTools.encoded_texts (RagTools.calls sample_tools)).
Proof.
  assert (H : RagTools.used sample_text_model sample_clip_model sample_image_model
                RagTools.init sample_tools).
  { apply RagTools.used_text with (text := "oak table").
    apply RagTools.used_clip_text with (text := "oak table").
    apply RagTools.used_now. }
  split; [exact H|].
  exact (proj1 (models_encode_each_text_once sample_text_model sample_clip_model
                  sample_image_model sample_tools H)).
Defined.

Lemma get_chunks_windows_witness :
  (0 <= 1 < 3)%Z /\
  exists chunks,
    get_chunks sample_text 3 1 = Ok chunks /\
    forall k, k < length chunks <-> k * 2 < length (PyStr.split sample_text).
Proof.
  assert (H : (0 <= 1 < 3)%Z) by lia.
  split; [exact H|].
  destruct (get_chunks_windows sample_text 3 1 H) as (chunks & Hc & Hk & _).
  exists chunks. split; [exact Hc|exact Hk].
Defined.
